(** * Feishu block tree to Markdown: the renderer of [converter/markdown.ts]

    A shallow embedding of [MarkdownRenderer] (with [Buffer] of
    [converter/buffer.ts], the tables of [converter/types.ts] and
    [replaceFileTokens] and [sanitizeFilename] of [utils/file.ts]) and the
    properties of its output.

    Strings.  A JavaScript string is modelled by a Rocq [string] holding
    its UTF-8 code units.  Every delimiter the renderer writes or looks for
    is ASCII, except the full-width colon U+FF1A, which is the three bytes
    EF BC 9A; [length] is only ever compared with zero or used to cut off a
    suffix that was just matched, so counting bytes instead of UTF-16 code
    units changes nothing.

    Numbers.  Sizes, spans, widths and colour ids are integers ([Z]) as the
    document API delivers them; a number that is absent ([undefined]) and
    the number [0] are both falsy in the source and are both modelled by
    [0] wherever the source only tests truthiness.

    Effects.  The renderer's mutable members are threaded through the
    walk as a state; the exceptions of the built-ins it calls
    ([decodeURIComponent], a member read on [undefined]) and of [parse]
    itself are outcomes of a call; the recursion through the block map,
    which the source does not bound, is bounded by fuel, and running out
    of it is an outcome of its own. *)

From Stdlib Require Import ZArith Ascii String List DecimalString Lia.
From stdpp Require Import base option list gmap strings.

Local Open Scope Z_scope.

(* ===================================================================== *)
(** * JavaScript string primitives used by the renderer *)
(* ===================================================================== *)

Module Js.

Definition code (c : ascii) : N := N_of_ascii c.

Definition chr (n : N) : ascii := ascii_of_N n.

Definition LF : string := String (chr 10) "".

(** The double quote, as a one-character string. *)
Definition DQ : string := String (chr 34) "".

(** [s] between double quotes, as in an attribute of a template literal. *)
Definition quoted (s : string) : string := DQ +:+ s +:+ DQ.

(** [parts.join("")]. *)
Fixpoint concat (l : list string) : string :=
  match l with
  | [] => ""
  | s :: l' => s +:+ concat l'
  end.

(** [parts.join(sep)]. *)
Fixpoint join (sep : string) (l : list string) : string :=
  match l with
  | [] => ""
  | [s] => s
  | s :: l' => s +:+ sep +:+ join sep l'
  end.

(** [s.repeat(n)]. *)
Fixpoint repeat (s : string) (n : nat) : string :=
  match n with
  | O => ""
  | S n' => s +:+ repeat s n'
  end.

Definition startsWith (s p : string) : bool := String.prefix p s.

(** [s.endsWith(suf)]: some tail of [s] is [suf]. *)
Fixpoint endsWith (s suf : string) : bool :=
  String.eqb s suf ||
  match s with
  | "" => false
  | String _ s' => endsWith s' suf
  end.

(** [s.slice(0, -n)] for [n > 0]: all but the last [n] code units. *)
Definition dropLast (n : nat) (s : string) : string :=
  String.substring 0 (String.length s - n)%nat s.

(** [s.replace(/c/g, r)] for a one-character pattern. *)
Fixpoint replaceChar (c : ascii) (r : string) (s : string) : string :=
  match s with
  | "" => ""
  | String a s' =>
      if Ascii.eqb a c then r +:+ replaceChar c r s'
      else String a (replaceChar c r s')
  end.

(** The number conversion of a template literal, on integers. *)
Definition ofZ (z : Z) : string := NilZero.string_of_int (Z.to_int z).

Definition ofNat (n : nat) : string := NilZero.string_of_uint (Nat.to_uint n).

(** ** White space: [trim], [trimStart], [trimEnd]

    The WhiteSpace and LineTerminator code points of ECMAScript, by their
    UTF-8 encodings: TAB LF VT FF CR SP; U+00A0; U+1680; U+2000..U+200A,
    U+2028, U+2029, U+202F; U+205F; U+3000; U+FEFF. *)

Definition ws1 (a : N) : bool :=
  ((9 <=? a) && (a <=? 13) || (a =? 32))%N.

Definition ws2 (a b : N) : bool := ((a =? 194) && (b =? 160))%N.

Definition ws3 (a b c : N) : bool :=
  ((a =? 225) && (b =? 154) && (c =? 128)
   || (a =? 226) && (b =? 128)
      && ((128 <=? c) && (c <=? 138) || (c =? 168) || (c =? 169) || (c =? 175))
   || (a =? 226) && (b =? 129) && (c =? 159)
   || (a =? 227) && (b =? 128) && (c =? 128)
   || (a =? 239) && (b =? 187) && (c =? 191))%N.

(** Strips white space from the front; with [back] the string is read
    from its end (it is given reversed), so the bytes of a code point
    arrive last byte first. *)
Fixpoint stripWs (back : bool) (s : string) : string :=
  match s with
  | "" => ""
  | String c1 r1 =>
      if ws1 (code c1) then stripWs back r1
      else
        match r1 with
        | "" => s
        | String c2 r2 =>
            if (if back then ws2 (code c2) (code c1) else ws2 (code c1) (code c2))
            then stripWs back r2
            else
              match r2 with
              | "" => s
              | String c3 r3 =>
                  if (if back then ws3 (code c3) (code c2) (code c1)
                      else ws3 (code c1) (code c2) (code c3))
                  then stripWs back r3
                  else s
              end
        end
  end.

Definition trimStart (s : string) : string := stripWs false s.

Definition trimEnd (s : string) : string :=
  String.rev (stripWs true (String.rev s)).

Definition trim (s : string) : string := trimEnd (trimStart s).

(** [s.toLowerCase()] on the ASCII letters (the only ones in the enum
    names it is applied to). *)
Definition lowerChar (c : ascii) : ascii :=
  let n := code c in
  if ((65 <=? n) && (n <=? 90))%N then chr (n + 32) else c.

Fixpoint toLowerCase (s : string) : string :=
  match s with
  | "" => ""
  | String c s' => String (lowerChar c) (toLowerCase s')
  end.

(** ** [decodeURIComponent]

    [None] stands for the [URIError] the built-in throws: a [%] that is
    not followed by two hexadecimal digits, or escaped octets that are
    not the UTF-8 encoding of one code point. *)

Definition hexVal (c : ascii) : option N :=
  let n := code c in
  if ((48 <=? n) && (n <=? 57))%N then Some (n - 48)%N
  else if ((65 <=? n) && (n <=? 70))%N then Some (n - 55)%N
  else if ((97 <=? n) && (n <=? 102))%N then Some (n - 87)%N
  else None.

Definition hexByte (h l : ascii) : option N :=
  match hexVal h, hexVal l with
  | Some a, Some b => Some (16 * a + b)%N
  | _, _ => None
  end.

(** Number of octets announced by a leading octet ([0]: not a leading
    octet of a multi-octet sequence). *)
Definition seqLen (b : N) : nat :=
  if ((192 <=? b) && (b <=? 223))%N then 2
  else if ((224 <=? b) && (b <=? 239))%N then 3
  else if ((240 <=? b) && (b <=? 247))%N then 4
  else 0.

Definition isCont (b : N) : bool := ((128 <=? b) && (b <=? 191))%N.

(** Well-formed UTF-8 sequences of two to four octets (no overlong
    form, no surrogate, nothing above U+10FFFF). *)
Definition validUtf8 (o : list N) : bool :=
  match o with
  | [a; b] => ((194 <=? a) && (a <=? 223))%N && isCont b
  | [a; b; c] =>
      isCont c &&
      (((a =? 224) && (160 <=? b) && (b <=? 191))
       || ((225 <=? a) && (a <=? 236) && isCont b)
       || ((a =? 237) && (128 <=? b) && (b <=? 159))
       || ((238 <=? a) && (a <=? 239) && isCont b))%N
  | [a; b; c; d] =>
      isCont c && isCont d &&
      (((a =? 240) && (144 <=? b) && (b <=? 191))
       || ((241 <=? a) && (a <=? 243) && isCont b)
       || ((a =? 244) && (128 <=? b) && (b <=? 143)))%N
  | _ => false
  end.

Fixpoint ofOctets (o : list N) (k : string) : string :=
  match o with
  | [] => k
  | b :: o' => String (chr b) (ofOctets o' k)
  end.

(** [need] is the number of escaped continuation octets still expected,
    [octets] the ones of the current code point read so far. *)
Fixpoint decodeFrom (need : nat) (octets : list N) (s : string) : option string :=
  match s with
  | "" => match need with O => Some "" | S _ => None end
  | String c r =>
      if Ascii.eqb c "%"%char then
        match r with
        | String h (String l r') =>
            match hexByte h l with
            | None => None
            | Some b =>
                match need with
                | O =>
                    if (b <? 128)%N then String (chr b) <$> decodeFrom O [] r'
                    else
                      match seqLen b with
                      | S n => decodeFrom n [b] r'
                      | O => None
                      end
                | S O =>
                    let o := octets ++ [b] in
                    if validUtf8 o then ofOctets o <$> decodeFrom O [] r' else None
                | S n =>
                    if isCont b then decodeFrom n (octets ++ [b]) r' else None
                end
            end
        | _ => None
        end
      else
        match need with
        | O => String c <$> decodeFrom O [] r
        | S _ => None
        end
  end.

Definition decodeURIComponent (s : string) : option string := decodeFrom O [] s.

(** ** [replaceAll] with a string pattern

    The replacement text is expanded as the built-in does
    ([GetSubstitution] without captures): [$$] is a dollar sign, [$&] the
    match, [$`] the text before it and [$'] the text after it. *)

Fixpoint getSubstitution (matched before after : string) (r : string) : string :=
  match r with
  | "" => ""
  | String c r1 =>
      if Ascii.eqb c "$"%char then
        match r1 with
        | "" => String c ""
        | String d r2 =>
            if Ascii.eqb d "$"%char then String d (getSubstitution matched before after r2)
            else if Ascii.eqb d "&"%char then matched +:+ getSubstitution matched before after r2
            else if Ascii.eqb d "`"%char then before +:+ getSubstitution matched before after r2
            else if Ascii.eqb d "'"%char then after +:+ getSubstitution matched before after r2
            else String c (String d (getSubstitution matched before after r2))
        end
      else String c (getSubstitution matched before after r1)
  end.

(** [before] is the text already passed (reversed), [skip] the number of
    code units of the current match still to be passed over. *)
Fixpoint replaceFrom (pat rep : string) (before : string) (skip : nat) (s : string) : string :=
  match s with
  | "" => ""
  | String c s' =>
      match skip with
      | S k => replaceFrom pat rep (String c before) k s'
      | O =>
          if String.prefix pat s then
            getSubstitution pat (String.rev before)
              (String.substring (String.length pat) (String.length s) s) rep
            +:+ replaceFrom pat rep (String c before) (String.length pat - 1)%nat s'
          else String c (replaceFrom pat rep (String c before) O s')
      end
  end.

(** [s.replaceAll(pat, rep)] for a non-empty [pat]. *)
Definition replaceAll (pat rep : string) (s : string) : string :=
  replaceFrom pat rep "" O s.

(** ** [split], and [replace] with a character class *)

(** [s.split(sep)] for a one-character separator: the pieces between
    the separators, one more than there are separators. *)
Fixpoint split (sep : ascii) (s : string) : list string :=
  match s with
  | "" => [""]
  | String c s' =>
      if Ascii.eqb c sep then "" :: split sep s'
      else
        match split sep s' with
        | piece :: pieces => String c piece :: pieces
        | [] => [String c ""]
        end
  end.

(** [s.replace(/[...]/g, r)] for a class [cls] of ASCII characters. *)
Fixpoint replaceClass (cls : ascii -> bool) (r : string) (s : string) : string :=
  match s with
  | "" => ""
  | String a s' =>
      if cls a then r +:+ replaceClass cls r s'
      else String a (replaceClass cls r s')
  end.

(** [s.replace(/\s+/g, r)]: every maximal run of white space ([\s] is
    the white space of [trim]) is replaced by one [r]; [inRun] tells that
    the code point before was white space, whose run has been replaced
    already. *)
Fixpoint replaceSpaces (r : string) (inRun : bool) (s : string) : string :=
  match s with
  | "" => ""
  | String c1 r1 =>
      let once := if inRun then "" else r in
      if ws1 (code c1) then once +:+ replaceSpaces r true r1
      else
        match r1 with
        | "" => String c1 ""
        | String c2 r2 =>
            if ws2 (code c1) (code c2) then once +:+ replaceSpaces r true r2
            else
              match r2 with
              | "" => String c1 (replaceSpaces r false r1)
              | String c3 r3 =>
                  if ws3 (code c1) (code c2) (code c3)
                  then once +:+ replaceSpaces r true r3
                  else String c1 (replaceSpaces r false r1)
              end
        end
  end.

End Js.


(* ===================================================================== *)
(** * The block model ([converter/types.ts]) *)
(* ===================================================================== *)

(** [enum BlockType]; [Unrecognized] carries a discriminant the enum does
    not list. *)
Inductive BlockType : Type :=
| Page | Text
| Heading1 | Heading2 | Heading3 | Heading4 | Heading5
| Heading6 | Heading7 | Heading8 | Heading9
| Bullet | Ordered | Code | Quote | MentionDocType | TodoList | Bitable
| Callout | ChatCard | Diagram | Divider | File | Grid | GridColumn
| Iframe | Image | Widget | MindNote | Sheet | Table | TableCell | View
| QuoteContainer | Board | SyncedBlock
| Unrecognized (discriminant : Z).

#[global] Instance BlockType_eq_dec : EqDecision BlockType.
Proof. solve_decision. Defined.

(** The reverse mapping [BlockType[n]] of the enum. *)
Definition BlockType_name (t : BlockType) : string :=
  match t with
  | Page => "Page" | Text => "Text"
  | Heading1 => "Heading1" | Heading2 => "Heading2" | Heading3 => "Heading3"
  | Heading4 => "Heading4" | Heading5 => "Heading5" | Heading6 => "Heading6"
  | Heading7 => "Heading7" | Heading8 => "Heading8" | Heading9 => "Heading9"
  | Bullet => "Bullet" | Ordered => "Ordered" | Code => "Code" | Quote => "Quote"
  | MentionDocType => "MentionDoc" | TodoList => "TodoList" | Bitable => "Bitable"
  | Callout => "Callout" | ChatCard => "ChatCard" | Diagram => "Diagram"
  | Divider => "Divider" | File => "File" | Grid => "Grid"
  | GridColumn => "GridColumn" | Iframe => "Iframe" | Image => "Image"
  | Widget => "Widget" | MindNote => "MindNote" | Sheet => "Sheet"
  | Table => "Table" | TableCell => "TableCell" | View => "View"
  | QuoteContainer => "QuoteContainer" | Board => "Board"
  | SyncedBlock => "SyncedBlock"
  | Unrecognized _ => "undefined"
  end.

(** A [Record<number, string>] with the keys [1..n], read at a key:
    [None] is [undefined]. *)
Definition recordAt (values : list string) (k : Z) : option string :=
  if k <=? 0 then None else values !! Z.to_nat (k - 1).

(** [enum CodeLanguage], in declaration order: [PlainText = 1], then one
    more for each name. *)
Definition CodeLanguage_names : list string :=
  [ "PlainText"; "ABAP"; "Ada"; "Apache"; "Apex"; "AssemblyLanguage"; "Bash";
    "CSharp"; "CPlusPlus"; "C"; "COBOL"; "CSS"; "CoffeeScript"; "D"; "Dart";
    "Delphi"; "Django"; "Dockerfile"; "Erlang"; "Fortran"; "FoxPro"; "Go";
    "Groovy"; "HTML"; "HTMLBars"; "HTTP"; "Haskell"; "JSON"; "Java";
    "JavaScript"; "Julia"; "Kotlin"; "LateX"; "Lisp"; "Logo"; "Lua"; "MATLAB";
    "Makefile"; "Markdown"; "Nginx"; "ObjectiveC"; "OpenEdgeABL"; "PHP";
    "Perl"; "PostScript"; "PowerShell"; "Prolog"; "ProtoBuf"; "Python"; "R";
    "RPG"; "Ruby"; "Rust"; "SAS"; "SCSS"; "SQL"; "Scala"; "Scheme"; "Scratch";
    "Shell"; "Swift"; "Thrift"; "TypeScript"; "VBScript"; "VisualBasic"; "XML";
    "YAML"; "CMake"; "Diff"; "Gherkin"; "GraphQL"; "OpenGLShadingLanguage";
    "Properties"; "Solidity"; "TOML" ].

(** [CodeLanguage[code]]: the name of the member with that value. *)
Definition CodeLanguage_name (code : Z) : option string :=
  recordAt CodeLanguage_names code.

Definition getCodeLanguage (code : Z) : string :=
  match CodeLanguage_name code with
  | Some "PlainText" => "text"
  | Some "AssemblyLanguage" => "assembly"
  | Some "CPlusPlus" => "cpp"
  | Some "CSharp" => "csharp"
  | Some "CoffeeScript" => "coffee"
  | Some "Dockerfile" => "docker"
  | Some "FoxPro" => "foxpro"
  | Some "TypeScript" => "typescript"
  | Some "JavaScript" => "javascript"
  | Some "Rust" => "rust"
  | Some "Python" => "python"
  | Some "Ruby" => "ruby"
  | Some "Markdown" => "markdown"
  | Some "ObjectiveC" => "objectivec"
  | Some "VisualBasic" => "vb"
  | Some name => Js.toLowerCase name
  | None => ""
  end.

(** [enum StyleAlign] has [Left = 1], [Center = 2], [Right = 3]. *)
Definition getAlignStyle (align : Z) : string :=
  if align =? 1 then "left"
  else if align =? 2 then "center"
  else if align =? 3 then "right"
  else "left".

Definition CalloutBackgroundColorMap : Z -> option string :=
  recordAt [ "#fef2f2"; "#fff7ed"; "#fefce8"; "#f0fdf4"; "#eff6ff"; "#faf5ff"; "#f9fafb";
    "#fecaca"; "#fed7aa"; "#fef08a"; "#bbf7d0"; "#bfdbfe"; "#e9d5ff"; "#e5e7eb" ].

Definition CalloutBorderColorMap : Z -> option string :=
  recordAt [ "#fecaca"; "#fed7aa"; "#fef08a"; "#bbf7d0"; "#bfdbfe"; "#e9d5ff"; "#e5e7eb" ].

Definition FontColorMap : Z -> option string :=
  recordAt [ "#ef4444"; "#f97316"; "#eab308"; "#22c55e"; "#3b82f6"; "#a855f7"; "#6b7280" ].

(** ** Text elements *)

Record TextStyle := {
  align : Z;
  done : bool;
  folded : bool;
  language : Z;
  wrap : bool
}.

Record TextLink := { url : string }.

Record TextElementStyle := {
  bold : bool;
  italic : bool;
  strikethrough : bool;
  underline : bool;
  inline_code : bool;
  background_color : Z;
  text_color : Z;
  link : option TextLink
}.

Record TextRun := {
  content : string;
  text_element_style : option TextElementStyle
}.

Record MentionDoc := {
  mention_token : string;
  mention_obj_type : Z;
  mention_url : string;
  mention_title : string;
  mention_style : option TextElementStyle
}.

Record InlineFile := {
  file_token : string;
  source_block_id : string
}.

Record InlineBlock := { inline_block_id : string }.

(** Every member of [TextElement] is optional in the source. *)
Record TextElement := {
  text_run : option TextRun;
  inline_file : option InlineFile;
  inline_block : option InlineBlock;
  equation : option TextRun;
  mention_doc : option MentionDoc
}.

Record TextBlock := {
  style : TextStyle;
  elements : list TextElement
}.

Record ImageBlock := {
  image_width : Z;
  image_height : Z;
  image_token : string;
  image_align : Z
}.

Record TableMergeInfo := { row_span : Z; col_span : Z }.

Record TableProperty := {
  row_size : Z;
  column_size : Z;
  column_width : list Z;
  header_column : bool;
  header_row : bool;
  merge_info : list TableMergeInfo
}.

Record TableBlock := {
  cells : list string;
  property : TableProperty
}.

Record CalloutBlock := {
  callout_background_color : Z;
  callout_border_color : Z;
  callout_text_color : Z;
  emoji_id : string
}.

Record FileBlock := { file_name : string; file_block_token : string }.

Record GridBlock := { grid_column_size : Z }.

Record GridColumnBlock := { width_ratio : Z }.

Record IframeBlock := { iframe_type : Z; iframe_url : string }.

(** [interface Block]: one record with a payload member per block type,
    of which the API fills in the one the discriminant selects; [None] is
    a member that is absent.  The members the renderer never reads
    ([bitable], [chat_card], [diagram], [divider], [table_cell]) are left
    out. *)
Record Block := {
  block_id : string;
  parent_id : string;
  children : list string;
  block_type : BlockType;
  page : option TextBlock;
  text : option TextBlock;
  heading1 : option TextBlock;
  heading2 : option TextBlock;
  heading3 : option TextBlock;
  heading4 : option TextBlock;
  heading5 : option TextBlock;
  heading6 : option TextBlock;
  heading7 : option TextBlock;
  heading8 : option TextBlock;
  heading9 : option TextBlock;
  bullet : option TextBlock;
  ordered : option TextBlock;
  code : option TextBlock;
  quote : option TextBlock;
  todo : option TextBlock;
  callout : option CalloutBlock;
  file : option FileBlock;
  grid : option GridBlock;
  grid_column : option GridColumnBlock;
  iframe : option IframeBlock;
  image : option ImageBlock;
  table : option TableBlock;
  board : option ImageBlock
}.

Inductive FileKind : Type := KindFile | KindImage | KindBoard.

(** [interface FileToken]. *)
Record FileToken := { token : string; type : FileKind }.

(* ===================================================================== *)
(** * The output buffer ([converter/buffer.ts]) *)
(* ===================================================================== *)

Module Buffer.

(** [class Buffer]: the private array [parts].  The renderer passes
    strings to [write] and no options to [toString], and so do [write]
    and [toString] here. *)
Record t := mk { parts : list string }.

Definition new : t := mk [].

Definition toString (b : t) : string := Js.concat (parts b).

Definition length (b : t) : nat :=
  foldl (fun acc p => (acc + String.length p)%nat) O (parts b).

Definition write (b : t) (content : string) : t := mk (parts b ++ [content]).

Definition writeln (b : t) (content : string) : t :=
  mk (parts b ++ [content +:+ Js.LF]).

Definition writeIndent (b : t) (indent : nat) : t :=
  match indent with
  | O => b
  | S _ => mk (parts b ++ [Js.repeat "   " indent])
  end.

(** Returns the buffer after the call and the boolean the method
    returns. *)
Definition trimLastIfEndsWith (b : t) (suffix : string) : t * bool :=
  match suffix, parts b with
  | "", _ => (b, false)
  | _, [] => (b, false)
  | _, _ =>
      let current := toString b in
      if Js.endsWith current suffix
      then (mk [Js.dropLast (String.length suffix) current], true)
      else (b, false)
  end.

(** [write(content)] with a buffer for [content]. *)
Definition writeBuffer (b content : t) : t := mk (parts b ++ [toString content]).

(** The callback of [toString] with an [indent] option: a line with
    something else than white space on it is indented. *)
Definition indentLine (indentStr : string) (line : string) : string :=
  match Js.trim line with
  | "" => line
  | _ => indentStr +:+ line
  end.

(** [toString({ indent })]; an [indent] that is absent is falsy like the
    indent [0]. *)
Definition toStringIndent (b : t) (indent : nat) : string :=
  let result := Js.concat (parts b) in
  match indent with
  | O => result
  | S _ =>
      let indentStr := Js.repeat "   " indent in
      Js.join Js.LF (indentLine indentStr <$> Js.split (Js.chr 10) result)
  end.

End Buffer.

(** [text.replace(/\n$/, "")]: without the [m] flag [$] is the end of the
    text, so one final line feed is removed. *)
Definition trimLastNewline (text : string) : string :=
  if Js.endsWith text Js.LF then Js.dropLast 1 text else text.

Definition escapeHTMLTags (text : string) : string :=
  Js.replaceChar ">"%char "&gt;" (Js.replaceChar "<"%char "&lt;" text).

(* ===================================================================== *)
(** * The renderer state and its monad *)
(* ===================================================================== *)

(** The members of [MarkdownRenderer] that the tree walk assigns.
    [blockMap] is filled by [parse] before the walk starts and only read
    afterwards: it is a parameter of the walk.  [outputUnsupported] is
    private, initialised to [false] and never assigned: it is a
    constant. *)
Record Renderer := {
  currentBlock : option Block;
  nextBlock : option Block;
  indent : nat;
  _fileTokens : list FileToken;
  _title : string
}.

Definition outputUnsupported : bool := false.

(** [new MarkdownRenderer()]. *)
Definition newRenderer : Renderer :=
  {| currentBlock := None; nextBlock := None; indent := O;
     _fileTokens := []; _title := "" |}.

(** What a built-in may throw inside the tree walk. *)
Inductive BuiltinError : Type := URIError | TypeError.

(** What [parse] may throw: its own [Error] for a missing root, or what
    escapes from the walk. *)
Inductive Exception : Type :=
| RootNotFound
| Builtin (e : BuiltinError).

(** The outcome of a call on the renderer: a value and the renderer
    after the call, an exception, or not enough fuel for the recursion
    (the source recurses without bound on a cyclic block graph). *)
Inductive Res (E A : Type) : Type :=
| Ok (a : A) (r : Renderer)
| Throw (e : E)
| OutOfFuel.

Arguments Ok {E A} a r.
Arguments Throw {E A} e.
Arguments OutOfFuel {E A}.

Definition M (A : Type) : Type := Renderer -> Res BuiltinError A.

Definition ret {A} (a : A) : M A := fun r => Ok a r.

Definition bind {A B} (m : M A) (k : A -> M B) : M B :=
  fun r =>
    match m r with
    | Ok a r' => k a r'
    | Throw e => Throw e
    | OutOfFuel => OutOfFuel
    end.

Definition throw {A} (e : BuiltinError) : M A := fun _ => Throw e.

Definition outOfFuel {A} : M A := fun _ => OutOfFuel.

Notation "'let*' x ':=' m 'in' k" := (bind m (fun x => k))
  (at level 10, x pattern, m at level 100, k at level 200).

(** Assignments to the renderer's members. *)
Definition setIndent (n : nat) : M unit :=
  fun r => Ok tt {| currentBlock := currentBlock r;
                    nextBlock := nextBlock r; indent := n;
                    _fileTokens := _fileTokens r; _title := _title r |}.

Definition setCurrentBlock (b : option Block) : M unit :=
  fun r => Ok tt {| currentBlock := b;
                    nextBlock := nextBlock r; indent := indent r;
                    _fileTokens := _fileTokens r; _title := _title r |}.

Definition setNextBlock (b : option Block) : M unit :=
  fun r => Ok tt {| currentBlock := currentBlock r;
                    nextBlock := b; indent := indent r;
                    _fileTokens := _fileTokens r; _title := _title r |}.

Definition setTitle (s : string) : M unit :=
  fun r => Ok tt {| currentBlock := currentBlock r;
                    nextBlock := nextBlock r; indent := indent r;
                    _fileTokens := _fileTokens r; _title := s |}.

Definition setFileTokens (l : list FileToken) : M unit :=
  fun r => Ok tt {| currentBlock := currentBlock r;
                    nextBlock := nextBlock r; indent := indent r;
                    _fileTokens := l; _title := _title r |}.

(** Reads of the renderer's members. *)
Definition getCurrentBlock : M (option Block) := fun r => Ok (currentBlock r) r.

Definition getNextBlock : M (option Block) := fun r => Ok (nextBlock r) r.

Definition getIndent : M nat := fun r => Ok (indent r) r.

Definition getFileTokens : M (list FileToken) := fun r => Ok (_fileTokens r) r.

(** [array.forEach((x, idx) => ...)] whose body updates the local values
    [acc] it closes over. *)
Fixpoint forEach {A B} (f : nat -> A -> B -> M B) (idx : nat) (l : list A) (acc : B) : M B :=
  match l with
  | [] => ret acc
  | x :: l' => let* acc' := f idx x acc in forEach f (S idx) l' acc'
  end.

(** [array.map(x => ...)]. *)
Fixpoint mapM {A B} (f : A -> M B) (l : list A) : M (list B) :=
  match l with
  | [] => ret []
  | x :: l' => let* y := f x in let* ys := mapM f l' in ret (y :: ys)
  end.

(* ===================================================================== *)
(** * The renderer ([converter/markdown.ts]) *)
(* ===================================================================== *)

Section MarkdownRenderer.

(** What the renderer imports from outside the files at hand: the
    Markdown-to-HTML conversion of the library [marked], the emoji table
    of [emoji.ts], and the built-in [JSON.stringify(block, null, 2)]. *)
Variable marked_parse : string -> string.
Variable getEmojiChar : string -> string.
Variable JSON_stringify : Block -> string.

(** The member [blockMap], as [parse] has filled it. *)
Variable blockMap : gmap string Block.

Definition markdownToHTML (markdown : string) : string := marked_parse markdown.

Definition addFileToken (kind : FileKind) (tok : string) : M unit :=
  match tok with
  | "" => ret tt
  | _ =>
      let* tokens := getFileTokens in
      setFileTokens (tokens ++ [{| token := tok; type := kind |}])
  end.

(** ** Inline text *)

(** The wrappers chosen from the style record, and whether the text is to
    be escaped: the first flag that is set wins. *)
Definition styleWrappers (style : option TextElementStyle) : M (string * string * bool) :=
  match style with
  | None => ret ("", "", true)
  | Some st =>
      if bold st then ret ("**", "**", true)
      else if italic st then ret ("*", "*", true)
      else if strikethrough st then ret ("~~", "~~", true)
      else if underline st then ret ("<u>", "</u>", true)
      else if inline_code st then ret ("`", "`", false)
      else
        match link st with
        | Some l =>
            match Js.decodeURIComponent (url l) with
            | Some unescapeURL => ret ("[", "](" +:+ unescapeURL +:+ ")", true)
            | None => throw URIError
            end
        | None => ret ("", "", true)
        end
  end.

(** [plainText.match(/[:：]$/)]: the text ends in a colon, ASCII or
    full-width. *)
Definition endsInColon (plainText : string) : bool :=
  Js.endsWith plainText ":" || Js.endsWith plainText "：".

(** The HTML wrappers that replace the Markdown ones before a colon. *)
Definition colonWrappers (style : option TextElementStyle) (w : string * string) : string * string :=
  match style with
  | Some st =>
      if bold st then ("<b>", "</b>")
      else if italic st then ("<i>", "</i>")
      else if strikethrough st then ("<s>", "</s>")
      else w
  | None => w
  end.

Definition isCode (b : option Block) : bool :=
  match b with
  | Some b => bool_decide (block_type b = Code)
  | None => false
  end.

Definition parseTextRun (buf : Buffer.t) (textRun : TextRun) : M Buffer.t :=
  let style := text_element_style textRun in
  let* (preWrite, postWrite, escape) := styleWrappers style in
  let plainText := content textRun in
  let* cur := getCurrentBlock in
  let plainText :=
    if escape && negb (isCode cur) then escapeHTMLTags plainText else plainText in
  let '(preWrite, postWrite) :=
    if endsInColon plainText then colonWrappers style (preWrite, postWrite)
    else (preWrite, postWrite) in
  let '(buf, merged) := Buffer.trimLastIfEndsWith buf preWrite in
  let buf := if merged then buf else Buffer.write buf preWrite in
  let buf := Buffer.write buf plainText in
  ret (Buffer.write buf postWrite).

Definition parseTextElement (buf : Buffer.t) (el : TextElement) (inline : bool) : M Buffer.t :=
  match text_run el, equation el, mention_doc el with
  | Some textRun, _, _ => parseTextRun buf textRun
  | None, Some eq, _ =>
      let symbol := if inline then "$" else "$$" in
      let buf := Buffer.write buf symbol in
      let buf := Buffer.write buf (Js.trimEnd (content eq)) in
      ret (Buffer.write buf symbol)
  | None, None, Some mention =>
      match Js.decodeURIComponent (mention_token mention) with
      | Some nodeToken =>
          ret (Buffer.write buf
                 ("[" +:+ mention_title mention +:+ "](" +:+ nodeToken +:+ ")"))
      | None => throw URIError
      end
  | None, None, None => ret buf
  end.

(** The loop [for (const el of elements) parseTextElement(buf, el, inline)]. *)
Definition parseTextElements (buf : Buffer.t) (els : list TextElement) : M Buffer.t :=
  let inline := bool_decide (1 < List.length els)%nat in
  forEach (fun _ el buf => parseTextElement buf el inline) O els buf.

Definition childrenBlockTypes : list BlockType :=
  [Text; Heading1; Heading2; Heading3; Heading4; Heading5; Heading6;
   Heading7; Heading8; Heading9].

Section Helpers.

(** The recursive call [this.parseBlock(child, indent)]. *)
Variable parseBlock : Block -> nat -> M string.

(** The loop that recurs through the renderer,
    [ids.forEach((childId) => { const child = this.blockMap.get(childId);
    if (child) { ... } })]: [step] is what is done with a child that is
    found, a child that is not found is passed over. *)
Fixpoint eachChild (step : Block -> Buffer.t -> M Buffer.t) (ids : list string)
    (buf : Buffer.t) : M Buffer.t :=
  match ids with
  | [] => ret buf
  | childId :: ids' =>
      let* buf :=
        match blockMap !! childId with
        | Some child => step child buf
        | None => ret buf
        end in
      eachChild step ids' buf
  end.

Definition parseTextBlock (block : Block) (textBlock : option TextBlock) : M string :=
  match textBlock with
  | None => ret ""
  | Some tb =>
      let* buf := parseTextElements Buffer.new (elements tb) in
      let buf :=
        if bool_decide (0 < Buffer.length buf)%nat then Buffer.write buf Js.LF else buf in
      let* buf :=
        if bool_decide (block_type block ∈ childrenBlockTypes) then
          eachChild (fun child buf =>
                       let* ind := getIndent in
                       let* s := parseBlock child ind in
                       ret (Buffer.write buf s)) (children block) buf
        else ret buf in
      ret (Buffer.toString buf)
  end.

(** [block.children[idx + 1] ? this.blockMap.get(...) || null : null]. *)
Definition lookahead (block : Block) (idx : nat) : option Block :=
  match children block !! S idx with
  | Some "" => None
  | Some nextId => blockMap !! nextId
  | None => None
  end.

(** The loop over the children of the page, from the child at position
    [idx] on: before each child that is found, the lookahead sibling is
    recorded. *)
Fixpoint pageChildren (block : Block) (idx : nat) (ids : list string)
    (buf : Buffer.t) : M Buffer.t :=
  match ids with
  | [] => ret buf
  | childId :: ids' =>
      let* buf :=
        match blockMap !! childId with
        | None => ret buf
        | Some child =>
            let* _ := setNextBlock (lookahead block idx) in
            let* childText := parseBlock child O in
            if bool_decide (0 < String.length childText)%nat
            then ret (Buffer.write (Buffer.write buf childText) Js.LF)
            else ret buf
        end in
      pageChildren block (S idx) ids' buf
  end.

Definition parsePageBlock (block : Block) : M string :=
  let buf := Buffer.new in
  let* _ :=
    match page block with
    | Some pg =>
        match elements pg with
        | [] => ret tt
        | els =>
            let* titleBuf := parseTextElements Buffer.new els in
            setTitle (Js.trim (Buffer.toString titleBuf))
        end
    | None => ret tt
    end in
  let buf := Buffer.write buf "# " in
  let* s := parseTextBlock block (page block) in
  let buf := Buffer.write buf s in
  let buf := Buffer.write buf Js.LF in
  let* buf := pageChildren block O (children block) buf in
  ret (Buffer.toString buf).

(** The test of the two list renderers: the lookahead sibling has the
    item's type and parent, and the item has no children. *)
Definition compacts (next : option Block) (block : Block) : bool :=
  match next with
  | Some nb =>
      bool_decide (block_type nb = block_type block)
      && bool_decide (parent_id nb = parent_id block)
      && bool_decide (children block = [])
  | None => false
  end.

(** The loop over the children of a list item. *)
Definition parseSubList (block : Block) (indent : nat) (buf : Buffer.t) : M Buffer.t :=
  eachChild (fun child buf =>
               let* _ := setNextBlock None in
               let* s := parseBlock child (S indent) in
               ret (Buffer.write buf s)) (children block) buf.

Definition parseBulletBlock (block : Block) (indent : nat) : M string :=
  let buf := Buffer.write Buffer.new "- " in
  let* itemText := parseTextBlock block (bullet block) in
  let* next := getNextBlock in
  let itemText := if compacts next block then trimLastNewline itemText else itemText in
  let buf := Buffer.write buf itemText in
  let* buf := parseSubList block indent buf in
  ret (Buffer.toString buf).

(** ** Ordered lists *)

(** The inner loop of the ordinal computation: [j] runs from [i - 1] down
    to [0]; [before] lists the children at those positions, nearest
    first. *)
Fixpoint countOrderedBefore (bm : gmap string Block) (before : list string) (order : nat) : nat :=
  match before with
  | [] => order
  | prevId :: before' =>
      match bm !! prevId with
      | Some prevBlock =>
          if bool_decide (block_type prevBlock = Ordered)
          then countOrderedBefore bm before' (S order)
          else order
      | None => order
      end
  end.

(** The outer loop: the first position [i] whose child is the block
    itself; [passed] lists the children before [i], nearest first. *)
Fixpoint orderAmong (bm : gmap string Block) (id : string) (passed rest : list string) : nat :=
  match rest with
  | [] => 1
  | c :: rest' =>
      if String.eqb c id then countOrderedBefore bm passed 1
      else orderAmong bm id (c :: passed) rest'
  end.

Definition orderOf (bm : gmap string Block) (block : Block) : nat :=
  match bm !! parent_id block with
  | Some parent => orderAmong bm (block_id block) [] (children parent)
  | None => 1
  end.

Definition parseOrderedBlock (block : Block) (indent : nat) : M string :=
  let order := orderOf blockMap block in
  let buf := Buffer.write Buffer.new (Js.ofNat order +:+ ". ") in
  let* itemText := parseTextBlock block (ordered block) in
  let* next := getNextBlock in
  let itemText := if compacts next block then trimLastNewline itemText else itemText in
  let buf := Buffer.write buf itemText in
  let* buf := parseSubList block indent buf in
  ret (Buffer.toString buf).

(** ** Images and boards *)

(** The [<img ... />] tag both [parseImage] and [parseBoard] write. *)
Definition imgTag (image : ImageBlock) : string :=
  let align := getAlignStyle (image_align image) in
  let attrs :=
    ["src=" +:+ Js.quoted (image_token image)]
    ++ (if image_width image =? 0 then []
        else ["src-width=" +:+ Js.quoted (Js.ofZ (image_width image))])
    ++ (if image_height image =? 0 then []
        else ["src-height=" +:+ Js.quoted (Js.ofZ (image_height image))])
    ++ (if String.eqb align "" || String.eqb align "left" then []
        else ["align=" +:+ Js.quoted align]) in
  "<img " +:+ Js.join " " attrs +:+ " />".

Definition parseImage (image : option ImageBlock) : M string :=
  match image with
  | None => ret ""
  | Some image =>
      let buf := Buffer.write Buffer.new (imgTag image) in
      let buf := Buffer.write buf Js.LF in
      let* _ := addFileToken KindImage (image_token image) in
      ret (Buffer.toString buf)
  end.

Definition parseBoard (board : option ImageBlock) : M string :=
  match board with
  | None => ret ""
  | Some board =>
      let buf := Buffer.write Buffer.new (imgTag board) in
      let buf := Buffer.write buf Js.LF in
      let* _ := addFileToken KindBoard (image_token board) in
      ret (Buffer.toString buf)
  end.

(** ** Containers that render their children in order *)

(** The loop shared by [parseTableCell], [parseView], [parseSyncedBlock]
    (with no prefix) and [parseQuoteContainer] (with the quote prefix). *)
Definition parseChildren (pre : option string) (block : Block) : M string :=
  let* buf :=
    eachChild (fun child buf =>
                 let buf := match pre with Some p => Buffer.write buf p | None => buf end in
                 let* s := parseBlock child O in
                 ret (Buffer.write buf s)) (children block) Buffer.new in
  ret (Buffer.toString buf).

Definition parseTableCell (block : Block) : M string := parseChildren None block.

Definition parseView (block : Block) : M string := parseChildren None block.

Definition parseSyncedBlock (block : Block) : M string := parseChildren None block.

Definition parseQuoteContainer (block : Block) : M string :=
  parseChildren (Some "> ") block.

(** ** Tables *)

Definition isComplexTable (table : TableBlock) : bool :=
  let mergeInfos := merge_info (property table) in
  let hasMerge :=
    existsb (fun info => (row_span info >? 1) || (col_span info >? 1)) mergeInfos in
  let hasColWidth := existsb (fun width => width >? 100) (column_width (property table)) in
  hasMerge || hasColWidth.

(** The bookkeeping of the cell loops:
    [row = Math.floor(idx / column_size)], one row pushed when
    [rows.length < row + 1], then [rows[row].push(cell)].  [None] is the
    [TypeError] of [rows[row]] being undefined: [row] is not a number or
    infinite (division by zero), negative, or beyond the row just
    pushed. *)
Definition pushCell (rows : list (list string)) (idx : nat) (column_size : Z) (cell : string)
  : option (list (list string)) :=
  if column_size =? 0 then None
  else
    let row := Z.of_nat idx / column_size in
    let rows := if Z.of_nat (List.length rows) <? row + 1 then rows ++ [[]] else rows in
    if row <? 0 then None
    else
      match rows !! Z.to_nat row with
      | Some r => Some (<[Z.to_nat row := r ++ [cell]]> rows)
      | None => None
      end.

(** The body of the loop [table.cells.forEach((blockId, idx) => ...)] of
    both table renderers; [finish] is what is done to the text of a
    cell. *)
Definition collectCell (finish : string -> string) (table : TableBlock)
    (idx : nat) (blockId : string) (rows : list (list string)) : M (list (list string)) :=
  match blockMap !! blockId with
  | None => ret rows
  | Some block =>
      let* cellText := parseBlock block O in
      match pushCell rows idx (column_size (property table)) (finish cellText) with
      | Some rows' => ret rows'
      | None => throw TypeError
      end
  end.

(** The loop, from [const rows: string[][] = [[]]]. *)
Definition parseCells (finish : string -> string) (table : TableBlock) : M (list (list string)) :=
  forEach (collectCell finish table) O (cells table) [[]].

(** [rows.shift() || []] together with the rows that remain. *)
Definition shiftRow (rows : list (list string)) : list string * list (list string) :=
  match rows with
  | [] => ([], [])
  | r :: rows' => (r, rows')
  end.

(** [headRow[i] || dflt]. *)
Definition cellOr (headRow : list string) (i : nat) (dflt : string) : string :=
  match headRow !! i with
  | Some "" | None => dflt
  | Some s => s
  end.

(** The indices of [for (let i = 0; i < column_size; i++)]. *)
Definition columns (column_size : Z) : list nat := seq O (Z.to_nat column_size).

Definition gfmCell (cellText : string) : string :=
  Js.replaceChar (Js.chr 10) " " (trimLastNewline cellText).

(** The second half of [parseTable]: the pipe table written from the rows
    of cell texts. *)
Definition writeGfmTable (table : TableBlock) (rows : list (list string)) : string :=
  let buf := Buffer.new in
  let '(headRow, rows) :=
    if header_row (property table) then shiftRow rows else ([], rows) in
  let buf := Buffer.write buf "|" in
  let buf :=
    foldl (fun buf i => Buffer.write (Buffer.write buf (cellOr headRow i " ")) "|")
          buf (columns (column_size (property table))) in
  let buf := Buffer.write buf Js.LF in
  let buf := Buffer.write buf "|" in
  let buf :=
    foldl (fun buf _ => Buffer.write buf "---|")
          buf (columns (column_size (property table))) in
  let buf := Buffer.write buf Js.LF in
  let buf :=
    foldl (fun buf row =>
             let buf := Buffer.write buf "|" in
             let buf := foldl (fun buf cell => Buffer.write (Buffer.write buf cell) "|") buf row in
             Buffer.write buf Js.LF)
          buf rows in
  Buffer.toString buf.

Definition tableCellAttrHTML (mergeInfos : list TableMergeInfo) (idx : nat) : string :=
  match mergeInfos !! idx with
  | None => ""
  | Some mergeInfo =>
      let attrs :=
        (if row_span mergeInfo >? 1
         then ["rowspan=" +:+ Js.quoted (Js.ofZ (row_span mergeInfo))] else [])
        ++ (if col_span mergeInfo >? 1
            then ["colspan=" +:+ Js.quoted (Js.ofZ (col_span mergeInfo))] else []) in
      match attrs with
      | [] => ""
      | _ => " " +:+ Js.join " " attrs
      end
  end.

(** [if (targetIdx < cellInfos.length) cellInfos[targetIdx] = 0]; a
    negative index names no element of the array. *)
Definition markCovered (cellInfos : list Z) (targetIdx : Z) : list Z :=
  if (targetIdx <? Z.of_nat (List.length cellInfos)) && (0 <=? targetIdx)
  then <[Z.to_nat targetIdx := 0]> cellInfos
  else cellInfos.

(** The values of [j] in [for (let j = 1; j < span; j++)]. *)
Definition spanSteps (span : Z) : list Z := Z.of_nat <$> seq 1 (Z.to_nat (span - 1)).

(** [cellInfos]: [1] for a cell to write, [0] for a cell covered by a
    merge. *)
Definition computeCellInfos (mergeInfos : list TableMergeInfo) (columnSize : Z) : list Z :=
  foldl (fun cellInfos '(i, info) =>
           let cellInfos :=
             if row_span info >? 1
             then foldl (fun ci j => markCovered ci (Z.of_nat i + j * columnSize))
                        cellInfos (spanSteps (row_span info))
             else cellInfos in
           if col_span info >? 1
           then foldl (fun ci j => markCovered ci (Z.of_nat i + j))
                      cellInfos (spanSteps (col_span info))
           else cellInfos)
        ((fun _ => 1) <$> mergeInfos)
        (imap pair mergeInfos).

(** The closure [writeCell] with the counter [cellIdx] it increments. *)
Definition writeCell (mergeInfos : list TableMergeInfo) (cellInfos : list Z)
    (st : Buffer.t * nat) (cell : string) (tag : string) : Buffer.t * nat :=
  let '(b, cellIdx) := st in
  let attr := tableCellAttrHTML mergeInfos cellIdx in
  let b :=
    match cellInfos !! cellIdx with
    | Some 1 => Buffer.write b ("<" +:+ tag +:+ attr +:+ ">" +:+ cell +:+ "</" +:+ tag +:+ ">")
    | _ => b
    end in
  (b, S cellIdx).

(** The second half of [parseTableAsHTML]: the HTML table written from
    the rows of cell markup. *)
Definition writeHtmlTable (table : TableBlock) (rows : list (list string)) : string :=
  let prop := property table in
  let attrs :=
    (if header_column prop then ["header_column=" +:+ Js.quoted "1"] else [])
    ++ (if header_row prop then ["header_row=" +:+ Js.quoted "1"] else []) in
  let attrHTML := match attrs with [] => "" | _ => " " +:+ Js.join " " attrs end in
  let buf := Buffer.writeln Buffer.new ("<table" +:+ attrHTML +:+ ">") in
  let buf := Buffer.writeln buf "  <colgroup>" in
  let buf :=
    foldl (fun buf i =>
             let widthAttr :=
               match column_width prop !! i with
               | Some width =>
                   if width =? 0 then "" else " width=" +:+ Js.quoted (Js.ofZ width)
               | None => ""
               end in
             Buffer.writeln buf ("    <col" +:+ widthAttr +:+ " />"))
          buf (columns (column_size prop)) in
  let buf := Buffer.writeln buf "  </colgroup>" in
  let mergeInfos := merge_info prop in
  let columnSize := column_size prop in
  let cellInfos := computeCellInfos mergeInfos columnSize in
  let '(buf, cellIdx, rows) :=
    if header_row prop then
      let '(headRow, rows) := shiftRow rows in
      let buf := Buffer.writeln buf "  <thead>" in
      let buf := Buffer.write buf "    <tr>" in
      let '(buf, cellIdx) :=
        foldl (fun st i => writeCell mergeInfos cellInfos st (cellOr headRow i "") "th")
              (buf, O) (columns columnSize) in
      let buf := Buffer.writeln buf "</tr>" in
      let buf := Buffer.writeln buf "  </thead>" in
      (buf, cellIdx, rows)
    else (buf, O, rows) in
  let buf := Buffer.writeln buf "  <tbody>" in
  let '(buf, _) :=
    foldl (fun '(buf, cellIdx) row =>
             let buf := Buffer.write buf "    <tr>" in
             let '(buf, cellIdx) :=
               foldl (fun st cell => writeCell mergeInfos cellInfos st cell "td")
                     (buf, cellIdx) row in
             (Buffer.writeln buf "</tr>", cellIdx))
          (buf, cellIdx) rows in
  let buf := Buffer.writeln buf "  </tbody>" in
  let buf := Buffer.writeln buf "</table>" in
  Buffer.toString buf.

Definition parseTableAsHTML (table : TableBlock) : M string :=
  let* rows := parseCells (fun cellText => Js.trim (markdownToHTML cellText)) table in
  ret (writeHtmlTable table rows).

Definition parseTable (table : option TableBlock) : M string :=
  match table with
  | None => ret ""
  | Some table =>
      if isComplexTable table then parseTableAsHTML table
      else
        let* rows := parseCells gfmCell table in
        ret (writeGfmTable table rows)
  end.

(** ** Files, grids, callouts, iframes *)

Definition parseFile (block : Block) : M string :=
  match file block with
  | None => ret ""
  | Some f =>
      let* _ := addFileToken KindFile (file_block_token f) in
      let buf :=
        Buffer.write Buffer.new
          ("[" +:+ file_name f +:+ "](" +:+ file_block_token f +:+ ")") in
      ret (Buffer.toString (Buffer.write buf Js.LF))
  end.

(** [ids.map((childId) => { const child = this.blockMap.get(childId);
    return child ? this.parseBlock(child, 0) : ""; })]. *)
Definition innerParts (ids : list string) : M (list string) :=
  mapM (fun childId =>
          match blockMap !! childId with
          | Some child => parseBlock child O
          | None => ret ""
          end) ids.

(** [block.children?.map(...).join("\n") || ""]. *)
Definition parseInner (block : Block) : M string :=
  let* parts := innerParts (children block) in
  ret (Js.join Js.LF parts).

(** [n || 1]. *)
Definition orOne (n : Z) : Z := if n =? 0 then 1 else n.

Definition parseGridColumn (block : Block) : M string :=
  let widthRatio := match grid_column block with Some g => width_ratio g | None => 0 end in
  let buf :=
    Buffer.writeln Buffer.new
      ("<div class=" +:+ Js.quoted "grid-column" +:+ " style="
       +:+ Js.quoted ("flex: " +:+ Js.ofZ (orOne widthRatio) +:+ ";") +:+ ">") in
  let* inner := parseInner block in
  let buf := Buffer.write buf (markdownToHTML inner) in
  ret (Buffer.toString (Buffer.writeln buf "</div>")).

Definition parseGrid (block : Block) : M string :=
  let columnSize := orOne (match grid block with Some g => grid_column_size g | None => 0 end) in
  let buf :=
    Buffer.writeln Buffer.new
      ("<div class=" +:+ Js.quoted "grid" +:+ " style="
       +:+ Js.quoted ("display: grid; grid-template-columns: repeat("
                      +:+ Js.ofZ columnSize +:+ ", 1fr); gap: 16px;") +:+ ">") in
  let* buf :=
    eachChild (fun child buf =>
                 let* s := parseGridColumn child in
                 ret (Buffer.write buf s)) (children block) buf in
  ret (Buffer.toString (Buffer.writeln buf "</div>")).

Definition parseCallout (block : Block) : M string :=
  let colour (f : CalloutBlock -> Z) : Z :=
    match callout block with Some c => f c | None => 0 end in
  let bgId := colour callout_background_color in
  let borderId := colour callout_border_color in
  let textId := colour callout_text_color in
  let styleEntries :=
    (if bgId =? 0 then []
     else match CalloutBackgroundColorMap bgId with
          | Some bg => ["background: " +:+ bg]
          | None => []
          end)
    ++ (if borderId =? 0 then []
        else match CalloutBorderColorMap borderId with
             | Some border => ["border: 1px solid " +:+ border]
             | None => []
             end)
    ++ (if textId =? 0 then []
        else ["color: " +:+ default "#222" (FontColorMap textId)]) in
  let classNames :=
    ["callout"]
    ++ (if bgId =? 0 then [] else ["callout-bg-" +:+ Js.ofZ bgId])
    ++ (if borderId =? 0 then [] else ["callout-border-" +:+ Js.ofZ borderId])
    ++ (if textId =? 0 then [] else ["callout-color-" +:+ Js.ofZ textId]) in
  let styleAttr :=
    match styleEntries with
    | [] => ""
    | _ => " style=" +:+ Js.quoted (Js.join "; " styleEntries)
    end in
  let buf :=
    Buffer.writeln Buffer.new
      ("<div class=" +:+ Js.quoted (Js.join " " classNames) +:+ styleAttr +:+ ">") in
  let buf :=
    match callout block with
    | Some c =>
        match emoji_id c with
        | "" => buf
        | id =>
            let buf := Buffer.write buf ("<span class=" +:+ Js.quoted "callout-emoji" +:+ ">") in
            let buf := Buffer.write buf (getEmojiChar id) in
            Buffer.writeln buf "</span>"
        end
    | None => buf
    end in
  let* innerParts := parseInner block in
  let markdownBuf := Buffer.write Buffer.new innerParts in
  let buf := Buffer.write buf (markdownToHTML (Buffer.toString markdownBuf)) in
  ret (Buffer.toString (Buffer.writeln buf "</div>")).

Definition parseIframe (block : Block) : M string :=
  match iframe block with
  | None => ret ""
  | Some f =>
      match iframe_url f with
      | "" => ret ""
      | u =>
          match Js.decodeURIComponent u with
          | None => throw URIError
          | Some decodedUrl =>
              let buf :=
                Buffer.write Buffer.new
                  ("<iframe src=" +:+ Js.quoted decodedUrl +:+ "></iframe>") in
              ret (Buffer.toString (Buffer.write buf Js.LF))
          end
      end
  end.

Definition parseUnsupport (block : Block) : M string :=
  if negb outputUnsupported then ret ""
  else
    let buf := Buffer.write Buffer.new ("```" +:+ Js.LF) in
    let buf :=
      Buffer.write buf ("// [Unsupported] " +:+ BlockType_name (block_type block) +:+ Js.LF) in
    let buf := Buffer.write buf (JSON_stringify block) in
    ret (Buffer.toString (Buffer.write buf (Js.LF +:+ "```" +:+ Js.LF))).

(** ** The dispatcher *)

(** The heading cases: the marker, then the text block with leading white
    space removed. *)
Definition parseHeading (buf : Buffer.t) (marker : string) (block : Block)
    (textBlock : option TextBlock) : M Buffer.t :=
  let buf := Buffer.write buf marker in
  let* s := parseTextBlock block textBlock in
  ret (Buffer.write buf (Js.trimStart s)).

(** The body of [parseBlock], its recursive calls going through the
    variable of this section.  (The source returns the empty string for a
    block that is null; no caller passes one.) *)
Definition parseBlockBody (block : Block) (indent : nat) : M string :=
  let* _ := setIndent indent in
  let buf := Buffer.writeIndent Buffer.new indent in
  let* _ := setCurrentBlock (Some block) in
  let* buf :=
    match block_type block with
    | Page =>
        let* s := parsePageBlock block in ret (Buffer.write buf s)
    | Text =>
        let* s := parseTextBlock block (text block) in ret (Buffer.write buf s)
    | Heading1 => parseHeading buf "# " block (heading1 block)
    | Heading2 => parseHeading buf "## " block (heading2 block)
    | Heading3 => parseHeading buf "### " block (heading3 block)
    | Heading4 => parseHeading buf "#### " block (heading4 block)
    | Heading5 => parseHeading buf "##### " block (heading5 block)
    | Heading6 => parseHeading buf "###### " block (heading6 block)
    | Heading7 => parseHeading buf "####### " block (heading7 block)
    | Heading8 => parseHeading buf "######## " block (heading8 block)
    | Heading9 => parseHeading buf "######### " block (heading9 block)
    | Bullet =>
        let* s := parseBulletBlock block indent in
        ret (Buffer.write buf (Js.trimStart s))
    | Ordered =>
        let* s := parseOrderedBlock block indent in ret (Buffer.write buf s)
    | Code =>
        let buf := Buffer.write buf "```" in
        let buf :=
          Buffer.write buf
            (match code block with
             | Some tb => getCodeLanguage (language (style tb))
             | None => ""
             end) in
        let buf := Buffer.write buf Js.LF in
        let* s := parseTextBlock block (code block) in
        let buf := Buffer.write buf (Js.trim s) in
        ret (Buffer.write buf (Js.LF +:+ "```" +:+ Js.LF))
    | Quote =>
        let buf := Buffer.write buf "> " in
        let* s := parseTextBlock block (quote block) in ret (Buffer.write buf s)
    | TodoList =>
        let buf := Buffer.write buf "- [" in
        let buf :=
          Buffer.write buf
            (match todo block with
             | Some tb => if done (style tb) then "x" else " "
             | None => " "
             end) in
        let buf := Buffer.write buf "] " in
        let* s := parseTextBlock block (todo block) in ret (Buffer.write buf s)
    | Divider => ret (Buffer.write buf ("---" +:+ Js.LF))
    | Image =>
        let* s := parseImage (image block) in ret (Buffer.write buf s)
    | TableCell =>
        let* s := parseTableCell block in ret (Buffer.write buf s)
    | Table =>
        let* s := parseTable (table block) in ret (Buffer.write buf s)
    | QuoteContainer =>
        let* s := parseQuoteContainer block in ret (Buffer.write buf s)
    | View =>
        let* s := parseView block in ret (Buffer.write buf s)
    | File =>
        let* s := parseFile block in ret (Buffer.write buf s)
    | Grid =>
        let* s := parseGrid block in ret (Buffer.write buf s)
    | GridColumn => ret buf
    | Callout =>
        let* s := parseCallout block in ret (Buffer.write buf s)
    | Iframe =>
        let* s := parseIframe block in ret (Buffer.write buf s)
    | Board =>
        let* s := parseBoard (board block) in ret (Buffer.write buf s)
    | SyncedBlock =>
        let* s := parseSyncedBlock block in ret (Buffer.write buf s)
    | _ =>
        let* s := parseUnsupport block in ret (Buffer.write buf s)
    end in
  ret (Buffer.toString buf).

End Helpers.

(** [parseBlock], with the depth of its recursion bounded by [fuel]. *)
Fixpoint parseBlock (fuel : nat) (block : Block) (indent : nat) : M string :=
  match fuel with
  | O => outOfFuel
  | S fuel' => parseBlockBody (parseBlock fuel') block indent
  end.

(** The loop [for (const block of blocks) this.blockMap.set(...)], from
    the cleared map. *)
Definition buildBlockMap (blocks : list Block) : gmap string Block :=
  foldl (fun m block => <[block_id block := block]> m) ∅ blocks.

(** [blocks.find((b) => b.block_type === BlockType.Page)]. *)
Definition findRoot (blocks : list Block) : option Block :=
  List.find (fun b => bool_decide (block_type b = Page)) blocks.

End MarkdownRenderer.

(** [parse(blocks)] on a renderer in the state [this]: the Markdown text
    and the renderer after the call, or what was thrown. *)
Definition parse (marked_parse getEmojiChar : string -> string)
    (JSON_stringify : Block -> string)
    (fuel : nat) (blocks : list Block) (this : Renderer) : Res Exception string :=
  let blockMap := buildBlockMap blocks in
  let this :=
    {| currentBlock := currentBlock this; nextBlock := nextBlock this;
       indent := indent this; _fileTokens := []; _title := _title this |} in
  match findRoot blocks with
  | None => Throw RootNotFound
  | Some rootBlock =>
      match parseBlock marked_parse getEmojiChar JSON_stringify blockMap
              fuel rootBlock O this with
      | Ok result this' => Ok (Js.trim result +:+ Js.LF) this'
      | Throw e => Throw (Builtin e)
      | OutOfFuel => OutOfFuel
      end
  end.

(** The getter [fileTokens]. *)
Definition fileTokens (this : Renderer) : list FileToken := _fileTokens this.

(** The getter [title]. *)
Definition title (this : Renderer) : string := _title this.

(* ===================================================================== *)
(** * Token substitution ([utils/file.ts]) *)
(* ===================================================================== *)

(** [tokenToPath] is a [Map], iterated in insertion order: the list of
    its entries in that order. *)
Definition replaceFileTokens (markdown : string) (tokenToPath : list (string * string)) : string :=
  foldl (fun result '(tok, localPath) =>
           let result :=
             Js.replaceAll ("src=" +:+ Js.quoted tok) ("src=" +:+ Js.quoted localPath) result in
           Js.replaceAll ("](" +:+ tok +:+ ")") ("](" +:+ localPath +:+ ")") result)
        markdown tokenToPath.

(** The character class of [sanitizeFilename]:
    [<], [>], [:], the double quote, [/], the backslash, [|], [?], [*]. *)
Definition illegalInFilename (c : ascii) : bool :=
  existsb (Ascii.eqb c)
    ["<"; ">"; ":"; Js.chr 34; "/"; "\"; "|"; "?"; "*"]%char.

Definition sanitizeFilename (name : string) : string :=
  Js.trim (Js.replaceSpaces "_" false (Js.replaceClass illegalInFilename "_" name)).

(* ===================================================================== *)
(** * The vocabulary of the properties *)
(* ===================================================================== *)

(** What the properties of the renderer are stated with: notions that
    follow the words of the specification (the run of ordered items
    before a position, a complex table, the lines of a pipe table, ...),
    to which the theorems relate the functions above, and sample
    documents to run the renderer on. *)

(** [id] names an ordered-list item of the document. *)
Definition isOrderedItem (bm : gmap string Block) (id : string) : bool :=
  match bm !! id with
  | Some b => bool_decide (block_type b = Ordered)
  | None => false
  end.

(** The number of ordered-list items at the front of [siblings], up to
    the first one that is not an ordered-list item. *)
Fixpoint orderedRun (bm : gmap string Block) (siblings : list string) : nat :=
  match siblings with
  | [] => O
  | id :: rest => if isOrderedItem bm id then S (orderedRun bm rest) else O
  end.

(** The number of consecutive ordered-list items that come immediately
    before position [i] of [siblings], counted backwards from [i - 1]. *)
Definition precedingOrdered (bm : gmap string Block) (siblings : list string) (i : nat) : nat :=
  orderedRun bm (reverse (take i siblings)).

(** The text of [b'] starts with the text of [b]: the buffer was only
    written to. *)
Definition extends (b b' : Buffer.t) : Prop :=
  exists s, Buffer.toString b' = Buffer.toString b +:+ s.

(** ** Styled runs *)

(** The wrappings a text run can get from its style flags. *)
Inductive InlineStyle : Type :=
| SBold | SItalic | SStrikethrough | SUnderline | SInlineCode.

(** The one wrapping applied to a run: the first flag that is set. *)
Definition appliedStyle (st : TextElementStyle) : option InlineStyle :=
  if bold st then Some SBold
  else if italic st then Some SItalic
  else if strikethrough st then Some SStrikethrough
  else if underline st then Some SUnderline
  else if inline_code st then Some SInlineCode
  else None.

(** The Markdown delimiter that opens and closes a wrapping; underline
    has an opening and a closing tag instead. *)
Definition delimiter (k : InlineStyle) : string :=
  match k with
  | SBold => "**"
  | SItalic => "*"
  | SStrikethrough => "~~"
  | SUnderline => "<u>"
  | SInlineCode => "`"
  end.

(** The text of a run as it is written: escaped, except in inline code
    and inside a code block. *)
Definition shownText (r : Renderer) (k : InlineStyle) (content : string) : string :=
  match k with
  | SInlineCode => content
  | _ => if isCode (currentBlock r) then content else escapeHTMLTags content
  end.

(** The text composed from a sequence of inline elements, from an empty
    buffer. *)
Definition composed (els : list TextElement) (r : Renderer) : option string :=
  match parseTextElements Buffer.new els r with
  | Ok buf _ => Some (Buffer.toString buf)
  | _ => None
  end.

(** The number of places of [s] at which [pat] occurs. *)
Fixpoint occurrences (pat s : string) : nat :=
  match s with
  | "" => O
  | String _ s' =>
      ((if String.prefix pat s then 1 else 0) + occurrences pat s')%nat
  end.

(** A text element that is a run with the given flags. *)
Definition styledRun (content : string) (b i s u c : bool) : TextElement :=
  {| text_run :=
       Some {| content := content;
               text_element_style :=
                 Some {| bold := b; italic := i; strikethrough := s; underline := u;
                         inline_code := c; background_color := 0; text_color := 0;
                         link := None |} |};
     inline_file := None; inline_block := None; equation := None;
     mention_doc := None |}.

(** ** Headings *)

(** The level of a heading block type. *)
Definition headingLevel (t : BlockType) : option nat :=
  match t with
  | Heading1 => Some 1%nat | Heading2 => Some 2%nat | Heading3 => Some 3%nat
  | Heading4 => Some 4%nat | Heading5 => Some 5%nat | Heading6 => Some 6%nat
  | Heading7 => Some 7%nat | Heading8 => Some 8%nat | Heading9 => Some 9%nat
  | _ => None
  end.

(** The payload member a heading block is rendered from. *)
Definition headingContent (block : Block) : option TextBlock :=
  match block_type block with
  | Heading1 => heading1 block | Heading2 => heading2 block
  | Heading3 => heading3 block | Heading4 => heading4 block
  | Heading5 => heading5 block | Heading6 => heading6 block
  | Heading7 => heading7 block | Heading8 => heading8 block
  | Heading9 => heading9 block
  | _ => None
  end.

(** The renderer once [parseBlock] has recorded the depth and the block
    it is at. *)
Definition entered (r : Renderer) (block : Block) (depth : nat) : Renderer :=
  {| currentBlock := Some block; nextBlock := nextBlock r; indent := depth;
     _fileTokens := _fileTokens r; _title := _title r |}.

(** The text a call returned, if it returned. *)
Definition returned {E} (res : Res E string) : option string :=
  match res with
  | Ok s _ => Some s
  | _ => None
  end.

(** ** Sample documents *)

Definition plainStyle : TextStyle :=
  {| align := 0; done := false; folded := false; language := 0; wrap := false |}.

(** A run of unstyled text. *)
Definition plainRun (s : string) : TextElement :=
  {| text_run := Some {| content := s; text_element_style := None |};
     inline_file := None; inline_block := None; equation := None;
     mention_doc := None |}.

(** A block with no payload. *)
Definition bareBlock (id parent : string) (t : BlockType) (kids : list string) : Block :=
  {| block_id := id; parent_id := parent; children := kids; block_type := t;
     page := None; text := None;
     heading1 := None; heading2 := None; heading3 := None; heading4 := None;
     heading5 := None; heading6 := None; heading7 := None; heading8 := None;
     heading9 := None;
     bullet := None; ordered := None; code := None; quote := None; todo := None;
     callout := None; file := None; grid := None; grid_column := None;
     iframe := None; image := None; table := None; board := None |}.

(** A block of a textual type, its elements in the payload member of
    that type. *)
Definition textualBlock (id parent : string) (t : BlockType) (kids : list string)
    (els : list TextElement) : Block :=
  let tb := Some {| style := plainStyle; elements := els |} in
  let at_ (t' : BlockType) := if bool_decide (t = t') then tb else None in
  {| block_id := id; parent_id := parent; children := kids; block_type := t;
     page := at_ Page; text := at_ Text;
     heading1 := at_ Heading1; heading2 := at_ Heading2; heading3 := at_ Heading3;
     heading4 := at_ Heading4; heading5 := at_ Heading5; heading6 := at_ Heading6;
     heading7 := at_ Heading7; heading8 := at_ Heading8; heading9 := at_ Heading9;
     bullet := at_ Bullet; ordered := at_ Ordered; code := at_ Code;
     quote := at_ Quote; todo := at_ TodoList;
     callout := None; file := None; grid := None; grid_column := None;
     iframe := None; image := None; table := None; board := None |}.

(** A table block. *)
Definition tableBlock (id parent : string) (tbl : TableBlock) : Block :=
  {| block_id := id; parent_id := parent; children := cells tbl; block_type := Table;
     page := None; text := None;
     heading1 := None; heading2 := None; heading3 := None; heading4 := None;
     heading5 := None; heading6 := None; heading7 := None; heading8 := None;
     heading9 := None;
     bullet := None; ordered := None; code := None; quote := None; todo := None;
     callout := None; file := None; grid := None; grid_column := None;
     iframe := None; image := None; table := Some tbl; board := None |}.

(** Stand-ins for what lies outside the files at hand, for running the
    renderer on a sample.  Only the HTML rendering of a table goes through
    one of them, [sampleMarked], which leaves the text of a cell as it
    is. *)
Definition sampleMarked (markdown : string) : string := markdown.

Definition sampleEmoji (id : string) : string := id.

Definition sampleStringify (_ : Block) : string := "{}".

(** The walk with the stand-ins. *)
Definition sampleWalk : gmap string Block -> nat -> Block -> nat -> M string :=
  parseBlock sampleMarked sampleEmoji sampleStringify.

(** A page with a bullet item that has a first-level heading as its
    child. *)
Definition nestedHeadingDoc : list Block :=
  [ textualBlock "doc" "" Page ["item"] [plainRun "Notes"];
    textualBlock "item" "doc" Bullet ["head"] [plainRun "point"];
    textualBlock "head" "item" Heading1 [] [plainRun "Nested"] ].

(** ** Tables *)

(** The condition of the specification for a complex table: a merge
    entry spans more than one row or column, or a column is wider than
    100. *)
Definition complexTable (table : TableBlock) : Prop :=
  Exists (fun info => row_span info > 1 \/ col_span info > 1) (merge_info (property table))
  \/ Exists (fun width => width > 100) (column_width (property table)).

(** One line of a pipe table: a pipe, then each cell followed by a
    pipe. *)
Definition pipeRow (cells : list string) : string :=
  "|" +:+ Js.concat ((fun cell => cell +:+ "|") <$> cells) +:+ Js.LF.

(** The line that separates the header of a pipe table from its body. *)
Definition separatorRow (n : nat) : string :=
  "|" +:+ Js.repeat "---|" n +:+ Js.LF.

(** The number of line feeds in a text. *)
Fixpoint lineFeeds (s : string) : nat :=
  match s with
  | "" => O
  | String c s' => ((if Ascii.eqb c (Js.chr 10) then 1 else 0) + lineFeeds s')%nat
  end.

(** A header cell of a pipe table: a blank for an empty text. *)
Definition headerCell (cellText : string) : string :=
  match gfmCell cellText with
  | "" => " "
  | s => s
  end.

(** One [<col />] line of the column group of an HTML table. *)
Definition colLine (width : option Z) : string :=
  "    <col"
  +:+ match width with
      | Some 0 | None => ""
      | Some w => " width=" +:+ Js.quoted (Js.ofZ w)
      end
  +:+ " />" +:+ Js.LF.

(** The element written for the cell with index [k]: nothing for a cell
    that a merge covers. *)
Definition cellMarkup (mergeInfos : list TableMergeInfo) (cellInfos : list Z)
    (tag : string) (k : nat) (cell : string) : string :=
  match cellInfos !! k with
  | Some 1 =>
      "<" +:+ tag +:+ tableCellAttrHTML mergeInfos k +:+ ">" +:+ cell
      +:+ "</" +:+ tag +:+ ">"
  | _ => ""
  end.

(** The elements written for consecutive cells, the first with index
    [k]. *)
Fixpoint cellsMarkup (mergeInfos : list TableMergeInfo) (cellInfos : list Z)
    (tag : string) (k : nat) (row : list string) : string :=
  match row with
  | [] => ""
  | cell :: row' =>
      cellMarkup mergeInfos cellInfos tag k cell
      +:+ cellsMarkup mergeInfos cellInfos tag (S k) row'
  end.

(** The [<tr>] lines written for consecutive body rows, the first cell
    with index [k]. *)
Fixpoint rowsMarkup (mergeInfos : list TableMergeInfo) (cellInfos : list Z)
    (k : nat) (rows : list (list string)) : string :=
  match rows with
  | [] => ""
  | row :: rows' =>
      "    <tr>" +:+ cellsMarkup mergeInfos cellInfos "td" k row +:+ "</tr>" +:+ Js.LF
      +:+ rowsMarkup mergeInfos cellInfos (k + List.length row)%nat rows'
  end.

(** The opening of an HTML table: the [<table>] tag and the column
    group. *)
Definition htmlOpening (table : TableBlock) : string :=
  "<table"
  +:+ match header_column (property table), header_row (property table) with
      | true, true => " header_column=" +:+ Js.quoted "1" +:+ " header_row=" +:+ Js.quoted "1"
      | true, false => " header_column=" +:+ Js.quoted "1"
      | false, true => " header_row=" +:+ Js.quoted "1"
      | false, false => ""
      end
  +:+ ">" +:+ Js.LF
  +:+ "  <colgroup>" +:+ Js.LF
  +:+ Js.concat ((fun i => colLine (column_width (property table) !! i))
                   <$> columns (column_size (property table)))
  +:+ "  </colgroup>" +:+ Js.LF.

(** The text of a cell as the HTML table holds it. *)
Definition htmlCell (marked_parse : string -> string) (cellText : string) : string :=
  Js.trim (markdownToHTML marked_parse cellText).

Definition noSpan : TableMergeInfo := {| row_span := 1; col_span := 1 |}.

(** A table of four cells. *)
Definition sampleTable (prop : TableProperty) : TableBlock :=
  {| cells := ["c0"; "c1"; "c2"; "c3"]; property := prop |}.

(** The cell [c] of the sample table, holding the paragraph [p]. *)
Definition sampleCell (c p : string) : Block := bareBlock c "tbl" TableCell [p].

(** The paragraph [p] of the cell [c]. *)
Definition samplePara (p c : string) (s : string) : Block :=
  textualBlock p c Text [] [plainRun s].

(** A page with one table of two rows and two columns, a paragraph in
    each cell. *)
Definition tableDoc (prop : TableProperty) : list Block :=
  [ textualBlock "doc" "" Page ["tbl"] [plainRun "Report"];
    tableBlock "tbl" "doc" (sampleTable prop);
    sampleCell "c0" "p0"; sampleCell "c1" "p1";
    sampleCell "c2" "p2"; sampleCell "c3" "p3";
    samplePara "p0" "c0" "Name"; samplePara "p1" "c1" "Age";
    samplePara "p2" "c2" "Ann"; samplePara "p3" "c3" "41" ].

(** Two rows, two columns, a header row, nothing merged, narrow
    columns. *)
Definition plainProperty : TableProperty :=
  {| row_size := 2; column_size := 2; column_width := [100; 100];
     header_column := false; header_row := true;
     merge_info := [noSpan; noSpan; noSpan; noSpan] |}.

(** The same, without a header row. *)
Definition headlessProperty : TableProperty :=
  {| row_size := 2; column_size := 2; column_width := [100; 100];
     header_column := false; header_row := false;
     merge_info := [noSpan; noSpan; noSpan; noSpan] |}.

(** The same as [plainProperty], the first cell spanning both rows. *)
Definition mergedProperty : TableProperty :=
  {| row_size := 2; column_size := 2; column_width := [100; 100];
     header_column := false; header_row := true;
     merge_info := [{| row_span := 2; col_span := 1 |}; noSpan; noSpan; noSpan] |}.

(** A run of linked text. *)
Definition linkedRun (s target : string) : TextElement :=
  {| text_run :=
       Some {| content := s;
               text_element_style :=
                 Some {| bold := false; italic := false; strikethrough := false;
                         underline := false; inline_code := false;
                         background_color := 0; text_color := 0;
                         link := Some {| url := target |} |} |};
     inline_file := None; inline_block := None; equation := None;
     mention_doc := None |}.

(** A page with one paragraph, whose link has a percent sign that starts
    no escape. *)
Definition badLinkDoc : list Block :=
  [ textualBlock "doc" "" Page ["p"] [plainRun "Offer"];
    textualBlock "p" "doc" Text [] [linkedRun "details" "https://example.com/100%"] ].

(** A page with a table of one column and three cells, of which the
    first two are in no block of the list. *)
Definition gappedTableDoc : list Block :=
  [ textualBlock "doc" "" Page ["tbl"] [plainRun "Report"];
    tableBlock "tbl" "doc"
      {| cells := ["gone0"; "gone1"; "c2"];
         property := {| row_size := 3; column_size := 1; column_width := [100];
                        header_column := false; header_row := false;
                        merge_info := [noSpan; noSpan; noSpan] |} |};
    sampleCell "c2" "p2";
    samplePara "p2" "c2" "Ann" ].

(** A page whose children are an ordered item, a second one, a paragraph
    and a third ordered item. *)
Definition orderedListDoc : list Block :=
  [ textualBlock "doc" "" Page ["a"; "b"; "x"; "c"] [plainRun "Steps"];
    textualBlock "a" "doc" Ordered [] [plainRun "one"];
    textualBlock "b" "doc" Ordered [] [plainRun "two"];
    textualBlock "x" "doc" Text [] [plainRun "pause"];
    textualBlock "c" "doc" Ordered [] [plainRun "again"] ].

(** ** Renderers that agree *)

(** What the walk reads of the renderer: everything but the title, and,
    with [next] unset, but the lookahead sibling. *)
Definition agreeOn (next : bool) (r1 r2 : Renderer) : Prop :=
  currentBlock r1 = currentBlock r2
  /\ indent r1 = indent r2
  /\ _fileTokens r1 = _fileTokens r2
  /\ (next = true -> nextBlock r1 = nextBlock r2).

(** Two outcomes of a step of the walk that differ at most in the
    members the walk does not read. *)
Definition sameOutcome {E A} (next : bool) (x y : Res E A) : Prop :=
  match x, y with
  | Ok a r1, Ok b r2 => a = b /\ agreeOn next r1 r2
  | Throw e1, Throw e2 => e1 = e2
  | OutOfFuel, OutOfFuel => True
  | _, _ => False
  end.

(** [m] gives the same outcome from renderers that agree. *)
Definition respects {A} (p q : bool) (m : M A) : Prop :=
  forall r1 r2, agreeOn p r1 r2 -> sameOutcome q (m r1) (m r2).

(** Two outcomes of [parse] with the same text and the same file tokens,
    or the same exception. *)
Definition sameRendering (x y : Res Exception string) : Prop :=
  match x, y with
  | Ok md1 r1, Ok md2 r2 => md1 = md2 /\ fileTokens r1 = fileTokens r2
  | Throw e1, Throw e2 => e1 = e2
  | OutOfFuel, OutOfFuel => True
  | _, _ => False
  end.

(** ** Documents on which the walk returns *)

(** The URL of the link of a run, if the run is rendered as a link, can
    be decoded. *)
Definition runDecodes (run : TextRun) : bool :=
  match text_element_style run with
  | None => true
  | Some st =>
      if bold st || italic st || strikethrough st || underline st || inline_code st
      then true
      else
        match link st with
        | Some l => bool_decide (is_Some (Js.decodeURIComponent (url l)))
        | None => true
        end
  end.

(** What an inline element has the renderer decode can be decoded. *)
Definition elementDecodes (el : TextElement) : bool :=
  match text_run el, equation el, mention_doc el with
  | Some run, _, _ => runDecodes run
  | None, Some _, _ => true
  | None, None, Some mention =>
      bool_decide (is_Some (Js.decodeURIComponent (mention_token mention)))
  | None, None, None => true
  end.

Definition textDecodes (tb : option TextBlock) : bool :=
  match tb with
  | Some tb => forallb elementDecodes (elements tb)
  | None => true
  end.

(** Every URL and token in the payload of a block can be decoded. *)
Definition blockDecodes (b : Block) : bool :=
  textDecodes (page b) && textDecodes (text b)
  && textDecodes (heading1 b) && textDecodes (heading2 b) && textDecodes (heading3 b)
  && textDecodes (heading4 b) && textDecodes (heading5 b) && textDecodes (heading6 b)
  && textDecodes (heading7 b) && textDecodes (heading8 b) && textDecodes (heading9 b)
  && textDecodes (bullet b) && textDecodes (ordered b) && textDecodes (code b)
  && textDecodes (quote b) && textDecodes (todo b)
  && match iframe b with
     | Some f => bool_decide (is_Some (Js.decodeURIComponent (iframe_url f)))
     | None => true
     end.

(** The table of a block, if it has one, has a positive number of
    columns and all of its cells in the block map. *)
Definition tableReady (bm : gmap string Block) (b : Block) : bool :=
  match table b with
  | Some t =>
      (0 <? column_size (property t))
      && forallb (fun c => bool_decide (is_Some (bm !! c))) (cells t)
  | None => true
  end.

(** The ids through which the walk leaves a block. *)
Definition subIds (b : Block) : list string :=
  children b ++ match table b with Some t => cells t | None => [] end.

(** A block the walk can render: its payload decodes, its table is
    ready, and the blocks it leads to have a smaller rank (so that no
    path through the block map comes back to it).  Its children need not
    be in the block map. *)
Definition sound (bm : gmap string Block) (rank : Block -> nat) (b : Block) : Prop :=
  blockDecodes b = true
  /\ tableReady bm b = true
  /\ forall c cb, c ∈ subIds b -> bm !! c = Some cb -> (rank cb < rank b)%nat.

(** [m] returns, from every state of the renderer. *)
Definition returns {A} (m : M A) : Prop :=
  forall r, exists a r', m r = Ok a r'.

(** A block list the walk can render: every block of it is sound for the
    block map built from it. *)
Definition wellFormed (blocks : list Block) (rank : Block -> nat) : Prop :=
  forall b, b ∈ blocks -> sound (buildBlockMap blocks) rank b.

(** A page whose first child is in no block of the list, and an ordered
    item. *)
Definition missingChildDoc : list Block :=
  [ textualBlock "doc" "" Page ["gone"; "a"] [plainRun "Steps"];
    textualBlock "a" "doc" Ordered [] [plainRun "one"] ].

(** The rank of a block of a flat document: the page above the rest. *)
Definition flatRank (b : Block) : nat :=
  if bool_decide (block_type b = Page) then 1%nat else 0%nat.

(** ** The notions of the further properties *)

(** [c] occurs in [s]. *)
Fixpoint hasChar (c : ascii) (s : string) : bool :=
  match s with
  | "" => false
  | String a s' => Ascii.eqb a c || hasChar c s'
  end.

(** The values of [enum CodeLanguage]. *)
Definition isCodeLanguage (code : Z) : Prop := 1 <= code <= 75.

(** The number of code units of the white-space code point at the front
    of [s]: [0] if there is none there. *)
Definition wsLen (s : string) : nat :=
  match s with
  | String c1 r1 =>
      if Js.ws1 (Js.code c1) then 1%nat
      else
        match r1 with
        | String c2 r2 =>
            if Js.ws2 (Js.code c1) (Js.code c2) then 2%nat
            else
              match r2 with
              | String c3 _ =>
                  if Js.ws3 (Js.code c1) (Js.code c2) (Js.code c3) then 3%nat else 0%nat
              | "" => 0%nat
              end
        | "" => 0%nat
        end
  | "" => 0%nat
  end.

(** No white-space code point starts anywhere in [s]. *)
Fixpoint wsFree (s : string) : bool :=
  match s with
  | "" => true
  | String _ s' => (wsLen s =? 0)%nat && wsFree s'
  end.

(** Every character of [s] satisfies [p]. *)
Fixpoint allChars (p : ascii -> bool) (s : string) : bool :=
  match s with
  | "" => true
  | String a s' => p a && allChars p s'
  end.

(** [s] without its first [k] code units. *)
Fixpoint skip (k : nat) (s : string) : string :=
  match k, s with
  | S k', String _ s' => skip k' s'
  | _, _ => s
  end.

(** The style record with the given flags, no colour and no link. *)
Definition flagStyle (b i s u c : bool) : TextElementStyle :=
  {| bold := b; italic := i; strikethrough := s; underline := u; inline_code := c;
     background_color := 0; text_color := 0; link := None |}.

(** The style record with the one flag of [k] set, and nothing else. *)
Definition onlyStyle (k : InlineStyle) : TextElementStyle :=
  match k with
  | SBold => flagStyle true false false false false
  | SItalic => flagStyle false true false false false
  | SStrikethrough => flagStyle false false true false false
  | SUnderline => flagStyle false false false true false
  | SInlineCode => flagStyle false false false false true
  end.

(** A text element that is an equation. *)
Definition equationElement (tex : string) : TextElement :=
  {| text_run := None; inline_file := None; inline_block := None;
     equation := Some {| content := tex; text_element_style := None |};
     mention_doc := None |}.

(** The text of an unstyled run as it is written. *)
Definition shownPlain (r : Renderer) (content : string) : string :=
  if isCode (currentBlock r) then content else escapeHTMLTags content.

(** The block types for which [parseBlock] writes nothing but the
    indentation: those of the default case, with [outputUnsupported]
    off, and [GridColumn]. *)
Definition rendersNothing (t : BlockType) : bool :=
  match t with
  | MentionDocType | Bitable | ChatCard | Diagram | Widget | MindNote | Sheet
  | GridColumn | Unrecognized _ => true
  | _ => false
  end.

(** The renderer with another lookahead sibling. *)
Definition withNext (r : Renderer) (next : option Block) : Renderer :=
  {| currentBlock := currentBlock r; nextBlock := next; indent := indent r;
     _fileTokens := _fileTokens r; _title := _title r |}.

(** The lookahead sibling is an item of the list of [block]: of its type
    and with its parent. *)
Definition siblingFollows (r : Renderer) (block : Block) : Prop :=
  exists next, nextBlock r = Some next
               /\ block_type next = block_type block
               /\ parent_id next = parent_id block.

(** The children [ids] of a block, rendered in order at [depth] from the
    renderer [r]: the texts of the children that are in the block map,
    and the renderer after the last of them. *)
Inductive rendered (bm : gmap string Block) (rec : Block -> nat -> M string) (depth : nat)
  : list string -> Renderer -> list string -> Renderer -> Prop :=
| rendered_nil (r : Renderer) : rendered bm rec depth [] r [] r
| rendered_skip (c : string) (ids : list string) (r : Renderer)
    (texts : list string) (r' : Renderer) :
    bm !! c = None ->
    rendered bm rec depth ids r texts r' ->
    rendered bm rec depth (c :: ids) r texts r'
| rendered_child (c : string) (child : Block) (ids : list string) (r : Renderer)
    (s : string) (r1 : Renderer) (texts : list string) (r' : Renderer) :
    bm !! c = Some child ->
    rec child depth r = Ok s r1 ->
    rendered bm rec depth ids r1 texts r' ->
    rendered bm rec depth (c :: ids) r (s :: texts) r'.

(** The text of a code block before it is trimmed: the sources of its
    runs, and a line feed after them if there is any text. *)
Definition codeSource (texts : list string) : string :=
  match Js.concat texts with
  | "" => ""
  | source => source +:+ Js.LF
  end.

(** The containers that render their children and add nothing of their
    own. *)
Definition transparent (t : BlockType) : bool :=
  match t with
  | View | SyncedBlock | TableCell => true
  | _ => false
  end.

(** A page with a quote container that holds two paragraphs and, between
    them, a child that is in no block of the list. *)
Definition quotedDoc : list Block :=
  [ textualBlock "doc" "" Page ["q"] [plainRun "Notes"];
    bareBlock "q" "doc" QuoteContainer ["p1"; "gone"; "p2"];
    textualBlock "p1" "q" Text [] [plainRun "first"];
    textualBlock "p2" "q" Text [] [plainRun "second"] ].

(** Whenever [m] returns, the renderer it leaves is related by [R] to the
    one it started from. *)
Definition transits {A} (R : Renderer -> Renderer -> Prop) (m : M A) : Prop :=
  forall r a r', m r = Ok a r' -> R r r'.

(** The file tokens of [r'] are those of [r] and, after them, tokens
    that are not empty. *)
Definition tokensGrow (r r' : Renderer) : Prop :=
  exists added,
    _fileTokens r' = _fileTokens r ++ added
    /\ Forall (fun ft => token ft <> "") added.

(** The renderer with another title. *)
Definition withTitle (r : Renderer) (s : string) : Renderer :=
  {| currentBlock := currentBlock r; nextBlock := nextBlock r; indent := indent r;
     _fileTokens := _fileTokens r; _title := s |}.

(** The block types whose rendering records a file token. *)
Definition isMedia (t : BlockType) : bool :=
  match t with
  | Image | Board | File => true
  | _ => false
  end.

(** The title that the inline elements of a page block give. *)
Definition titleOf (els : list TextElement) : option string :=
  Js.trim <$> composed els newRenderer.

(** The renderer after [addFileToken(kind, tok)]. *)
Definition withToken (r : Renderer) (kind : FileKind) (tok : string) : Renderer :=
  match tok with
  | "" => r
  | _ =>
      {| currentBlock := currentBlock r; nextBlock := nextBlock r; indent := indent r;
         _fileTokens := _fileTokens r ++ [{| token := tok; type := kind |}];
         _title := _title r |}
  end.

(** A block with an image in the member [image]. *)
Definition imageBlock (id parent : string) (img : ImageBlock) : Block :=
  {| block_id := id; parent_id := parent; children := []; block_type := Image;
     page := None; text := None;
     heading1 := None; heading2 := None; heading3 := None; heading4 := None;
     heading5 := None; heading6 := None; heading7 := None; heading8 := None;
     heading9 := None;
     bullet := None; ordered := None; code := None; quote := None; todo := None;
     callout := None; file := None; grid := None; grid_column := None;
     iframe := None; image := Some img; table := None; board := None |}.

(** A page with a paragraph and an image. *)
Definition imageDoc : list Block :=
  [ textualBlock "doc" "" Page ["p"; "img"] [plainRun "Album"];
    textualBlock "p" "doc" Text [] [plainRun "A view"];
    imageBlock "img" "doc"
      {| image_width := 640; image_height := 480; image_token := "boxcnAbc";
         image_align := 2 |} ].

(** The cell [t] is marked as covered on account of the merge entry
    [info] of the cell [i]: it is [j] rows below it, for a [j] from 1 and
    below the row span, or [j] cells after it, for a [j] from 1 and below
    the column span. *)
Definition coveredBy (columnSize : Z) (i : nat) (info : TableMergeInfo) (t : nat) : Prop :=
  (exists j, 1 <= j < row_span info /\ Z.of_nat t = Z.of_nat i + j * columnSize)
  \/ (exists j, 1 <= j < col_span info /\ Z.of_nat t = Z.of_nat i + j).

(** The cell [t] is marked as covered on account of some merge entry. *)
Definition covered (mergeInfos : list TableMergeInfo) (columnSize : Z) (t : nat) : Prop :=
  exists i info, mergeInfos !! i = Some info /\ coveredBy columnSize i info t.

(** The cells that the merge entry of the cell [i] has marked. *)
Definition targets (columnSize : Z) (e : nat * TableMergeInfo) : list Z :=
  ((fun j => Z.of_nat e.1 + j * columnSize) <$> spanSteps (row_span e.2))
  ++ ((fun j => Z.of_nat e.1 + j) <$> spanSteps (col_span e.2)).

(** The number of rows after [len] cells were put in rows of [n] cells:
    the one row the loop starts from, and one more for each [n] cells
    but the first [n]. *)
Definition numRows (n len : nat) : nat :=
  match len with
  | O => 1
  | S m => m / n + 1
  end.

(** The cells [l] in rows of [n] cells, row after row. *)
Definition rowsOf (n : nat) (l : list string) : list (list string) :=
  (fun k => take n (drop (k * n) l)) <$> seq 0 (numRows n (List.length l)).

(** A table of two columns and three cells. *)
Definition cellsDoc : list Block :=
  [ textualBlock "a" "t" Text [] [plainRun "one"];
    textualBlock "b" "t" Text [] [plainRun "two"];
    textualBlock "c" "t" Text [] [plainRun "three"] ].

(** A table of two columns with the three cells of [cellsDoc]. *)
Definition threeCells : TableBlock :=
  {| cells := ["a"; "b"; "c"];
     property := {| row_size := 2; column_size := 2; column_width := [];
                    header_column := false; header_row := true; merge_info := [] |} |}.

(** The children [ids] of a grid column or a callout, rendered in order
    at depth 0 from the renderer [r]: one text for each child, the empty
    text for a child that is not in the block map, and the renderer after
    the last of them. *)
Inductive joined (bm : gmap string Block) (rec : Block -> nat -> M string)
  : list string -> Renderer -> list string -> Renderer -> Prop :=
| joined_nil (r : Renderer) : joined bm rec [] r [] r
| joined_missing (c : string) (ids : list string) (r : Renderer)
    (texts : list string) (r' : Renderer) :
    bm !! c = None ->
    joined bm rec ids r texts r' ->
    joined bm rec (c :: ids) r ("" :: texts) r'
| joined_child (c : string) (child : Block) (ids : list string) (r : Renderer)
    (s : string) (r1 : Renderer) (texts : list string) (r' : Renderer) :
    bm !! c = Some child ->
    rec child O r = Ok s r1 ->
    joined bm rec ids r1 texts r' ->
    joined bm rec (c :: ids) r (s :: texts) r'.

(** The element of the emoji of a callout. *)
Definition emojiSpan (getEmojiChar : string -> string) (block : Block) : string :=
  match callout block with
  | Some c =>
      match emoji_id c with
      | "" => ""
      | id => "<span class=" +:+ Js.quoted "callout-emoji" +:+ ">"
              +:+ getEmojiChar id +:+ "</span>" +:+ Js.LF
      end
  | None => ""
  end.

(** A callout without colours. *)
Definition plainCallout (block : Block) : Prop :=
  forall c, callout block = Some c ->
    callout_background_color c = 0 /\ callout_border_color c = 0
    /\ callout_text_color c = 0.

(** The opening tag of a grid column. *)
Definition columnOpening (block : Block) : string :=
  "<div class=" +:+ Js.quoted "grid-column" +:+ " style="
  +:+ Js.quoted ("flex: "
                 +:+ Js.ofZ (orOne (match grid_column block with
                                    | Some g => width_ratio g
                                    | None => 0
                                    end)) +:+ ";") +:+ ">" +:+ Js.LF.

(** The opening tag of a grid. *)
Definition gridOpening (block : Block) : string :=
  "<div class=" +:+ Js.quoted "grid" +:+ " style="
  +:+ Js.quoted ("display: grid; grid-template-columns: repeat("
                 +:+ Js.ofZ (orOne (match grid block with
                                    | Some g => grid_column_size g
                                    | None => 0
                                    end)) +:+ ", 1fr); gap: 16px;") +:+ ">" +:+ Js.LF.

(** A page with a callout that holds a paragraph and a child that is in
    no block of the list, and a grid with a paragraph as its child. *)
Definition calloutDoc : list Block :=
  [ textualBlock "doc" "" Page ["box"; "cols"] [plainRun "Notes"];
    bareBlock "box" "doc" Callout ["p1"; "gone"];
    textualBlock "p1" "box" Text [] [plainRun "first"];
    bareBlock "cols" "doc" Grid ["p2"];
    textualBlock "p2" "cols" Text ["p3"] [plainRun "second"];
    textualBlock "p3" "p2" Text [] [plainRun "third"] ].

(** The children [ids] of a text block or a heading, rendered in order
    from the renderer [r], each child at the depth the renderer holds when
    the child is reached: the texts of the children that are in the block
    map, and the renderer after the last of them. *)
Inductive renderedAt (bm : gmap string Block) (rec : Block -> nat -> M string)
  : list string -> Renderer -> list string -> Renderer -> Prop :=
| renderedAt_nil (r : Renderer) : renderedAt bm rec [] r [] r
| renderedAt_skip (c : string) (ids : list string) (r : Renderer)
    (texts : list string) (r' : Renderer) :
    bm !! c = None ->
    renderedAt bm rec ids r texts r' ->
    renderedAt bm rec (c :: ids) r texts r'
| renderedAt_child (c : string) (child : Block) (ids : list string) (r : Renderer)
    (s : string) (r1 : Renderer) (texts : list string) (r' : Renderer) :
    bm !! c = Some child ->
    rec child (indent r) r = Ok s r1 ->
    renderedAt bm rec ids r1 texts r' ->
    renderedAt bm rec (c :: ids) r (s :: texts) r'.

(** The line of a text block: its text, and a line feed if there is any
    text. *)
Definition textLine (text : string) : string :=
  match text with
  | "" => ""
  | _ => text +:+ Js.LF
  end.

(** A block with an embedded page. *)
Definition iframeBlock (id parent url : string) : Block :=
  {| block_id := id; parent_id := parent; children := []; block_type := Iframe;
     page := None; text := None;
     heading1 := None; heading2 := None; heading3 := None; heading4 := None;
     heading5 := None; heading6 := None; heading7 := None; heading8 := None;
     heading9 := None;
     bullet := None; ordered := None; code := None; quote := None; todo := None;
     callout := None; file := None; grid := None; grid_column := None;
     iframe := Some {| iframe_type := 1; iframe_url := url |};
     image := None; table := None; board := None |}.

(** A paragraph with two children: a bullet item that has an item below
    it, and a paragraph. *)
Definition driftDoc : list Block :=
  [ textualBlock "t" "doc" Text ["b"; "u"] [plainRun "top"];
    textualBlock "b" "t" Bullet ["x"] [plainRun "item"];
    textualBlock "x" "b" Bullet [] [plainRun "below"];
    textualBlock "u" "t" Text [] [plainRun "after"] ].



(** The number of occurrences of the character [c] in [s]. *)
Fixpoint countChar (c : ascii) (s : string) : nat :=
  match s with
  | "" => O
  | String a s' => ((if Ascii.eqb a c then 1 else 0) + countChar c s')%nat
  end.



(** The page with the sample table, the text of the first cell holding a
    pipe. *)
Definition pipeCellDoc : list Block :=
  [ textualBlock "doc" "" Page ["tbl"] [plainRun "Report"];
    tableBlock "tbl" "doc" (sampleTable plainProperty);
    sampleCell "c0" "p0"; sampleCell "c1" "p1";
    sampleCell "c2" "p2"; sampleCell "c3" "p3";
    samplePara "p0" "c0" "a|b"; samplePara "p1" "c1" "Age";
    samplePara "p2" "c2" "Ann"; samplePara "p3" "c3" "41" ].

(** A page without title elements and without children. *)
Definition untitledDoc : list Block := [ textualBlock "doc" "" Page [] [] ].

(** A space or a tab. *)
Definition blankChar (c : ascii) : bool :=
  Ascii.eqb c " " || Ascii.eqb c (Js.chr 9).

(** A printable ASCII character that is not a space: [!] to [~]. *)
Definition printable (c : ascii) : bool :=
  ((33 <=? Js.code c) && (Js.code c <=? 126))%N.

(** Some character of [s] satisfies [p]. *)
Fixpoint someChar (p : ascii -> bool) (s : string) : bool :=
  match s with
  | "" => false
  | String a s' => p a || someChar p s'
  end.

(** The text composed from inline elements that stand with others in
    their text block, from an empty buffer. *)
Definition composedInline (els : list TextElement) (r : Renderer) : option string :=
  match forEach (fun _ el buf => parseTextElement buf el true) O els Buffer.new r with
  | Ok buf _ => Some (Buffer.toString buf)
  | _ => None
  end.

(** The text of the buffer starts with [p]. *)
Definition keeps (p : string) (buf : Buffer.t) : Prop :=
  exists rest, Buffer.toString buf = p +:+ rest.

(* ===================================================================== *)
(** * Facts about strings and buffers *)
(* ===================================================================== *)

Lemma app_nil_l_s (s : string) : "" +:+ s = s.
Proof. reflexivity. Qed.

Lemma app_cons_s (c : ascii) (a b : string) : String c a +:+ b = String c (a +:+ b).
Proof. reflexivity. Qed.

Lemma app_nil_r_s (s : string) : s +:+ "" = s.
Proof.
  induction s as [|c s IH]; [reflexivity |].
  now rewrite app_cons_s, IH.
Qed.

Lemma app_assoc_s (a b c : string) : (a +:+ b) +:+ c = a +:+ (b +:+ c).
Proof.
  induction a as [|x a IH]; [reflexivity |].
  now rewrite !app_cons_s, IH.
Qed.

Lemma length_app_s (a b : string) :
  String.length (a +:+ b) = (String.length a + String.length b)%nat.
Proof.
  induction a as [|x a IH]; [reflexivity |].
  rewrite app_cons_s. simpl. now rewrite IH.
Qed.

Lemma concat_app (l1 l2 : list string) :
  Js.concat (l1 ++ l2) = Js.concat l1 +:+ Js.concat l2.
Proof.
  induction l1 as [|s l1 IH]; simpl; [reflexivity |].
  now rewrite IH, app_assoc_s.
Qed.

Lemma endsWith_app (a s : string) : Js.endsWith (a +:+ s) s = true.
Proof.
  induction a as [|c a IH].
  - rewrite app_nil_l_s. destruct s; cbn [Js.endsWith]; now rewrite String.eqb_refl.
  - rewrite app_cons_s. cbn [Js.endsWith]. rewrite IH. apply orb_true_r.
Qed.

Lemma substring_all_app (a s : string) :
  String.substring 0 (String.length a) (a +:+ s) = a.
Proof.
  induction a as [|c a IH]; [now destruct s |].
  rewrite app_cons_s. simpl. now rewrite IH.
Qed.

Lemma dropLast_app (a s : string) : Js.dropLast (String.length s) (a +:+ s) = a.
Proof.
  unfold Js.dropLast. rewrite length_app_s.
  replace (String.length a + String.length s - String.length s)%nat
    with (String.length a) by lia.
  apply substring_all_app.
Qed.

Lemma prefix_app (p s : string) : String.prefix p (p +:+ s) = true.
Proof.
  induction p as [|c p IH]; [now destruct s |].
  rewrite app_cons_s. simpl.
  destruct (ascii_dec c c); [assumption | congruence].
Qed.

Lemma toString_write (b : Buffer.t) (s : string) :
  Buffer.toString (Buffer.write b s) = Buffer.toString b +:+ s.
Proof.
  unfold Buffer.toString, Buffer.write. simpl.
  rewrite concat_app. simpl. now rewrite app_nil_r_s.
Qed.

Lemma toString_writeln (b : Buffer.t) (s : string) :
  Buffer.toString (Buffer.writeln b s) = Buffer.toString b +:+ s +:+ Js.LF.
Proof.
  unfold Buffer.toString, Buffer.writeln. simpl.
  rewrite concat_app. simpl. now rewrite app_nil_r_s.
Qed.

Lemma toString_new : Buffer.toString Buffer.new = "".
Proof. reflexivity. Qed.

Lemma toString_writeIndent (b : Buffer.t) (n : nat) :
  Buffer.toString (Buffer.writeIndent b n) = Buffer.toString b +:+ Js.repeat "   " n.
Proof.
  destruct n as [|n].
  - simpl. now rewrite app_nil_r_s.
  - unfold Buffer.writeIndent. apply (toString_write b).
Qed.

(** What [trimLastIfEndsWith] does to the text of the buffer. *)
Lemma trimLast_hit (b : Buffer.t) (a suf : string) :
  suf <> "" -> Buffer.toString b = a +:+ suf ->
  exists b', Buffer.trimLastIfEndsWith b suf = (b', true) /\ Buffer.toString b' = a.
Proof.
  intros Hne Hb. unfold Buffer.trimLastIfEndsWith.
  destruct suf as [|c suf]; [congruence |].
  destruct (Buffer.parts b) as [|p ps] eqn:Hp.
  - unfold Buffer.toString in Hb. rewrite Hp in Hb. simpl in Hb.
    destruct a; discriminate.
  - rewrite Hb, endsWith_app, dropLast_app. eexists; split; [reflexivity |].
    unfold Buffer.toString. simpl. apply app_nil_r_s.
Qed.

Lemma trimLast_miss (b : Buffer.t) (suf : string) :
  Js.endsWith (Buffer.toString b) suf = false ->
  Buffer.trimLastIfEndsWith b suf = (b, false).
Proof.
  intros H. unfold Buffer.trimLastIfEndsWith.
  destruct suf; [reflexivity |].
  destruct (Buffer.parts b); [reflexivity |]. now rewrite H.
Qed.

(* ===================================================================== *)
(** * Reasoning about the walk *)
(* ===================================================================== *)

Lemma bind_Ok {A B} (m : M A) (k : A -> M B) (r r' : Renderer) (b : B) :
  bind m k r = Ok b r' -> exists a r1, m r = Ok a r1 /\ k a r1 = Ok b r'.
Proof.
  unfold bind. destruct (m r) as [a r1| |]; [|discriminate..].
  intros H. now exists a, r1.
Qed.

Lemma bind_Ok_intro {A B} (m : M A) (k : A -> M B) (r r1 : Renderer) (a : A) :
  m r = Ok a r1 -> bind m k r = k a r1.
Proof. unfold bind. now intros ->. Qed.

Lemma ret_Ok {A} (a b : A) (r r' : Renderer) :
  ret a r = Ok b r' -> a = b /\ r = r'.
Proof. unfold ret. intros H. now injection H. Qed.

Lemma extends_refl (b : Buffer.t) : extends b b.
Proof. exists "". now rewrite app_nil_r_s. Qed.

Lemma extends_trans (a b c : Buffer.t) : extends a b -> extends b c -> extends a c.
Proof.
  intros [s Hs] [t Ht]. exists (s +:+ t). now rewrite Ht, Hs, app_assoc_s.
Qed.

Lemma extends_write (b : Buffer.t) (s : string) : extends b (Buffer.write b s).
Proof. exists s. apply toString_write. Qed.

Lemma eachChild_extends (bm : gmap string Block) (step : Block -> Buffer.t -> M Buffer.t) :
  (forall child acc r acc' r', step child acc r = Ok acc' r' -> extends acc acc') ->
  forall ids buf r buf' r', eachChild bm step ids buf r = Ok buf' r' -> extends buf buf'.
Proof.
  intros Hstep. induction ids as [|c ids IH]; intros buf r buf' r' H.
  - apply ret_Ok in H as [<- _]. apply extends_refl.
  - cbn [eachChild] in H. apply bind_Ok in H as (buf1 & r1 & H1 & H2).
    eapply extends_trans; [|eapply IH, H2].
    destruct (bm !! c) as [child|].
    + eapply Hstep, H1.
    + apply ret_Ok in H1 as [<- _]. apply extends_refl.
Qed.

Lemma parseSubList_extends (bm : gmap string Block) (rec : Block -> nat -> M string)
    (block : Block) (ind : nat) (buf buf' : Buffer.t) (r r' : Renderer) :
  parseSubList bm rec block ind buf r = Ok buf' r' -> extends buf buf'.
Proof.
  unfold parseSubList. apply eachChild_extends.
  intros child acc r0 acc' r0' H.
  apply bind_Ok in H as (? & ? & _ & H).
  apply bind_Ok in H as (s & ? & _ & H).
  apply ret_Ok in H as [<- _]. apply extends_write.
Qed.

(* ===================================================================== *)
(** * Documents on which the walk returns *)
(* ===================================================================== *)

Lemma returns_ret {A} (a : A) : returns (ret a).
Proof. intros r. now exists a, r. Qed.

Lemma returns_bind {A B} (m : M A) (k : A -> M B) :
  returns m -> (forall a, returns (k a)) -> returns (bind m k).
Proof.
  intros Hm Hk r. destruct (Hm r) as (a & r1 & H1). unfold bind. rewrite H1. apply Hk.
Qed.

Lemma returns_forEach {A B} (f : nat -> A -> B -> M B) (l : list A) :
  (forall idx x acc, x ∈ l -> returns (f idx x acc)) ->
  forall idx acc, returns (forEach f idx l acc).
Proof.
  induction l as [|x l IH]; intros Hf idx acc; cbn [forEach].
  - apply returns_ret.
  - apply returns_bind; [apply Hf; left |].
    intros acc'. apply IH. intros idx' y acc'' Hy. apply Hf. now right.
Qed.

Lemma returns_mapM {A B} (f : A -> M B) (l : list A) :
  (forall x, x ∈ l -> returns (f x)) -> returns (mapM f l).
Proof.
  induction l as [|x l IH]; intros Hf; cbn [mapM].
  - apply returns_ret.
  - apply returns_bind; [apply Hf; left | intros y].
    apply returns_bind; [apply IH; intros z Hz; apply Hf; now right |].
    intros ys. apply returns_ret.
Qed.

Lemma returns_setter (f : Renderer -> Renderer) :
  returns (fun r => Ok tt (f r)).
Proof. intros r. now exists tt, (f r). Qed.

Lemma returns_getter {A} (f : Renderer -> A) : returns (fun r => Ok (f r) r).
Proof. intros r. now exists (f r), r. Qed.

Ltac returns_step :=
  match goal with
  | |- returns (bind _ _) => apply returns_bind; [|intros]
  | |- returns (ret _) => apply returns_ret
  | |- returns (setIndent _) => apply returns_setter
  | |- returns (setCurrentBlock _) => apply returns_setter
  | |- returns (setNextBlock _) => apply returns_setter
  | |- returns (setTitle _) => apply returns_setter
  | |- returns (setFileTokens _) => apply returns_setter
  | |- returns getCurrentBlock => apply (returns_getter currentBlock)
  | |- returns getNextBlock => apply (returns_getter nextBlock)
  | |- returns getIndent => apply (returns_getter indent)
  | |- returns getFileTokens => apply (returns_getter _fileTokens)
  | |- returns (match ?x with _ => _ end) => destruct x
  | |- returns (let '(_, _) := ?x in _) => destruct x
  end.

Lemma returns_addFileToken (kind : FileKind) (tok : string) : returns (addFileToken kind tok).
Proof. unfold addFileToken. repeat returns_step. Qed.

Lemma returns_parseTextRun (buf : Buffer.t) (run : TextRun) :
  runDecodes run = true -> returns (parseTextRun buf run).
Proof.
  intros Hd. unfold parseTextRun. apply returns_bind.
  - unfold styleWrappers, runDecodes in *.
    destruct (text_element_style run) as [st|]; [|apply returns_ret].
    destruct (bold st); [apply returns_ret |].
    destruct (italic st); [apply returns_ret |].
    destruct (strikethrough st); [apply returns_ret |].
    destruct (underline st); [apply returns_ret |].
    destruct (inline_code st); [apply returns_ret |].
    cbn [orb] in Hd. destruct (link st) as [l|]; [|apply returns_ret].
    apply bool_decide_eq_true in Hd as [u ->]. apply returns_ret.
  - intros [[pre post] esc]. repeat returns_step.
Qed.

Lemma returns_parseTextElement (buf : Buffer.t) (el : TextElement) (inline : bool) :
  elementDecodes el = true -> returns (parseTextElement buf el inline).
Proof.
  unfold elementDecodes, parseTextElement. intros Hd.
  destruct (text_run el) as [run|]; [now apply returns_parseTextRun |].
  destruct (equation el); [apply returns_ret |].
  destruct (mention_doc el) as [m|]; [|apply returns_ret].
  apply bool_decide_eq_true in Hd as [u ->]. apply returns_ret.
Qed.

Lemma returns_parseTextElements (buf : Buffer.t) (els : list TextElement) :
  forallb elementDecodes els = true -> returns (parseTextElements buf els).
Proof.
  intros Hd. unfold parseTextElements. apply returns_forEach.
  intros idx el acc Hel. apply returns_parseTextElement.
  rewrite forallb_forall in Hd. apply Hd. now apply list_elem_of_In.
Qed.

(** The cell loop, with all cells in the block map and a positive number
    of columns: the rows grow with the cells. *)
Lemma pushCell_ready (rows : list (list string)) (idx : nat) (cs : Z) (cell : string) :
  0 < cs ->
  Z.of_nat (List.length rows) = (if (idx =? O)%nat then 1 else (Z.of_nat idx - 1) / cs + 1) ->
  exists rows',
    pushCell rows idx cs cell = Some rows'
    /\ Z.of_nat (List.length rows') = Z.of_nat idx / cs + 1.
Proof.
  intros Hcs Hlen. unfold pushCell.
  destruct (Z.eqb_spec cs 0) as [->|_]; [lia |].
  set (row := Z.of_nat idx / cs).
  assert (Hrow0 : 0 <= row) by (apply Z.div_pos; lia).
  assert (Hrow : Z.of_nat (List.length rows) = row \/ Z.of_nat (List.length rows) = row + 1).
  { destruct idx as [|idx]; cbn [Nat.eqb] in Hlen.
    - right. unfold row. simpl. rewrite Z.div_0_l by lia. lia.
    - rewrite Hlen. unfold row.
      replace (Z.of_nat (S idx) - 1) with (Z.of_nat idx) by lia.
      replace (Z.of_nat (S idx)) with (Z.of_nat idx + 1) by lia.
      pose proof (Z.div_le_mono (Z.of_nat idx) (Z.of_nat idx + 1) cs Hcs ltac:(lia)).
      pose proof (Z.div_le_mono (Z.of_nat idx + 1) (Z.of_nat idx + cs) cs Hcs ltac:(lia)).
      replace (Z.of_nat idx + cs) with (Z.of_nat idx + 1 * cs) in * by lia.
      rewrite Z.div_add in * by lia. lia. }
  destruct (Z.ltb_spec row 0); [lia |].
  destruct (Z.ltb_spec (Z.of_nat (List.length rows)) (row + 1)) as [Hlt|Hge].
  - assert (Hl : List.length rows = Z.to_nat row) by lia.
    rewrite lookup_app_r by lia. rewrite Hl, Nat.sub_diag. cbn [lookup list_lookup].
    eexists. split; [reflexivity |].
    rewrite length_insert, length_app. simpl. lia.
  - destruct (lookup_lt_is_Some_2 rows (Z.to_nat row) ltac:(lia)) as [rw Hrw].
    rewrite Hrw. eexists. split; [reflexivity |]. rewrite length_insert. lia.
Qed.

Lemma blockDecodes_iframe (b : Block) (f : IframeBlock) :
  blockDecodes b = true -> iframe b = Some f ->
  is_Some (Js.decodeURIComponent (iframe_url f)).
Proof.
  unfold blockDecodes. intros H Hf. rewrite Hf in H.
  apply andb_true_iff in H as [_ H]. now apply bool_decide_eq_true in H.
Qed.

(** Every textual payload of a block that decodes, decodes. *)
Lemma blockDecodes_text (b : Block) :
  blockDecodes b = true ->
  forall tb,
    tb ∈ [page b; text b; heading1 b; heading2 b; heading3 b; heading4 b; heading5 b;
          heading6 b; heading7 b; heading8 b; heading9 b; bullet b; ordered b; code b;
          quote b; todo b] ->
    textDecodes tb = true.
Proof.
  unfold blockDecodes. intros H tb Htb.
  repeat (apply andb_true_iff in H as [H ?]).
  repeat (apply elem_of_cons in Htb as [->|Htb]; [assumption |]).
  now apply elem_of_nil in Htb.
Qed.

Section Returning.
Variables (marked_parse getEmojiChar : string -> string) (JSON_stringify : Block -> string).
Variable bm : gmap string Block.
Variable rank : Block -> nat.
Hypothesis Hall : forall id b, bm !! id = Some b -> sound bm rank b.

Section Body.
Variable n0 : nat.
Variable rec : Block -> nat -> M string.
Hypothesis Hrec :
  forall b ind, sound bm rank b -> (rank b < n0)%nat -> returns (rec b ind).

Lemma returns_child (b cb : Block) (c : string) (ind : nat) :
  sound bm rank b -> (rank b <= n0)%nat ->
  c ∈ subIds b -> bm !! c = Some cb -> returns (rec cb ind).
Proof.
  intros (_ & _ & Hrank) Hn Hc Hcb. apply Hrec; [eapply Hall, Hcb |].
  specialize (Hrank c cb Hc Hcb). lia.
Qed.

Lemma child_in_subIds (b : Block) (c : string) : c ∈ children b -> c ∈ subIds b.
Proof. intros H. unfold subIds. apply elem_of_app. now left. Qed.

Lemma returns_eachChild (step : Block -> Buffer.t -> M Buffer.t) (ids : list string) :
  (forall c child buf, c ∈ ids -> bm !! c = Some child -> returns (step child buf)) ->
  forall buf, returns (eachChild bm step ids buf).
Proof.
  induction ids as [|c ids IH]; intros Hstep buf; cbn [eachChild].
  - apply returns_ret.
  - apply returns_bind.
    + destruct (bm !! c) as [child|] eqn:Hc; [|apply returns_ret].
      eapply Hstep; [left | exact Hc].
    + intros buf'. apply IH. intros c' child buf'' Hc'. apply Hstep. now right.
Qed.

Lemma returns_parseTextBlock (block : Block) (tb : option TextBlock) :
  sound bm rank block -> (rank block <= n0)%nat -> textDecodes tb = true ->
  returns (parseTextBlock bm rec block tb).
Proof.
  intros Hs Hn Hd. unfold parseTextBlock. destruct tb as [tb|]; [|apply returns_ret].
  apply returns_bind; [now apply returns_parseTextElements | intros buf].
  apply returns_bind; [|intros; apply returns_ret].
  destruct (bool_decide _); [|apply returns_ret].
  apply returns_eachChild. intros c child buf' Hc Hchild.
  repeat returns_step. eapply returns_child; eauto using child_in_subIds.
Qed.

Lemma returns_pageChildren (block : Block) (ids : list string) :
  sound bm rank block -> (rank block <= n0)%nat -> ids ⊆ children block ->
  forall idx buf, returns (pageChildren bm rec block idx ids buf).
Proof.
  intros Hs Hn. induction ids as [|c ids IH]; intros Hsub idx buf; cbn [pageChildren].
  - apply returns_ret.
  - apply returns_bind.
    + destruct (bm !! c) as [child|] eqn:Hc; [|apply returns_ret].
      apply returns_bind; [apply returns_setter | intros].
      apply returns_bind; [|intros s; destruct (bool_decide _); apply returns_ret].
      eapply returns_child; eauto. apply child_in_subIds, Hsub. left.
    + intros buf'. apply IH. intros x Hx. apply Hsub. now right.
Qed.

Lemma returns_parsePageBlock (block : Block) :
  sound bm rank block -> (rank block <= n0)%nat ->
  returns (parsePageBlock bm rec block).
Proof.
  intros Hs Hn. unfold parsePageBlock.
  assert (Hd : textDecodes (page block) = true).
  { apply (blockDecodes_text block); [apply Hs | left]. }
  apply returns_bind.
  { destruct (page block) as [pg|]; [|apply returns_ret].
    destruct (elements pg) as [|el els] eqn:He; [apply returns_ret |].
    apply returns_bind; [|intros; apply returns_setter].
    apply returns_parseTextElements. cbn [textDecodes] in Hd. now rewrite He in Hd. }
  intros _. apply returns_bind; [now apply returns_parseTextBlock | intros s].
  apply returns_bind; [now apply returns_pageChildren | intros; apply returns_ret].
Qed.

Lemma returns_parseSubList (block : Block) (ind : nat) (buf : Buffer.t) :
  sound bm rank block -> (rank block <= n0)%nat ->
  returns (parseSubList bm rec block ind buf).
Proof.
  intros Hs Hn. unfold parseSubList. apply returns_eachChild.
  intros c child buf' Hc Hchild. repeat returns_step.
  eapply returns_child; eauto using child_in_subIds.
Qed.

Lemma returns_parseOrderedBlock (block : Block) (ind : nat) :
  sound bm rank block -> (rank block <= n0)%nat ->
  returns (parseOrderedBlock bm rec block ind).
Proof.
  intros Hs Hn. unfold parseOrderedBlock.
  apply returns_bind; [|intros itemText].
  { apply returns_parseTextBlock; auto.
    apply (blockDecodes_text block); [apply Hs | do 12 right; left]. }
  apply returns_bind; [apply (returns_getter nextBlock) | intros next].
  apply returns_bind; [now apply returns_parseSubList | intros; apply returns_ret].
Qed.

Lemma returns_parseChildren (pre : option string) (block : Block) :
  sound bm rank block -> (rank block <= n0)%nat ->
  returns (parseChildren bm rec pre block).
Proof.
  intros Hs Hn. unfold parseChildren.
  apply returns_bind; [|intros; apply returns_ret].
  apply returns_eachChild. intros c child buf' Hc Hchild.
  apply returns_bind; [|intros; apply returns_ret].
  eapply returns_child; eauto using child_in_subIds.
Qed.

Lemma returns_parseInner (block : Block) :
  sound bm rank block -> (rank block <= n0)%nat ->
  returns (parseInner bm rec block).
Proof.
  intros Hs Hn. unfold parseInner, innerParts.
  apply returns_bind; [|intros; apply returns_ret].
  apply returns_mapM. intros c Hc.
  destruct (bm !! c) as [child|] eqn:Hchild; [|apply returns_ret].
  eapply returns_child; eauto using child_in_subIds.
Qed.

Lemma returns_parseGridColumn (block : Block) :
  sound bm rank block -> (rank block <= n0)%nat ->
  returns (parseGridColumn marked_parse bm rec block).
Proof.
  intros Hs Hn. unfold parseGridColumn.
  apply returns_bind; [now apply returns_parseInner | intros; apply returns_ret].
Qed.

Lemma returns_parseGrid (block : Block) :
  sound bm rank block -> (rank block <= n0)%nat ->
  returns (parseGrid marked_parse bm rec block).
Proof.
  intros Hs Hn. unfold parseGrid.
  apply returns_bind; [|intros; apply returns_ret].
  apply returns_eachChild. intros c child buf' Hc Hchild.
  apply returns_bind; [|intros; apply returns_ret].
  apply returns_parseGridColumn; [eapply Hall, Hchild |].
  destruct Hs as (_ & _ & Hrank).
  specialize (Hrank c child (child_in_subIds _ _ Hc) Hchild). lia.
Qed.

Lemma returns_cellLoop (finish : string -> string) (block : Block) (t : TableBlock)
    (l : list string) :
  sound bm rank block -> (rank block <= n0)%nat ->
  0 < column_size (property t) ->
  forall idx rows,
    (forall c, c ∈ l -> c ∈ subIds block) ->
    (forall c, c ∈ l -> is_Some (bm !! c)) ->
    Z.of_nat (List.length rows)
    = (if (idx =? O)%nat then 1 else (Z.of_nat idx - 1) / column_size (property t) + 1) ->
    returns (forEach (collectCell bm rec finish t) idx l rows).
Proof.
  intros Hs Hn Hcs.
  induction l as [|c l IH]; intros idx rows Hsub Hcells Hinv r; cbn [forEach].
  - now exists rows, r.
  - destruct (Hcells c ltac:(left)) as [cb Hcb].
    destruct (returns_child block cb c O Hs Hn (Hsub c ltac:(left)) Hcb r)
      as (cellText & r1 & Hcell).
    destruct (pushCell_ready rows idx (column_size (property t)) (finish cellText) Hcs Hinv)
      as (rows' & Hpush & Hlen').
    unfold bind at 1. unfold collectCell at 1. rewrite Hcb.
    unfold bind at 1. rewrite Hcell, Hpush. unfold ret at 1.
    apply IH.
    + intros c' Hc'. apply Hsub. now right.
    + intros c' Hc'. apply Hcells. now right.
    + cbn [Nat.eqb]. rewrite Hlen'. f_equal. f_equal. lia.
Qed.

Lemma returns_parseCells (finish : string -> string) (block : Block) (t : TableBlock) :
  sound bm rank block -> (rank block <= n0)%nat -> table block = Some t ->
  returns (parseCells bm rec finish t).
Proof.
  intros Hs Hn Ht. pose proof Hs as (_ & Hready & _).
  unfold tableReady in Hready. rewrite Ht in Hready.
  apply andb_true_iff in Hready as [Hcs Hcells]. apply Z.ltb_lt in Hcs.
  rewrite forallb_forall in Hcells. unfold parseCells.
  apply (returns_cellLoop finish block t); auto.
  - intros c Hc. unfold subIds. rewrite Ht. apply elem_of_app. now right.
  - intros c Hc. apply list_elem_of_In in Hc. apply Hcells in Hc.
    now apply bool_decide_eq_true in Hc.
Qed.

Lemma returns_parseTable (block : Block) :
  sound bm rank block -> (rank block <= n0)%nat ->
  returns (parseTable marked_parse bm rec (table block)).
Proof.
  intros Hs Hn. unfold parseTable, parseTableAsHTML.
  destruct (table block) as [t|] eqn:Ht; [|apply returns_ret].
  destruct (isComplexTable t);
    (apply returns_bind; [eapply returns_parseCells; eauto | intros; apply returns_ret]).
Qed.

Lemma returns_parseIframe (block : Block) :
  sound bm rank block -> returns (parseIframe block).
Proof.
  intros Hs. unfold parseIframe. destruct (iframe block) as [f|] eqn:Hf; [|apply returns_ret].
  destruct (blockDecodes_iframe block f (proj1 Hs) Hf) as [u Hu].
  destruct (iframe_url f); [apply returns_ret |]. rewrite Hu. apply returns_ret.
Qed.

Lemma returns_parseFile (block : Block) : returns (parseFile block).
Proof.
  unfold parseFile. destruct (file block); repeat returns_step. apply returns_addFileToken.
Qed.

Lemma returns_parseImage (image : option ImageBlock) : returns (parseImage image).
Proof.
  unfold parseImage. destruct image; repeat returns_step. apply returns_addFileToken.
Qed.

Lemma returns_parseBoard (board : option ImageBlock) : returns (parseBoard board).
Proof.
  unfold parseBoard. destruct board; repeat returns_step. apply returns_addFileToken.
Qed.

Lemma returns_parseUnsupport (block : Block) : returns (parseUnsupport JSON_stringify block).
Proof. unfold parseUnsupport. cbn. apply returns_ret. Qed.

Ltac solve_mem := first [ left | right; solve_mem ].

Lemma returns_parseBlockBody (block : Block) (ind : nat) :
  sound bm rank block -> (rank block <= n0)%nat ->
  returns (parseBlockBody marked_parse getEmojiChar JSON_stringify bm rec block ind).
Proof.
  intros Hs Hn. pose proof (blockDecodes_text block (proj1 Hs)) as Hd.
  assert (Htext : forall tb,
             tb ∈ [page block; text block; heading1 block; heading2 block; heading3 block;
                   heading4 block; heading5 block; heading6 block; heading7 block;
                   heading8 block; heading9 block; bullet block; ordered block; code block;
                   quote block; todo block] ->
             returns (parseTextBlock bm rec block tb)).
  { intros tb Htb. apply returns_parseTextBlock; auto. }
  unfold parseBlockBody.
  apply returns_bind; [apply returns_setter | intros _].
  apply returns_bind; [apply returns_setter | intros _].
  apply returns_bind; [|intros; apply returns_ret].
  destruct (block_type block);
    unfold parseHeading, parseBulletBlock, parseOrderedBlock, parseCallout,
      parseTableCell, parseView, parseSyncedBlock, parseQuoteContainer;
    repeat first
      [ apply Htext; solve_mem
      | apply (returns_getter nextBlock)
      | now apply returns_parsePageBlock
      | now apply returns_parseSubList
      | now apply returns_parseInner
      | now apply returns_parseGrid
      | now apply returns_parseTable
      | now apply returns_parseChildren
      | now apply returns_parseIframe
      | apply returns_parseFile
      | apply returns_parseImage
      | apply returns_parseBoard
      | apply returns_parseUnsupport
      | apply returns_ret
      | apply returns_bind; [|intros] ].
Qed.

End Body.

Lemma returns_parseBlock (fuel : nat) :
  forall block ind,
    sound bm rank block -> (rank block < fuel)%nat ->
    returns (parseBlock marked_parse getEmojiChar JSON_stringify bm fuel block ind).
Proof.
  induction fuel as [|fuel IH]; intros block ind Hs Hn; [lia |].
  cbn [parseBlock]. apply (returns_parseBlockBody fuel); [exact IH | exact Hs | lia].
Qed.

End Returning.

Lemma buildBlockMap_elem (blocks : list Block) (id : string) (b : Block) :
  buildBlockMap blocks !! id = Some b -> b ∈ blocks.
Proof.
  unfold buildBlockMap.
  assert (H : forall (m : gmap string Block),
             foldl (fun m block => <[block_id block := block]> m) m blocks !! id = Some b ->
             b ∈ blocks \/ m !! id = Some b).
  { induction blocks as [|x blocks IH]; intros m Hm; cbn [foldl] in Hm.
    - now right.
    - destruct (IH _ Hm) as [Hin|Hx]; [left; now right |].
      destruct (decide (block_id x = id)) as [<-|Hne].
      + rewrite lookup_insert_eq in Hx. injection Hx as ->. left. left.
      + rewrite lookup_insert_ne in Hx by assumption. now right. }
  intros Hb. destruct (H ∅ Hb) as [Hin|He]; [exact Hin |].
  rewrite lookup_empty in He. discriminate.
Qed.

(** On a well-formed block list with a page, [parse] returns once the
    fuel exceeds the rank of the root. *)
Lemma parse_returns (marked_parse getEmojiChar : string -> string)
    (JSON_stringify : Block -> string) (blocks : list Block) (rank : Block -> nat)
    (root : Block) (fuel : nat) (this : Renderer) :
  wellFormed blocks rank -> findRoot blocks = Some root -> (rank root < fuel)%nat ->
  exists md r', parse marked_parse getEmojiChar JSON_stringify fuel blocks this = Ok md r'.
Proof.
  intros Hwf Hroot Hfuel. unfold parse. rewrite Hroot.
  apply find_some in Hroot as [Hin _]. apply list_elem_of_In in Hin.
  match goal with
  | |- context [parseBlock _ _ _ ?bm fuel root O ?r] =>
      destruct (returns_parseBlock marked_parse getEmojiChar JSON_stringify bm rank
                  (fun id b Hb => Hwf b (buildBlockMap_elem blocks id b Hb))
                  fuel root O (Hwf root Hin) Hfuel r) as (s & r' & ->)
  end.
  now eexists _, _.
Qed.

(* ===================================================================== *)
(** * Token substitution *)
(* ===================================================================== *)

(** C9: with an empty token-to-path map, [replaceFileTokens] returns the
    Markdown text it was given, unchanged. *)
Theorem replaceFileTokens_empty_map (markdown : string) :
  replaceFileTokens markdown [] = markdown.
Proof. reflexivity. Qed.

(* ===================================================================== *)
(** * Ordered-list numbering *)
(* ===================================================================== *)

Lemma countOrderedBefore_run (bm : gmap string Block) (before : list string) (order : nat) :
  countOrderedBefore bm before order = (order + orderedRun bm before)%nat.
Proof.
  revert order. induction before as [|id before IH]; intros order; simpl.
  - lia.
  - unfold isOrderedItem. destruct (bm !! id) as [b|]; [|lia].
    destruct (bool_decide (block_type b = Ordered)); [|lia].
    rewrite IH. lia.
Qed.

Lemma orderAmong_first (bm : gmap string Block) (id : string) (passed l1 l2 : list string) :
  id ∉ l1 ->
  orderAmong bm id passed (l1 ++ id :: l2) = countOrderedBefore bm (reverse l1 ++ passed) 1.
Proof.
  revert passed. induction l1 as [|c l1 IH]; intros passed Hnot; simpl.
  - now rewrite String.eqb_refl.
  - apply not_elem_of_cons in Hnot as [Hne Hnot].
    destruct (String.eqb_spec c id) as [->|_]; [congruence |].
    rewrite IH by assumption.
    now rewrite reverse_cons, <- app_assoc.
Qed.

Lemma orderOf_position (bm : gmap string Block) (block parent : Block) (i : nat) :
  bm !! parent_id block = Some parent ->
  children parent !! i = Some (block_id block) ->
  block_id block ∉ take i (children parent) ->
  orderOf bm block = S (precedingOrdered bm (children parent) i).
Proof.
  intros Hp Hi Hfirst. unfold orderOf, precedingOrdered. rewrite Hp.
  rewrite <- (take_drop_middle _ _ _ Hi) at 1.
  rewrite orderAmong_first by assumption.
  now rewrite app_nil_r, countOrderedBefore_run.
Qed.

(** [n] ordered items at the front, then the end or another kind of
    block. *)
Lemma orderedRun_exact (bm : gmap string Block) (l : list string) (n : nat) :
  (forall j, (j < n)%nat -> exists id, l !! j = Some id /\ isOrderedItem bm id = true) ->
  (forall id, l !! n = Some id -> isOrderedItem bm id = false) ->
  orderedRun bm l = n.
Proof.
  revert l. induction n as [|n IH]; intros l Hrun Hstop.
  - destruct l as [|id l]; [reflexivity |]. simpl.
    now rewrite (Hstop id eq_refl).
  - destruct l as [|id l].
    + destruct (Hrun O ltac:(lia)) as (? & ? & _). discriminate.
    + simpl. destruct (Hrun O ltac:(lia)) as (id' & Hid & Hord).
      simpl in Hid. injection Hid as <-. rewrite Hord. f_equal.
      apply IH.
      * intros j Hj. apply (Hrun (S j)). lia.
      * intros id' Hid'. now apply (Hstop id').
Qed.

Lemma orderOf_same_shape (bm bm' : gmap string Block) (block block' : Block) :
  block_id block' = block_id block ->
  parent_id block' = parent_id block ->
  (forall id, block_type <$> bm' !! id = block_type <$> bm !! id) ->
  children <$> bm' !! parent_id block = children <$> bm !! parent_id block ->
  orderOf bm' block' = orderOf bm block.
Proof.
  intros Hid Hpid Hty Hch. unfold orderOf. rewrite Hid, Hpid.
  assert (Hcount : forall before order,
             countOrderedBefore bm' before order = countOrderedBefore bm before order).
  { induction before as [|c before IH]; intros order; simpl; [reflexivity |].
    specialize (Hty c).
    destruct (bm' !! c) as [b'|], (bm !! c) as [b|]; simpl in Hty; try discriminate.
    - injection Hty as ->. destruct (bool_decide _); [apply IH | reflexivity].
    - reflexivity. }
  assert (Hamong : forall id rest passed,
             orderAmong bm' id passed rest = orderAmong bm id passed rest).
  { intros id rest. induction rest as [|c rest IH]; intros passed; simpl; [reflexivity |].
    destruct (String.eqb c id); [apply Hcount | apply IH]. }
  destruct (bm' !! parent_id block) as [p'|], (bm !! parent_id block) as [p|];
    simpl in Hch; try discriminate; [|reflexivity].
  injection Hch as ->. apply Hamong.
Qed.

(** C1: for an ordered-list item whose parent is in the block map and
    whose id first occurs at position [i] of the parent's children, the
    ordinal is one plus the number of consecutive ordered-list items
    immediately before position [i]; [parseOrderedBlock] writes that
    ordinal first, and does return, on a document of sound blocks, once
    the fuel is at least the rank of the item; after [n] ordered siblings
    that follow the start of the list or a block of another kind the
    ordinal is [n + 1], so a run is numbered 1, 2, ..., and numbering
    restarts at 1 after an interruption; and the ordinal is a function of
    the ids, the child sequences and the block types alone. *)
Theorem ordered_item_ordinal (bm : gmap string Block) (block parent : Block) (i : nat) :
  bm !! parent_id block = Some parent ->
  children parent !! i = Some (block_id block) ->
  block_id block ∉ take i (children parent) ->
  orderOf bm block = S (precedingOrdered bm (children parent) i)
  /\ (forall rec ind r out r',
         parseOrderedBlock bm rec block ind r = Ok out r' ->
         String.prefix (Js.ofNat (orderOf bm block) +:+ ". ") out = true)
  /\ (forall marked_parse getEmojiChar JSON_stringify rank fuel ind r,
         (forall id b, bm !! id = Some b -> sound bm rank b) ->
         sound bm rank block -> (rank block <= fuel)%nat ->
         exists rest r',
           parseOrderedBlock bm (parseBlock marked_parse getEmojiChar JSON_stringify bm fuel)
             block ind r
           = Ok (Js.ofNat (orderOf bm block) +:+ ". " +:+ rest) r')
  /\ (forall n, (n <= i)%nat ->
         (forall j, (i - n <= j < i)%nat ->
                    exists id, children parent !! j = Some id /\ isOrderedItem bm id = true) ->
         (forall id, (n < i)%nat -> children parent !! (i - S n)%nat = Some id ->
                     isOrderedItem bm id = false) ->
         orderOf bm block = S n)
  /\ (forall bm' block',
         block_id block' = block_id block ->
         parent_id block' = parent_id block ->
         (forall id, block_type <$> bm' !! id = block_type <$> bm !! id) ->
         children <$> bm' !! parent_id block = children <$> bm !! parent_id block ->
         orderOf bm' block' = orderOf bm block).
Proof.
  intros Hp Hi Hfirst.
  pose proof (orderOf_position bm block parent i Hp Hi Hfirst) as Hord.
  assert (Hlen : (i < List.length (children parent))%nat)
    by (eapply lookup_lt_Some; eassumption).
  repeat split.
  - exact Hord.
  - intros rec ind r out r' H. unfold parseOrderedBlock in H.
    apply bind_Ok in H as (itemText & r1 & _ & H).
    apply bind_Ok in H as (next & r2 & _ & H).
    apply bind_Ok in H as (buf & r3 & Hsub & H).
    apply ret_Ok in H as [<- _].
    apply parseSubList_extends in Hsub as [s Hs].
    rewrite Hs, !toString_write, toString_new, app_nil_l_s.
    rewrite (app_assoc_s (Js.ofNat (orderOf bm block) +:+ ". ")).
    apply prefix_app.
  - intros marked_parse getEmojiChar JSON_stringify rank fuel ind r Hall Hs Hfuel.
    destruct (returns_parseOrderedBlock bm rank Hall fuel _
                (returns_parseBlock marked_parse getEmojiChar JSON_stringify bm rank Hall fuel)
                block ind Hs Hfuel r) as (out & r' & Hout).
    rewrite Hout. pose proof Hout as Hpre. unfold parseOrderedBlock in Hpre.
    apply bind_Ok in Hpre as (itemText & r1 & _ & Hpre).
    apply bind_Ok in Hpre as (next & r2 & _ & Hpre).
    apply bind_Ok in Hpre as (buf & r3 & Hsub & Hpre).
    apply ret_Ok in Hpre as [<- _].
    apply parseSubList_extends in Hsub as [s Hs'].
    rewrite Hs', !toString_write, toString_new, app_nil_l_s.
    exists ((if compacts next block then trimLastNewline itemText else itemText) +:+ s), r'.
    now rewrite !app_assoc_s.
  - intros n Hn Hrun Hstop. rewrite Hord. f_equal. unfold precedingOrdered.
    assert (Htl : List.length (take i (children parent)) = i)
      by (rewrite length_take; lia).
    apply orderedRun_exact.
    + intros j Hj. rewrite reverse_lookup by lia. rewrite Htl.
      rewrite lookup_take_lt by lia. apply Hrun. lia.
    + intros id Hid. destruct (decide (n < i)%nat) as [Hlt|Hge].
      * rewrite reverse_lookup in Hid by lia. rewrite Htl in Hid.
        rewrite lookup_take_lt in Hid by lia. now apply (Hstop id).
      * apply lookup_lt_Some in Hid. rewrite length_reverse in Hid. lia.
  - intros bm' block'. apply orderOf_same_shape.
Qed.

(* ===================================================================== *)
(** * Adjacent runs of the same style *)
(* ===================================================================== *)

Lemma parseTextRun_symmetric (k : InlineStyle) (st : TextElementStyle) (run : TextRun)
    (buf : Buffer.t) (r : Renderer) :
  text_element_style run = Some st ->
  appliedStyle st = Some k ->
  k <> SUnderline ->
  (k <> SInlineCode -> endsInColon (shownText r k (content run)) = false) ->
  parseTextRun buf run r =
  Ok (let '(b, merged) := Buffer.trimLastIfEndsWith buf (delimiter k) in
      Buffer.write
        (Buffer.write (if merged then b else Buffer.write b (delimiter k))
                      (shownText r k (content run)))
        (delimiter k)) r.
Proof.
  intros Hst Hk Hu Hcolon. unfold parseTextRun. rewrite Hst.
  destruct st as [b i s u c bg tc l]. unfold appliedStyle in Hk. simpl in Hk.
  unfold styleWrappers, bind, ret, getCurrentBlock, colonWrappers, shownText in *.
  cbn [bold italic strikethrough underline inline_code].
  destruct b; [injection Hk as <-|]; [|destruct i; [injection Hk as <-|]; [|destruct s; [injection Hk as <-|]; [| destruct u; [injection Hk as <-|]; [|destruct c; [injection Hk as <-|discriminate]]]]].
  all: try congruence.
  all: cbn [andb negb delimiter] in *.
  all: try (specialize (Hcolon ltac:(discriminate)); destruct (isCode (currentBlock r)); cbn [negb]; rewrite Hcolon; destruct (Buffer.trimLastIfEndsWith _ _) as [? []]; reflexivity).
  destruct (endsInColon (content run)); destruct (Buffer.trimLastIfEndsWith _ _) as [? []]; reflexivity.
Qed.

Lemma delimiter_nonempty (k : InlineStyle) : delimiter k <> "".
Proof. destruct k; discriminate. Qed.

(** The wrappings whose closing delimiter is their opening delimiter:
    two adjacent text runs to which the same wrapping is applied, that
    wrapping being bold, italic or strikethrough with neither text ending
    in a colon, or inline code, are composed into one span, the delimiter
    once before the concatenated texts and once after them: the second
    run finds the buffer ending in its opening delimiter and removes it
    instead of writing one.  (The buffer before the runs is one that does
    not itself end in the delimiter.) *)
Theorem adjacent_runs_one_pair (k : InlineStyle) (st1 st2 : TextElementStyle)
    (el1 el2 : TextElement) (run1 run2 : TextRun) (buf : Buffer.t) (r : Renderer) :
  text_run el1 = Some run1 -> text_element_style run1 = Some st1 ->
  text_run el2 = Some run2 -> text_element_style run2 = Some st2 ->
  appliedStyle st1 = Some k -> appliedStyle st2 = Some k ->
  k <> SUnderline ->
  (k <> SInlineCode ->
   endsInColon (shownText r k (content run1)) = false
   /\ endsInColon (shownText r k (content run2)) = false) ->
  Js.endsWith (Buffer.toString buf) (delimiter k) = false ->
  exists buf',
    parseTextElements buf [el1; el2] r = Ok buf' r
    /\ Buffer.toString buf' =
       Buffer.toString buf +:+ delimiter k
       +:+ (shownText r k (content run1) +:+ shownText r k (content run2))
       +:+ delimiter k.
Proof.
  intros He1 Hs1 He2 Hs2 Hk1 Hk2 Hu Hcolon Hbuf.
  unfold parseTextElements. cbn [forEach]. unfold parseTextElement.
  rewrite He1, He2.
  rewrite (bind_Ok_intro _ _ _ _ _
             (parseTextRun_symmetric k st1 run1 buf r Hs1 Hk1 Hu
                (fun Hc => proj1 (Hcolon Hc)))).
  rewrite (trimLast_miss _ _ Hbuf).
  set (buf1 := Buffer.write (Buffer.write (Buffer.write buf (delimiter k)) _) _).
  rewrite (bind_Ok_intro _ _ _ _ _
             (parseTextRun_symmetric k st2 run2 buf1 r Hs2 Hk2 Hu
                (fun Hc => proj2 (Hcolon Hc)))).
  destruct (trimLast_hit buf1
              (Buffer.toString buf +:+ delimiter k +:+ shownText r k (content run1))
              (delimiter k) (delimiter_nonempty k)) as (b' & -> & Hb').
  { unfold buf1. rewrite !toString_write. now rewrite !app_assoc_s. }
  eexists. split; [reflexivity |].
  rewrite !toString_write, Hb'. now rewrite !app_assoc_s.
Qed.

(** C2: the renderer at two adjacent underline runs.  The merge of runs
    of the same style looks for the opening wrapper of the second run at
    the end of the buffer; the closing tag of the first underline run is
    not the opening tag of the second, nothing is removed, and the two
    runs are composed as two spans, where two bold runs are composed as
    one. *)
Lemma underline_runs_stay_apart :
  composed [styledRun "a" false false false true false;
            styledRun "b" false false false true false] newRenderer
  = Some "<u>a</u><u>b</u>"
  /\ occurrences "<u>" "<u>a</u><u>b</u>" = 2%nat
  /\ occurrences "</u>" "<u>a</u><u>b</u>" = 2%nat.
Proof. repeat split; vm_compute; reflexivity. Qed.

(** The two provisos of the theorem are needed: an asterisk that ends
    the text before two italic runs is taken for their opening delimiter
    and removed, and a bold run that ends in a colon is wrapped in tags,
    which the next bold run does not find at the end of the buffer. *)
Lemma merge_provisos :
  composed [plainRun "2*";
            styledRun "a" false true false false false;
            styledRun "b" false true false false false] newRenderer
  = Some "2ab*"
  /\ composed [styledRun "a:" true false false false false;
               styledRun "b" true false false false false] newRenderer
     = Some "<b>a:</b>**b**".
Proof. split; vm_compute; reflexivity. Qed.

(** The same test at the end of the buffer takes the last asterisk of a
    bold span for the opening delimiter of an italic run that follows
    it. *)
Lemma italic_run_after_bold_runs :
  composed [styledRun "a" true false false false false;
            styledRun "b" true false false false false;
            styledRun "c" false true false false false] newRenderer
  = Some "**ab*c*".
Proof. vm_compute. reflexivity. Qed.

(** Two bold runs, composed from an empty buffer. *)
Lemma bold_runs_merge_witness :
  exists buf',
    parseTextElements Buffer.new
      [styledRun "a" true false false false false;
       styledRun "b" true false false false false] newRenderer = Ok buf' newRenderer
    /\ Buffer.toString buf' = "**ab**".
Proof.
  destruct (adjacent_runs_one_pair SBold _ _
              (styledRun "a" true false false false false)
              (styledRun "b" true false false false false) _ _
              Buffer.new newRenderer
              eq_refl eq_refl eq_refl eq_refl eq_refl eq_refl) as (buf' & H1 & H2).
  - discriminate.
  - intros _. split; reflexivity.
  - reflexivity.
  - exists buf'. split; [exact H1 | exact H2].
Defined.

(* ===================================================================== *)
(** * Headings *)
(* ===================================================================== *)

Section Headings.
Variables (marked_parse getEmojiChar : string -> string) (JSON_stringify : Block -> string).
Variable bm : gmap string Block.

Local Notation "'walk'" := (parseBlock marked_parse getEmojiChar JSON_stringify bm).

Lemma hashes_nonempty (level : nat) (s : string) :
  (1 <= level)%nat -> (0 < String.length (Js.repeat "#" level +:+ s))%nat.
Proof.
  intros H. destruct level as [|l]; [lia |]. cbn [Js.repeat].
  rewrite !app_assoc_s, app_cons_s. simpl. lia.
Qed.

(** C7, as amended: a heading block of level 1 to 9 rendered at depth
    [depth] gives three spaces per level of depth, then exactly as many
    [#] characters as its level (7 to 9 of them for the levels 7 to 9),
    one space, and the heading's text block with leading white space
    removed.  At depth 0 the fragment begins with the [#] characters, and
    at a depth above 0 with three spaces.  A heading that is a child of
    the page is rendered at depth 0: its fragment, from the [#]
    characters on, and a line feed are added to the text of the page. *)
Theorem heading_fragment (n : nat) (block : Block) (depth level : nat)
    (r r' : Renderer) (s : string) :
  headingLevel (block_type block) = Some level ->
  parseTextBlock bm (walk n) block (headingContent block) (entered r block depth) = Ok s r' ->
  (1 <= level <= 9)%nat
  /\ walk (S n) block depth r
     = Ok (Js.repeat "   " depth +:+ Js.repeat "#" level +:+ " " +:+ Js.trimStart s) r'
  /\ (depth = O ->
      exists out, returned (walk (S n) block depth r) = Some out
                  /\ out = Js.repeat "#" level +:+ " " +:+ Js.trimStart s)
  /\ ((0 < depth)%nat ->
      exists out, returned (walk (S n) block depth r) = Some out
                  /\ String.prefix "   " out = true
                  /\ String.prefix "#" out = false)
  /\ (forall page idx c rest buf r0,
        depth = O -> r = withNext r0 (lookahead bm page idx) ->
        bm !! c = Some block ->
        exists buf',
          pageChildren bm (walk (S n)) page idx (c :: rest) buf r0
          = pageChildren bm (walk (S n)) page (S idx) rest buf' r'
          /\ Buffer.toString buf'
             = Buffer.toString buf +:+ Js.repeat "#" level +:+ " " +:+ Js.trimStart s
               +:+ Js.LF).
Proof.
  intros Hlevel Htext.
  assert (Hrun :
    walk (S n) block depth r
    = Ok (Js.repeat "   " depth +:+ Js.repeat "#" level +:+ " " +:+ Js.trimStart s) r').
  { cbn [parseBlock]. unfold parseBlockBody.
    unfold bind at 1. cbn [setIndent]. unfold bind at 1. cbn [setCurrentBlock].
    change {| currentBlock := Some block; nextBlock := _; indent := _;
              _fileTokens := _; _title := _ |} with (entered r block depth).
    unfold headingContent in Htext.
    destruct (block_type block); try discriminate Hlevel;
      injection Hlevel as <-;
      unfold parseHeading, bind, ret; rewrite Htext; f_equal;
      rewrite !toString_write, toString_writeIndent, toString_new, app_nil_l_s;
      rewrite !app_assoc_s; reflexivity. }
  assert (Hrange : (1 <= level <= 9)%nat).
  { destruct (block_type block); try discriminate Hlevel; injection Hlevel as <-; lia. }
  split; [exact Hrange |]. split; [exact Hrun |]. split; [|split].
  - intros ->. rewrite Hrun. eexists. split; reflexivity.
  - intros Hd. rewrite Hrun. eexists. split; [reflexivity |].
    destruct depth as [|d]; [lia |]. cbn [Js.repeat]. rewrite !app_assoc_s.
    split; [apply prefix_app | reflexivity].
  - intros page idx c rest buf r0 -> -> Hc. eexists. split.
    + cbn [pageChildren]. rewrite Hc.
      unfold bind at 1. unfold bind at 1. unfold setNextBlock at 1.
      change {| currentBlock := currentBlock r0; nextBlock := lookahead bm page idx;
                indent := indent r0; _fileTokens := _fileTokens r0; _title := _title r0 |}
        with (withNext r0 (lookahead bm page idx)).
      unfold bind at 1. rewrite Hrun.
      rewrite bool_decide_eq_true_2; [reflexivity |].
      cbn [Js.repeat]. rewrite app_nil_l_s. apply hashes_nonempty. lia.
    + rewrite !toString_write. cbn [Js.repeat]. rewrite app_nil_l_s.
      now rewrite !app_assoc_s.
Qed.
End Headings.

(** C7 as stated fails for a heading below a list item: it is rendered
    at depth 1 and its fragment begins with three spaces. *)
Lemma nested_heading_starts_with_spaces :
  let bm := buildBlockMap nestedHeadingDoc in
  let head := textualBlock "head" "item" Heading1 [] [plainRun "Nested"] in
  bm !! "head" = Some head
  /\ returned (parseBlock sampleMarked sampleEmoji sampleStringify bm 1 head 1 newRenderer)
     = Some ("   # Nested" +:+ Js.LF)
  /\ Js.startsWith ("   # Nested" +:+ Js.LF) "#" = false
  /\ returned (parse sampleMarked sampleEmoji sampleStringify 3 nestedHeadingDoc newRenderer)
     = Some ("# Notes" +:+ Js.LF +:+ Js.LF +:+ "- point" +:+ Js.LF
             +:+ "   # Nested" +:+ Js.LF).
Proof. repeat split; vm_compute; reflexivity. Qed.

(** A heading of level 7 at depth 0. *)
Lemma heading_fragment_witness :
  parseBlock sampleMarked sampleEmoji sampleStringify ∅ 1
    (textualBlock "h" "doc" Heading7 [] [plainRun "Deep"]) 0 newRenderer
  = Ok ("####### Deep" +:+ Js.LF)
       (entered newRenderer (textualBlock "h" "doc" Heading7 [] [plainRun "Deep"]) 0).
Proof.
  apply (heading_fragment sampleMarked sampleEmoji sampleStringify ∅ 0
           (textualBlock "h" "doc" Heading7 [] [plainRun "Deep"]) 0 7
           newRenderer _ ("Deep" +:+ Js.LF)).
  - reflexivity.
  - vm_compute. reflexivity.
Defined.

(* ===================================================================== *)
(** * Tables *)
(* ===================================================================== *)

Lemma foldl_write_each {A} (f : A -> string) (sep : string) (l : list A) (buf : Buffer.t) :
  Buffer.toString
    (foldl (fun buf x => Buffer.write (Buffer.write buf (f x)) sep) buf l)
  = Buffer.toString buf +:+ Js.concat ((fun x => f x +:+ sep) <$> l).
Proof.
  revert buf. induction l as [|x l IH]; intros buf; simpl.
  - now rewrite app_nil_r_s.
  - rewrite IH, !toString_write. now rewrite !app_assoc_s.
Qed.

Lemma foldl_write_const {A} (s : string) (l : list A) (buf : Buffer.t) :
  Buffer.toString (foldl (fun buf _ => Buffer.write buf s) buf l)
  = Buffer.toString buf +:+ Js.repeat s (List.length l).
Proof.
  revert buf. induction l as [|x l IH]; intros buf; simpl.
  - now rewrite app_nil_r_s.
  - rewrite IH, toString_write. now rewrite !app_assoc_s.
Qed.

Lemma foldl_write_rows (rows : list (list string)) (buf : Buffer.t) :
  Buffer.toString
    (foldl (fun buf row =>
              let buf := Buffer.write buf "|" in
              let buf := foldl (fun buf cell => Buffer.write (Buffer.write buf cell) "|") buf row in
              Buffer.write buf Js.LF)
           buf rows)
  = Buffer.toString buf +:+ Js.concat (pipeRow <$> rows).
Proof.
  revert buf. induction rows as [|row rows IH]; intros buf; simpl.
  - now rewrite app_nil_r_s.
  - rewrite IH, toString_write, (foldl_write_each (fun c => c)), toString_write.
    unfold pipeRow. now rewrite !app_assoc_s.
Qed.

(** The pipe table, line by line. *)
Lemma writeGfmTable_layout (table : TableBlock) (rows : list (list string)) :
  writeGfmTable table rows
  = let '(headRow, body) :=
      if header_row (property table) then shiftRow rows else ([], rows) in
    pipeRow ((fun i => cellOr headRow i " ") <$> columns (column_size (property table)))
    +:+ separatorRow (Z.to_nat (column_size (property table)))
    +:+ Js.concat (pipeRow <$> body).
Proof.
  unfold writeGfmTable.
  destruct (if header_row (property table) then shiftRow rows else ([], rows))
    as [headRow body].
  rewrite foldl_write_rows, toString_write, foldl_write_const, toString_write,
    toString_write, (foldl_write_each (fun i => cellOr headRow i " ")),
    toString_write, toString_new.
  unfold pipeRow, separatorRow, columns. rewrite length_seq.
  rewrite <- list_fmap_compose. now rewrite !app_assoc_s.
Qed.

Lemma isComplexTable_spec (table : TableBlock) :
  isComplexTable table = true <-> complexTable table.
Proof.
  unfold isComplexTable, complexTable.
  rewrite orb_true_iff, !existsb_exists, !Exists_exists.
  split; intros [(x & Hin & Hx)|(x & Hin & Hx)]; [left|right|left|right];
    exists x; (split; [now apply list_elem_of_In + now apply list_elem_of_In|]).
  - apply orb_true_iff in Hx as [H|H]; [left|right]; lia.
  - lia.
  - apply orb_true_iff. destruct Hx; [left|right]; lia.
  - lia.
Qed.

Lemma foldl_writeCell {A} (mi : list TableMergeInfo) (ci : list Z) (tag : string)
    (f : A -> string) (l : list A) (b : Buffer.t) (k : nat) :
  exists b',
    foldl (fun st x => writeCell mi ci st (f x) tag) (b, k) l = (b', (k + List.length l)%nat)
    /\ Buffer.toString b' = Buffer.toString b +:+ cellsMarkup mi ci tag k (f <$> l).
Proof.
  revert b k. induction l as [|x l IH]; intros b k.
  - exists b. simpl. rewrite app_nil_r_s, Nat.add_0_r. now split.
  - cbn [foldl]. unfold writeCell at 2.
    set (b1 := match ci !! k with Some 1 => _ | _ => b end).
    destruct (IH b1 (S k)) as (b' & Hf & Hs). exists b'. split.
    + rewrite Hf. f_equal. simpl. lia.
    + rewrite Hs. cbn [fmap list_fmap cellsMarkup]. rewrite <- app_assoc_s. f_equal.
      unfold b1, cellMarkup. destruct (ci !! k) as [[|[]|]|];
        rewrite ?toString_write, ?app_nil_r_s; try reflexivity.
Qed.

Lemma foldl_writeRows (mi : list TableMergeInfo) (ci : list Z)
    (rows : list (list string)) (b : Buffer.t) (k : nat) :
  Buffer.toString
    (foldl (fun '(buf, cellIdx) row =>
              let buf := Buffer.write buf "    <tr>" in
              let '(buf, cellIdx) :=
                foldl (fun st cell => writeCell mi ci st cell "td") (buf, cellIdx) row in
              (Buffer.writeln buf "</tr>", cellIdx))
           (b, k) rows).1
  = Buffer.toString b +:+ rowsMarkup mi ci k rows.
Proof.
  revert b k. induction rows as [|row rows IH]; intros b k.
  - simpl. now rewrite app_nil_r_s.
  - cbn [foldl].
    destruct (foldl_writeCell mi ci "td" (fun c => c) row (Buffer.write b "    <tr>") k)
      as (b' & -> & Hs).
    rewrite IH, toString_writeln, Hs, toString_write, list_fmap_id.
    cbn [rowsMarkup]. now rewrite !app_assoc_s.
Qed.

Lemma foldl_colgroup (widths : list Z) (l : list nat) (buf : Buffer.t) :
  Buffer.toString
    (foldl (fun buf i =>
              let widthAttr :=
                match widths !! i with
                | Some width =>
                    if width =? 0 then "" else " width=" +:+ Js.quoted (Js.ofZ width)
                | None => ""
                end in
              Buffer.writeln buf ("    <col" +:+ widthAttr +:+ " />"))
           buf l)
  = Buffer.toString buf +:+ Js.concat ((fun i => colLine (widths !! i)) <$> l).
Proof.
  revert buf. induction l as [|i l IH]; intros buf; simpl.
  - now rewrite app_nil_r_s.
  - rewrite IH, toString_writeln. rewrite !app_assoc_s. f_equal.
    unfold colLine. destruct (widths !! i) as [[| |]|]; simpl; now rewrite ?app_assoc_s.
Qed.

(** The HTML table, part by part. *)
Lemma writeHtmlTable_layout (table : TableBlock) (rows : list (list string)) :
  let prop := property table in
  let mi := merge_info prop in
  let ci := computeCellInfos mi (column_size prop) in
  writeHtmlTable table rows
  = htmlOpening table
    +:+ (if header_row prop then
           "  <thead>" +:+ Js.LF +:+ "    <tr>"
           +:+ cellsMarkup mi ci "th" 0
                 ((fun i => cellOr (shiftRow rows).1 i "") <$> columns (column_size prop))
           +:+ "</tr>" +:+ Js.LF +:+ "  </thead>" +:+ Js.LF
           +:+ "  <tbody>" +:+ Js.LF
           +:+ rowsMarkup mi ci (List.length (columns (column_size prop))) (shiftRow rows).2
         else
           "  <tbody>" +:+ Js.LF +:+ rowsMarkup mi ci 0 rows)
    +:+ "  </tbody>" +:+ Js.LF +:+ "</table>" +:+ Js.LF.
Proof.
  intros prop mi ci. unfold writeHtmlTable. fold prop. fold mi. fold ci.
  set (opening := foldl _ (Buffer.writeln (Buffer.writeln Buffer.new _) "  <colgroup>") _).
  assert (Hopen : Buffer.toString (Buffer.writeln opening "  </colgroup>") = htmlOpening table).
  { rewrite toString_writeln. unfold opening. rewrite foldl_colgroup, !toString_writeln.
    unfold htmlOpening. fold prop. rewrite toString_new.
    destruct (header_column prop), (header_row prop); cbn [app Js.join];
      rewrite ?app_assoc_s; reflexivity. }
  set (ob := Buffer.writeln opening "  </colgroup>") in *. clearbody ob. clear opening.
  destruct (header_row prop).
  - destruct (shiftRow rows) as [headRow body]. cbn [fst snd].
    destruct (foldl_writeCell mi ci "th" (fun i => cellOr headRow i "")
                (columns (column_size prop))
                (Buffer.write (Buffer.writeln ob "  <thead>") "    <tr>") 0) as (b' & -> & Hs).
    match goal with
    | |- context [foldl ?f (?b, ?k) body] =>
        pose proof (foldl_writeRows mi ci body b k) as Hrows;
        destruct (foldl f (b, k) body) as [bb kk]
    end.
    cbn [fst] in Hrows.
    rewrite !toString_writeln, Hrows, !toString_writeln, Hs, toString_write,
      toString_writeln, Hopen.
    cbn [Nat.add]. now rewrite !app_assoc_s.
  - match goal with
    | |- context [foldl ?f (?b, ?k) rows] =>
        pose proof (foldl_writeRows mi ci rows b k) as Hrows;
        destruct (foldl f (b, k) rows) as [bb kk]
    end.
    cbn [fst] in Hrows.
    rewrite !toString_writeln, Hrows, !toString_writeln, Hopen.
    now rewrite !app_assoc_s.
Qed.

Section Tables.

Variable marked_parse : string -> string.
Variable bm : gmap string Block.
Variable rec : Block -> nat -> M string.

(** The rows collected from four cells in two columns. *)
Lemma parseCells_2x2 (finish : string -> string) (table : TableBlock)
    (c0 c1 c2 c3 : string) (b0 b1 b2 b3 : Block) (t0 t1 t2 t3 : string)
    (r r1 r2 r3 r4 : Renderer) :
  cells table = [c0; c1; c2; c3] ->
  column_size (property table) = 2 ->
  bm !! c0 = Some b0 -> bm !! c1 = Some b1 -> bm !! c2 = Some b2 -> bm !! c3 = Some b3 ->
  rec b0 O r = Ok t0 r1 -> rec b1 O r1 = Ok t1 r2 ->
  rec b2 O r2 = Ok t2 r3 -> rec b3 O r3 = Ok t3 r4 ->
  parseCells bm rec finish table r
  = Ok [[finish t0; finish t1]; [finish t2; finish t3]] r4.
Proof.
  intros Hcells Hcols H0 H1 H2 H3 R0 R1 R2 R3.
  unfold parseCells. rewrite Hcells. cbn [forEach]. unfold collectCell.
  rewrite Hcols, H0, H1, H2, H3. unfold bind.
  rewrite R0. cbn [pushCell]. cbv beta iota. 
  change (pushCell [[]] 0 2 (finish t0)) with (Some [[finish t0]]). cbv beta iota. unfold ret at 1.
  rewrite R1.
  change (pushCell [[finish t0]] 1 2 (finish t1)) with (Some [[finish t0; finish t1]]).
  cbv beta iota. unfold ret at 1. rewrite R2.
  change (pushCell [[finish t0; finish t1]] 2 2 (finish t2))
    with (Some [[finish t0; finish t1]; [finish t2]]).
  cbv beta iota. unfold ret at 1. rewrite R3.
  change (pushCell [[finish t0; finish t1]; [finish t2]] 3 2 (finish t3))
    with (Some [[finish t0; finish t1]; [finish t2; finish t3]]).
  reflexivity.
Qed.



Lemma parseTable_html (table : TableBlock) (r r' : Renderer) (rows : list (list string)) :
  complexTable table ->
  parseCells bm rec (htmlCell marked_parse) table r = Ok rows r' ->
  parseTable marked_parse bm rec (Some table) r = Ok (writeHtmlTable table rows) r'.
Proof.
  intros Hc Hcells. apply isComplexTable_spec in Hc.
  unfold parseTable, parseTableAsHTML. rewrite Hc.
  change (fun cellText => Js.trim (markdownToHTML marked_parse cellText))
    with (htmlCell marked_parse).
  unfold bind. now rewrite Hcells.
Qed.

Lemma parseTable_gfm (table : TableBlock) (r r' : Renderer) (rows : list (list string)) :
  ~ complexTable table ->
  parseCells bm rec gfmCell table r = Ok rows r' ->
  parseTable marked_parse bm rec (Some table) r = Ok (writeGfmTable table rows) r'.
Proof.
  intros Hn Hcells. unfold parseTable.
  destruct (isComplexTable table) eqn:Hc; [apply isComplexTable_spec in Hc; contradiction |].
  unfold bind. now rewrite Hcells.
Qed.

Lemma blank_header (n : Z) :
  (fun i => cellOr [] i " ") <$> columns n = replicate (Z.to_nat n) " ".
Proof.
  unfold columns. generalize (Z.to_nat n) as k. generalize O as start.
  intros start k. revert start. induction k as [|k IH]; intros start; simpl; [reflexivity|].
  now rewrite IH.
Qed.

(** C10: a table on the pipe path whose [header_row] flag is false gets
    a first line of [column_size] blank cells and the separator line, and
    then every row the cells were collected into as a body row. *)
Theorem headless_gfm_table (table : TableBlock) (r r' : Renderer)
    (rows : list (list string)) :
  ~ complexTable table ->
  header_row (property table) = false ->
  parseCells bm rec gfmCell table r = Ok rows r' ->
  parseTable marked_parse bm rec (Some table) r
  = Ok (pipeRow (replicate (Z.to_nat (column_size (property table))) " ")
        +:+ separatorRow (Z.to_nat (column_size (property table)))
        +:+ Js.concat (pipeRow <$> rows)) r'.
Proof.
  intros Hn Hh Hcells.
  rewrite (parseTable_gfm table r r' rows Hn Hcells), writeGfmTable_layout, Hh, blank_header.
  reflexivity.
Qed.

Lemma lineFeeds_app (a b : string) :
  lineFeeds (a +:+ b) = (lineFeeds a + lineFeeds b)%nat.
Proof.
  induction a as [|c a IH]; [reflexivity |].
  rewrite app_cons_s. simpl. rewrite IH. lia.
Qed.

Lemma lineFeeds_gfmCell (cellText : string) : lineFeeds (gfmCell cellText) = O.
Proof.
  unfold gfmCell. generalize (trimLastNewline cellText) as s.
  induction s as [|c s IH]; [reflexivity |].
  cbn [Js.replaceChar]. destruct (Ascii.eqb c (Js.chr 10)) eqn:E.
  - rewrite lineFeeds_app, IH. reflexivity.
  - cbn [lineFeeds]. now rewrite E, IH.
Qed.

Lemma lineFeeds_headerCell (cellText : string) : lineFeeds (headerCell cellText) = O.
Proof.
  unfold headerCell. pose proof (lineFeeds_gfmCell cellText) as H.
  destruct (gfmCell cellText); [reflexivity | exact H].
Qed.

Lemma cellOr_empty (row : list string) (i : nat) :
  cellOr row i "" = default "" (row !! i).
Proof. unfold cellOr. destruct (row !! i) as [[|c s]|]; reflexivity. Qed.

Lemma cellOr_headerCell (row : list string) (i : nat) (cellText : string) :
  row !! i = Some (gfmCell cellText) -> cellOr row i " " = headerCell cellText.
Proof. unfold cellOr, headerCell. intros ->. now destruct (gfmCell cellText). Qed.

(** C4: a table of two rows and two columns with a header row whose
    first cell spans both rows gives an HTML table in which the cell (0,0)
    is a [<th>] with the attribute [rowspan] of 2 and the row of the body
    holds the one element of the cell (1,1): no element is written for the
    covered cell (1,0). *)
Theorem html_table_rowspan (table : TableBlock)
    (c0 c1 c2 c3 : string) (b0 b1 b2 b3 : Block) (t0 t1 t2 t3 : string)
    (r r1 r2 r3 r4 : Renderer) :
  cells table = [c0; c1; c2; c3] ->
  column_size (property table) = 2 ->
  header_row (property table) = true ->
  merge_info (property table) = [{| row_span := 2; col_span := 1 |}; noSpan; noSpan; noSpan] ->
  bm !! c0 = Some b0 -> bm !! c1 = Some b1 -> bm !! c2 = Some b2 -> bm !! c3 = Some b3 ->
  rec b0 O r = Ok t0 r1 -> rec b1 O r1 = Ok t1 r2 ->
  rec b2 O r2 = Ok t2 r3 -> rec b3 O r3 = Ok t3 r4 ->
  parseTable marked_parse bm rec (Some table) r
  = Ok (htmlOpening table
        +:+ "  <thead>" +:+ Js.LF
        +:+ "    <tr><th rowspan=" +:+ Js.quoted "2" +:+ ">" +:+ htmlCell marked_parse t0
        +:+ "</th><th>" +:+ htmlCell marked_parse t1 +:+ "</th></tr>" +:+ Js.LF
        +:+ "  </thead>" +:+ Js.LF
        +:+ "  <tbody>" +:+ Js.LF
        +:+ "    <tr><td>" +:+ htmlCell marked_parse t3 +:+ "</td></tr>" +:+ Js.LF
        +:+ "  </tbody>" +:+ Js.LF
        +:+ "</table>" +:+ Js.LF) r4.
Proof.
  intros Hcells Hcols Hhead Hmerge H0 H1 H2 H3 R0 R1 R2 R3.
  assert (Hc : complexTable table).
  { left. rewrite Hmerge. apply Exists_cons_hd. left. simpl. lia. }
  rewrite (parseTable_html table _ _ _ Hc
             (parseCells_2x2 (htmlCell marked_parse) table _ _ _ _ _ _ _ _ _ _ _ _ _ _ _ _ _
                Hcells Hcols H0 H1 H2 H3 R0 R1 R2 R3)).
  rewrite writeHtmlTable_layout. cbv zeta. rewrite Hhead, Hcols, Hmerge. f_equal.
  change (computeCellInfos _ 2) with [1; 1; 0; 1].
  change (columns 2) with [0; 1]%nat.
  cbn [shiftRow fst snd fmap list_fmap Nat.add List.length].
  rewrite !cellOr_empty.
  cbn [cellsMarkup rowsMarkup cellMarkup lookup list_lookup default from_option id].
  unfold cellMarkup, tableCellAttrHTML. cbn. 
  rewrite !app_nil_r_s, !app_assoc_s. reflexivity.
Qed.
End Tables.

(* ===================================================================== *)
(** * The root and missing children *)
(* ===================================================================== *)

Lemma findRoot_None (blocks : list Block) :
  findRoot blocks = None <-> Forall (fun b => block_type b <> Page) blocks.
Proof.
  unfold findRoot. induction blocks as [|b blocks IH]; simpl.
  - split; [constructor | reflexivity].
  - destruct (bool_decide (block_type b = Page)) eqn:E.
    + apply bool_decide_eq_true in E. split; [discriminate |].
      intros H. apply Forall_cons in H as [H _]. contradiction.
    + apply bool_decide_eq_false in E. rewrite IH. split.
      * intros H. now constructor.
      * intros H. now apply Forall_cons in H as [_ H].
Qed.

(** C6, as amended: [parse] throws its own error for a missing root if
    and only if no block of the list has the type [Page]; and a child id
    that is in no block of the list is passed over, with the buffer and
    the renderer as they were, by the loops over the children of a page,
    of a text block or heading, of a list item, of a quote container,
    view, synced block or table cell and of a grid, and stands for an
    empty part among the children of a grid column or a callout: the
    loops go on with the remaining siblings; and on a block list that is
    well formed, which asks for no child of a block to exist, [parse]
    returns once the fuel exceeds the rank of the root. *)
Theorem parse_root_error (marked_parse getEmojiChar : string -> string)
    (JSON_stringify : Block -> string) (fuel : nat) (blocks : list Block) (this : Renderer) :
  (parse marked_parse getEmojiChar JSON_stringify fuel blocks this = Throw RootNotFound
   <-> Forall (fun b => block_type b <> Page) blocks)
  /\ (forall bm step c rest buf r,
         bm !! c = None ->
         eachChild bm step (c :: rest) buf r = eachChild bm step rest buf r)
  /\ (forall bm rec block idx c rest buf r,
         bm !! c = None ->
         pageChildren bm rec block idx (c :: rest) buf r
         = pageChildren bm rec block (S idx) rest buf r)
  /\ (forall bm rec c rest r,
         bm !! c = None ->
         innerParts bm rec (c :: rest) r
         = (let* parts := innerParts bm rec rest in ret ("" :: parts)) r)
  /\ (forall rank root,
         wellFormed blocks rank -> findRoot blocks = Some root -> (rank root < fuel)%nat ->
         exists md r',
           parse marked_parse getEmojiChar JSON_stringify fuel blocks this = Ok md r').
Proof.
  repeat split.
  - unfold parse. destruct (findRoot blocks) as [root|] eqn:Hroot.
    + destruct (parseBlock _ _ _ _ _ _ _ _); discriminate.
    + intros _. now apply findRoot_None.
  - intros H. apply findRoot_None in H. unfold parse. now rewrite H.
  - intros bm step c rest buf r Hc. cbn [eachChild]. now rewrite Hc.
  - intros bm rec block idx c rest buf r Hc. cbn [pageChildren]. now rewrite Hc.
  - intros bm rec c rest r Hc. unfold innerParts. cbn [mapM]. now rewrite Hc.
  - intros rank root. apply parse_returns.
Qed.

(** C6 as stated fails on a list that has a page: a link whose URL has a
    percent sign that starts no escape makes [decodeURIComponent] throw,
    and nothing catches the [URIError]. *)
Lemma bad_link_throws :
  findRoot badLinkDoc = Some (textualBlock "doc" "" Page ["p"] [plainRun "Offer"])
  /\ parse sampleMarked sampleEmoji sampleStringify 2 badLinkDoc newRenderer
     = Throw (Builtin URIError).
Proof. split; vm_compute; reflexivity. Qed.

(** The cell loop of a table does attempt to pass over a missing cell,
    but pushes at most one row for a cell it finds: after two rows of
    missing cells [rows[row]] is undefined and the push throws a
    [TypeError]. *)
Lemma gapped_table_throws :
  parse sampleMarked sampleEmoji sampleStringify 4 gappedTableDoc newRenderer
  = Throw (Builtin TypeError).
Proof. vm_compute. reflexivity. Qed.

(* ===================================================================== *)
(** * Independence of the renderer's prior state *)
(* ===================================================================== *)

Lemma agreeOn_weaken (p : bool) (r1 r2 : Renderer) :
  agreeOn true r1 r2 -> agreeOn p r1 r2.
Proof. intros (H1 & H2 & H3 & H4). repeat split; auto. Qed.

Lemma respects_ret {A} (p : bool) (a : A) : respects p p (ret a).
Proof. intros r1 r2 H. now split. Qed.

Lemma respects_throw {A} (p q : bool) (e : BuiltinError) : respects p q (@throw A e).
Proof. intros r1 r2 H. reflexivity. Qed.

Lemma respects_outOfFuel {A} (p q : bool) : respects p q (@outOfFuel A).
Proof. intros r1 r2 H. exact I. Qed.

Lemma respects_bind {A B} (p q s : bool) (m : M A) (k : A -> M B) :
  respects p q m -> (forall a, respects q s (k a)) -> respects p s (bind m k).
Proof.
  intros Hm Hk r1 r2 H. specialize (Hm r1 r2 H). unfold bind.
  destruct (m r1) as [a1 s1| |], (m r2) as [a2 s2| |]; simpl in Hm; try contradiction.
  - destruct Hm as [<- Hs]. now apply Hk.
  - exact Hm.
  - exact I.
Qed.

Lemma respects_weaken {A} (p : bool) (m : M A) :
  respects true true m -> respects true p m.
Proof.
  intros Hm r1 r2 H. specialize (Hm r1 r2 H).
  destruct (m r1), (m r2); simpl in *; try contradiction; auto.
  destruct Hm as [-> Hm]. split; [reflexivity | now apply agreeOn_weaken].
Qed.

Lemma respects_setIndent (p : bool) (n : nat) : respects p p (setIndent n).
Proof. intros r1 r2 (H1 & H2 & H3 & H4). simpl. repeat split; auto. Qed.

Lemma respects_setCurrentBlock (p : bool) (b : option Block) :
  respects p p (setCurrentBlock b).
Proof. intros r1 r2 (H1 & H2 & H3 & H4). simpl. repeat split; auto. Qed.

Lemma respects_setNextBlock (p : bool) (b : option Block) :
  respects p true (setNextBlock b).
Proof. intros r1 r2 (H1 & H2 & H3 & H4). simpl. repeat split; auto. Qed.

Lemma respects_setTitle (p : bool) (s : string) : respects p p (setTitle s).
Proof. intros r1 r2 (H1 & H2 & H3 & H4). simpl. repeat split; auto. Qed.

Lemma respects_setFileTokens (p : bool) (l : list FileToken) :
  respects p p (setFileTokens l).
Proof. intros r1 r2 (H1 & H2 & H3 & H4). simpl. repeat split; auto. Qed.

Lemma respects_getCurrentBlock (p : bool) : respects p p getCurrentBlock.
Proof. intros r1 r2 H. simpl. split; [apply H | exact H]. Qed.

Lemma respects_getIndent (p : bool) : respects p p getIndent.
Proof. intros r1 r2 H. simpl. split; [apply H | exact H]. Qed.

Lemma respects_getFileTokens (p : bool) : respects p p getFileTokens.
Proof. intros r1 r2 H. simpl. split; [apply H | exact H]. Qed.

Lemma respects_getNextBlock : respects true true getNextBlock.
Proof. intros r1 r2 H. simpl. split; [now apply H | exact H]. Qed.

Lemma respects_forEach {A B} (p : bool) (f : nat -> A -> B -> M B) (l : list A) :
  (forall idx x acc, respects p p (f idx x acc)) ->
  forall idx acc, respects p p (forEach f idx l acc).
Proof.
  intros Hf. induction l as [|x l IH]; intros idx acc; cbn [forEach].
  - apply respects_ret.
  - eapply respects_bind; [apply Hf | intros; apply IH].
Qed.

Lemma respects_mapM {A B} (p : bool) (f : A -> M B) (l : list A) :
  (forall x, respects p p (f x)) -> respects p p (mapM f l).
Proof.
  intros Hf. induction l as [|x l IH]; cbn [mapM].
  - apply respects_ret.
  - eapply respects_bind; [apply Hf | intros].
    eapply respects_bind; [apply IH | intros; apply respects_ret].
Qed.

Ltac respects_step :=
  match goal with
  | |- respects _ _ (bind _ _) => eapply respects_bind; [|intros]
  | |- respects _ _ (ret _) => apply respects_ret
  | |- respects _ _ (throw _) => apply respects_throw
  | |- respects _ _ outOfFuel => apply respects_outOfFuel
  | |- respects _ _ (setIndent _) => apply respects_setIndent
  | |- respects _ _ (setCurrentBlock _) => apply respects_setCurrentBlock
  | |- respects _ _ (setTitle _) => apply respects_setTitle
  | |- respects _ _ (setFileTokens _) => apply respects_setFileTokens
  | |- respects _ _ getCurrentBlock => apply respects_getCurrentBlock
  | |- respects _ _ getIndent => apply respects_getIndent
  | |- respects _ _ getFileTokens => apply respects_getFileTokens
  | |- respects _ _ getNextBlock => apply respects_getNextBlock
  | |- respects _ _ (forEach _ _ _ _) => apply respects_forEach; intros
  | |- respects _ _ (mapM _ _) => apply respects_mapM; intros
  | |- respects _ _ (match ?x with _ => _ end) => destruct x
  | |- respects _ _ (let '(_, _) := ?x in _) => destruct x
  end.

Lemma respects_addFileToken (p : bool) (kind : FileKind) (tok : string) :
  respects p p (addFileToken kind tok).
Proof. unfold addFileToken. repeat respects_step. Qed.

Lemma respects_styleWrappers (p : bool) (style : option TextElementStyle) :
  respects p p (styleWrappers style).
Proof. unfold styleWrappers. repeat respects_step. Qed.

Lemma respects_parseTextRun (p : bool) (buf : Buffer.t) (textRun : TextRun) :
  respects p p (parseTextRun buf textRun).
Proof.
  unfold parseTextRun. eapply respects_bind; [apply respects_styleWrappers | intros [[pre post] esc]].
  repeat respects_step.
Qed.

Lemma respects_parseTextElement (p : bool) (buf : Buffer.t) (el : TextElement) (inline : bool) :
  respects p p (parseTextElement buf el inline).
Proof.
  unfold parseTextElement.
  destruct (text_run el); [apply respects_parseTextRun |].
  repeat respects_step.
Qed.

Lemma respects_parseTextElements (p : bool) (buf : Buffer.t) (els : list TextElement) :
  respects p p (parseTextElements buf els).
Proof. unfold parseTextElements. respects_step. apply respects_parseTextElement. Qed.

Section Independence.
Variables (marked_parse getEmojiChar : string -> string) (JSON_stringify : Block -> string).
Variable bm : gmap string Block.

Section Body.
Variable rec : Block -> nat -> M string.
Hypothesis Hrec : forall b i, respects true true (rec b i).

Lemma respects_eachChild (p : bool) (step : Block -> Buffer.t -> M Buffer.t)
    (ids : list string) :
  (forall child buf, respects p p (step child buf)) ->
  forall buf, respects p p (eachChild bm step ids buf).
Proof.
  intros Hstep. induction ids as [|c ids IH]; intros buf; cbn [eachChild].
  - apply respects_ret.
  - eapply respects_bind; [|intros; apply IH].
    destruct (bm !! c); [apply Hstep | apply respects_ret].
Qed.

Ltac walk_step :=
  first
    [ apply Hrec
    | apply respects_parseTextElements
    | apply respects_addFileToken
    | apply respects_setNextBlock
    | apply respects_eachChild; intros
    | respects_step ].

Lemma respects_parseTextBlock (block : Block) (textBlock : option TextBlock) :
  respects true true (parseTextBlock bm rec block textBlock).
Proof. unfold parseTextBlock. repeat walk_step. Qed.

(** A text block of a type that renders no children only reads what the
    inline composer reads. *)
Lemma respects_parseTextBlock_leaf (p : bool) (block : Block) (textBlock : option TextBlock) :
  block_type block ∉ childrenBlockTypes ->
  respects p p (parseTextBlock bm rec block textBlock).
Proof.
  intros Hleaf. unfold parseTextBlock. rewrite (bool_decide_eq_false_2 _ Hleaf).
  repeat walk_step.
Qed.

Lemma respects_pageChildren (p : bool) (block : Block) (ids : list string) :
  forall idx buf, respects p p (pageChildren bm rec block idx ids buf).
Proof.
  induction ids as [|c ids IH]; intros idx buf; cbn [pageChildren].
  - apply respects_ret.
  - eapply respects_bind; [|intros; apply IH].
    destruct (bm !! c) as [child|]; [|apply respects_ret].
    eapply respects_bind; [apply respects_setNextBlock | intros].
    destruct p; [|apply respects_weaken]; repeat walk_step.
Qed.

Lemma respects_parsePageBlock (p : bool) (block : Block) :
  block_type block = Page ->
  respects p p (parsePageBlock bm rec block).
Proof.
  intros Hpage. unfold parsePageBlock.
  eapply respects_bind; [repeat walk_step | intros].
  eapply respects_bind; [apply respects_parseTextBlock_leaf | intros].
  { rewrite Hpage. unfold childrenBlockTypes. rewrite !not_elem_of_cons.
    repeat split; try discriminate. apply not_elem_of_nil. }
  eapply respects_bind; [apply respects_pageChildren | intros]. apply respects_ret.
Qed.

Lemma respects_parseSubList (block : Block) (ind : nat) (buf : Buffer.t) :
  respects true true (parseSubList bm rec block ind buf).
Proof. unfold parseSubList. repeat walk_step. Qed.

Lemma respects_parseBulletBlock (block : Block) (ind : nat) :
  respects true true (parseBulletBlock bm rec block ind).
Proof.
  unfold parseBulletBlock.
  eapply respects_bind; [apply respects_parseTextBlock | intros].
  eapply respects_bind; [apply respects_getNextBlock | intros].
  eapply respects_bind; [apply respects_parseSubList | intros]. apply respects_ret.
Qed.

Lemma respects_parseOrderedBlock (block : Block) (ind : nat) :
  respects true true (parseOrderedBlock bm rec block ind).
Proof.
  unfold parseOrderedBlock.
  eapply respects_bind; [apply respects_parseTextBlock | intros].
  eapply respects_bind; [apply respects_getNextBlock | intros].
  eapply respects_bind; [apply respects_parseSubList | intros]. apply respects_ret.
Qed.

Lemma respects_parseImage (image : option ImageBlock) : respects true true (parseImage image).
Proof. unfold parseImage. repeat walk_step. Qed.

Lemma respects_parseBoard (board : option ImageBlock) : respects true true (parseBoard board).
Proof. unfold parseBoard. repeat walk_step. Qed.

Lemma respects_parseChildren (pre : option string) (block : Block) :
  respects true true (parseChildren bm rec pre block).
Proof. unfold parseChildren. repeat walk_step. Qed.

Lemma respects_parseCells (finish : string -> string) (table : TableBlock) :
  respects true true (parseCells bm rec finish table).
Proof. unfold parseCells. respects_step. unfold collectCell. repeat walk_step. Qed.

Lemma respects_parseTable (table : option TableBlock) :
  respects true true (parseTable marked_parse bm rec table).
Proof.
  unfold parseTable, parseTableAsHTML.
  destruct table as [table|]; [|apply respects_ret].
  destruct (isComplexTable table);
    (eapply respects_bind; [apply respects_parseCells | intros; apply respects_ret]).
Qed.

Lemma respects_parseFile (block : Block) : respects true true (parseFile block).
Proof. unfold parseFile. repeat walk_step. Qed.

Lemma respects_parseInner (block : Block) : respects true true (parseInner bm rec block).
Proof. unfold parseInner, innerParts. repeat walk_step. Qed.

Lemma respects_parseGridColumn (block : Block) :
  respects true true (parseGridColumn marked_parse bm rec block).
Proof.
  unfold parseGridColumn.
  eapply respects_bind; [apply respects_parseInner | intros; apply respects_ret].
Qed.

Lemma respects_parseGrid (block : Block) :
  respects true true (parseGrid marked_parse bm rec block).
Proof.
  unfold parseGrid.
  eapply respects_bind; [|intros; apply respects_ret].
  apply respects_eachChild. intros.
  eapply respects_bind; [apply respects_parseGridColumn | intros; apply respects_ret].
Qed.

Lemma respects_parseCallout (block : Block) :
  respects true true (parseCallout marked_parse getEmojiChar bm rec block).
Proof.
  unfold parseCallout.
  eapply respects_bind; [apply respects_parseInner | intros; apply respects_ret].
Qed.

Lemma respects_parseIframe (block : Block) : respects true true (parseIframe block).
Proof. unfold parseIframe. repeat walk_step. Qed.

Lemma respects_parseUnsupport (block : Block) :
  respects true true (parseUnsupport JSON_stringify block).
Proof. unfold parseUnsupport. repeat walk_step. Qed.

Lemma respects_parseHeading (buf : Buffer.t) (marker : string) (block : Block)
    (textBlock : option TextBlock) :
  respects true true (parseHeading bm rec buf marker block textBlock).
Proof.
  unfold parseHeading.
  eapply respects_bind; [apply respects_parseTextBlock | intros; apply respects_ret].
Qed.

(** The dispatch of [parseBlockBody] on the block type, once the depth
    and the block are recorded. *)
Lemma respects_parseBlockBody (block : Block) (ind : nat) :
  respects true true
    (parseBlockBody marked_parse getEmojiChar JSON_stringify bm rec block ind).
Proof.
  unfold parseBlockBody.
  eapply respects_bind; [apply respects_setIndent | intros].
  eapply respects_bind; [apply respects_setCurrentBlock | intros].
  eapply respects_bind; [|intros; apply respects_ret].
  destruct (block_type block) eqn:Hty;
    try (eapply respects_bind; [|intros; apply respects_ret]);
    first
      [ apply respects_parsePageBlock; assumption
      | apply respects_parseTextBlock
      | apply respects_parseHeading
      | apply respects_parseBulletBlock
      | apply respects_parseOrderedBlock
      | apply respects_parseImage
      | apply respects_parseBoard
      | apply respects_parseChildren
      | apply respects_parseTable
      | apply respects_parseFile
      | apply respects_parseGrid
      | apply respects_parseCallout
      | apply respects_parseIframe
      | apply respects_parseUnsupport
      | apply respects_ret ].
Qed.

(** The root: a page block, entered from renderers that agree on the
    file tokens only. *)
Lemma parseBlockBody_page (block : Block) (ind : nat) (r1 r2 : Renderer) :
  block_type block = Page ->
  _fileTokens r1 = _fileTokens r2 ->
  sameOutcome false
    (parseBlockBody marked_parse getEmojiChar JSON_stringify bm rec block ind r1)
    (parseBlockBody marked_parse getEmojiChar JSON_stringify bm rec block ind r2).
Proof.
  intros Hpage Htok. unfold parseBlockBody. rewrite Hpage.
  unfold bind at 1 3. cbn [setIndent]. unfold bind at 1 3. cbn [setCurrentBlock].
  refine (respects_bind false false false _ _ _ _ _ _ _).
  - eapply respects_bind; [apply respects_parsePageBlock, Hpage | intros; apply respects_ret].
  - intros; apply respects_ret.
  - repeat split; auto. discriminate.
Qed.

End Body.

Lemma respects_parseBlock (fuel : nat) :
  forall block ind,
    respects true true (parseBlock marked_parse getEmojiChar JSON_stringify bm fuel block ind).
Proof.
  induction fuel as [|fuel IH]; intros block ind; cbn [parseBlock].
  - apply respects_outOfFuel.
  - apply respects_parseBlockBody. exact IH.
Qed.

End Independence.

(** [parse] is a function of the block list alone: on two renderers in
    any two states (two freshly constructed ones in particular) and with
    the same fuel it returns the same Markdown text and leaves the same
    list of file tokens, or throws the same exception; what the renderer
    held before the call (current block, lookahead sibling, depth,
    tokens, title) does not reach the output. *)
Lemma parse_independent (marked_parse getEmojiChar : string -> string)
    (JSON_stringify : Block -> string)
    (fuel : nat) (blocks : list Block) (this1 this2 : Renderer) :
  sameRendering
    (parse marked_parse getEmojiChar JSON_stringify fuel blocks this1)
    (parse marked_parse getEmojiChar JSON_stringify fuel blocks this2).
Proof.
  unfold parse. destruct (findRoot blocks) as [root|] eqn:Hroot; [|reflexivity].
  apply find_some in Hroot as [_ Hpage]. apply bool_decide_eq_true in Hpage.
  destruct fuel as [|fuel]; [exact I |]. cbn [parseBlock].
  pose proof (fun s1 s2 =>
                parseBlockBody_page marked_parse getEmojiChar JSON_stringify
                  (buildBlockMap blocks) _
                  (respects_parseBlock marked_parse getEmojiChar JSON_stringify
                     (buildBlockMap blocks) fuel)
                  root O s1 s2 Hpage) as H.
  match goal with
  | |- sameRendering (match ?f ?s1 with _ => _ end) (match ?g ?s2 with _ => _ end) =>
      specialize (H s1 s2 eq_refl)
  end.
  destruct (parseBlockBody _ _ _ _ _ _ _ _) as [md1 r1| |],
           (parseBlockBody _ _ _ _ _ _ _ _) as [md2 r2| |];
    simpl in H; try contradiction.
  - destruct H as [-> (_ & _ & Htok & _)]. split; [reflexivity | exact Htok].
  - now subst.
  - exact I.
Qed.

(* ===================================================================== *)
(** * The buffer and the helpers of [converter/types.ts] *)
(* ===================================================================== *)

Lemma endsWith_spec (s suf : string) :
  Js.endsWith s suf = true <-> exists a, s = a +:+ suf.
Proof.
  split.
  - induction s as [|c s IH]; cbn [Js.endsWith]; intros H.
    + rewrite orb_false_r in H. apply String.eqb_eq in H as <-. now exists "".
    + apply orb_true_iff in H as [H|H].
      * apply String.eqb_eq in H as <-. now exists "".
      * destruct (IH H) as [a ->]. now exists (String c a).
  - intros [a ->]. apply endsWith_app.
Qed.

Lemma foldl_length_parts (l : list string) (acc : nat) :
  foldl (fun acc p => (acc + String.length p)%nat) acc l
  = (acc + String.length (Js.concat l))%nat.
Proof.
  revert acc. induction l as [|p l IH]; intros acc; simpl; [lia |].
  rewrite IH, length_app_s. lia.
Qed.

(** X1: the getter [length] is the length of the text. *)
Theorem buffer_length_of_text (b : Buffer.t) :
  Buffer.length b = String.length (Buffer.toString b).
Proof. unfold Buffer.length, Buffer.toString. now rewrite foldl_length_parts. Qed.

(** X2: [trimLastIfEndsWith] removes the suffix, and reports it, exactly when
    the suffix is not empty and the text of the buffer ends with it: the
    text is then the text that is left followed by the suffix.  Otherwise
    the buffer is left as it is. *)
Theorem trimLastIfEndsWith_suffix (b : Buffer.t) (suffix : string) :
  let '(b', removed) := Buffer.trimLastIfEndsWith b suffix in
  (removed = true <-> suffix <> "" /\ exists a, Buffer.toString b = a +:+ suffix)
  /\ (removed = true -> Buffer.toString b = Buffer.toString b' +:+ suffix)
  /\ (removed = false -> b' = b).
Proof.
  destruct (Buffer.trimLastIfEndsWith b suffix) as [b' removed] eqn:E.
  destruct (String.eqb_spec suffix "") as [->|Hne].
  - unfold Buffer.trimLastIfEndsWith in E. cbn in E. injection E as <- <-.
    repeat split; try discriminate; try tauto.
  - destruct (Js.endsWith (Buffer.toString b) suffix) eqn:Hend.
    + apply endsWith_spec in Hend as [a Ha].
      destruct (trimLast_hit b a suffix Hne Ha) as (b1 & Hb1 & Hs).
      rewrite Hb1 in E. injection E as <- <-.
      repeat split; try discriminate; eauto. intros _. now rewrite Hs.
    + rewrite (trimLast_miss b suffix Hend) in E. injection E as <- <-.
      repeat split; try discriminate; try reflexivity.
      intros [_ H]. apply endsWith_spec in H. congruence.
Qed.

(** X3: [trimLastNewline] removes one line feed from the end of a text that
    ends with one, and nothing else: a text that does not end with a line
    feed is returned as it is. *)
Theorem trimLastNewline_one_line_feed (text : string) :
  (Js.endsWith text Js.LF = false /\ trimLastNewline text = text)
  \/ text = trimLastNewline text +:+ Js.LF.
Proof.
  unfold trimLastNewline. destruct (Js.endsWith text Js.LF) eqn:E.
  - right. apply endsWith_spec in E as [a ->].
    change 1%nat with (String.length Js.LF). now rewrite dropLast_app.
  - now left.
Qed.

Lemma hasChar_app (c : ascii) (a b : string) :
  hasChar c (a +:+ b) = hasChar c a || hasChar c b.
Proof.
  induction a as [|x a IH]; [reflexivity |].
  rewrite app_cons_s. simpl. now rewrite IH, orb_assoc.
Qed.

Lemma replaceChar_absent (c : ascii) (r s : string) :
  hasChar c s = false -> Js.replaceChar c r s = s.
Proof.
  induction s as [|a s IH]; [reflexivity |]. simpl. intros H.
  apply orb_false_iff in H as [Ha Hs]. rewrite Ha. now rewrite IH.
Qed.

Lemma replaceChar_removes (c : ascii) (r s : string) :
  hasChar c r = false -> hasChar c (Js.replaceChar c r s) = false.
Proof.
  intros Hr. induction s as [|a s IH]; [reflexivity |]. simpl.
  destruct (Ascii.eqb a c) eqn:E.
  - now rewrite hasChar_app, Hr, IH.
  - simpl. now rewrite E, IH.
Qed.

Lemma replaceChar_keeps_out (c d : ascii) (r s : string) :
  hasChar d r = false -> hasChar d s = false -> hasChar d (Js.replaceChar c r s) = false.
Proof.
  intros Hr. induction s as [|a s IH]; [reflexivity |]. simpl. intros H.
  apply orb_false_iff in H as [Ha Hs].
  destruct (Ascii.eqb a c).
  - now rewrite hasChar_app, Hr, IH.
  - simpl. now rewrite Ha, IH.
Qed.

(** X4: the text [escapeHTMLTags] returns has no angle bracket in it; a text
    without angle brackets is returned as it is (an ampersand is not
    escaped), so escaping a second time changes nothing. *)
Theorem escapeHTMLTags_no_angle_bracket (text : string) :
  hasChar "<" (escapeHTMLTags text) = false
  /\ hasChar ">" (escapeHTMLTags text) = false
  /\ (hasChar "<" text = false -> hasChar ">" text = false -> escapeHTMLTags text = text)
  /\ escapeHTMLTags (escapeHTMLTags text) = escapeHTMLTags text.
Proof.
  assert (H1 : hasChar "<" (escapeHTMLTags text) = false).
  { unfold escapeHTMLTags. apply replaceChar_keeps_out; [reflexivity |].
    now apply replaceChar_removes. }
  assert (H2 : hasChar ">" (escapeHTMLTags text) = false).
  { unfold escapeHTMLTags. now apply replaceChar_removes. }
  assert (H3 : forall t, hasChar "<" t = false -> hasChar ">" t = false -> escapeHTMLTags t = t).
  { intros t Ha Hb. unfold escapeHTMLTags.
    rewrite (replaceChar_absent "<" _ t Ha). now apply replaceChar_absent. }
  repeat split; auto.
Qed.

Lemma getCodeLanguage_listed :
  forallb (fun k => let s := getCodeLanguage (Z.of_nat k) in
                    negb (String.eqb s "") && String.eqb (Js.toLowerCase s) s)
          (seq 1 75) = true.
Proof. vm_compute. reflexivity. Qed.

(** X5: [getCodeLanguage] gives a name for the codes 1 to 75 of the
    enumeration and the empty text for every other number, and the name
    is in lower case. *)
Theorem getCodeLanguage_names (code : Z) :
  (getCodeLanguage code = "" <-> ~ isCodeLanguage code)
  /\ Js.toLowerCase (getCodeLanguage code) = getCodeLanguage code.
Proof.
  unfold isCodeLanguage.
  destruct (Z_le_gt_dec code 0) as [Hle|Hgt].
  - assert (E : getCodeLanguage code = "").
    { unfold getCodeLanguage, CodeLanguage_name, recordAt.
      destruct (Z.leb_spec code 0); [reflexivity | lia]. }
    rewrite E. split; [split; [lia | reflexivity] | reflexivity].
  - destruct (Z_le_gt_dec code 75) as [Hin|Hout].
    + pose proof getCodeLanguage_listed as H. rewrite forallb_forall in H.
      specialize (H (Z.to_nat code)). rewrite Z2Nat.id in H by lia.
      cbv zeta in H. rewrite andb_true_iff in H.
      destruct H as [Hne Hlow]; [apply in_seq; lia |].
      apply negb_true_iff, String.eqb_neq in Hne. apply String.eqb_eq in Hlow.
      split; [split; [contradiction | lia] | exact Hlow].
    + assert (E : getCodeLanguage code = "").
      { unfold getCodeLanguage, CodeLanguage_name, recordAt.
        destruct (Z.leb_spec code 0); [reflexivity |].
        rewrite lookup_ge_None_2; [reflexivity |]. simpl. lia. }
      rewrite E. split; [split; [lia | reflexivity] | reflexivity].
Qed.

(* ===================================================================== *)
(** * White space *)
(* ===================================================================== *)

Lemma rev_app_s (s t : string) : String.rev_app s t = String.rev s +:+ t.
Proof.
  unfold String.rev. revert t. induction s as [|c s IH]; intros t; simpl; [reflexivity |].
  rewrite (IH (String c "")), IH. now rewrite app_assoc_s.
Qed.

Lemma rev_cons_s (c : ascii) (s : string) : String.rev (String c s) = String.rev s +:+ String c "".
Proof. unfold String.rev at 1. simpl. apply rev_app_s. Qed.

Lemma rev_app_distr_s (a b : string) : String.rev (a +:+ b) = String.rev b +:+ String.rev a.
Proof.
  induction a as [|c a IH].
  - now rewrite app_nil_l_s, app_nil_r_s.
  - now rewrite app_cons_s, !rev_cons_s, IH, app_assoc_s.
Qed.

Lemma rev_involutive_s (s : string) : String.rev (String.rev s) = s.
Proof.
  induction s as [|c s IH]; [reflexivity |].
  now rewrite rev_cons_s, rev_app_distr_s, IH.
Qed.

(** The test of [stripWs] on the front of [s]. *)
Lemma stripWs_stays (s : string) : wsLen s = 0%nat -> Js.stripWs false s = s.
Proof.
  destruct s as [|c1 [|c2 [|c3 r3]]]; cbn [wsLen Js.stripWs]; intros H;
    repeat match type of H with
           | (if ?b then _ else _) = _ => destruct b; [discriminate |]
           end; reflexivity.
Qed.

Lemma stripWs_front (n : nat) :
  forall s, (String.length s <= n)%nat -> wsLen (Js.stripWs false s) = 0%nat.
Proof.
  induction n as [|n IH]; intros s Hlen.
  - destruct s; [reflexivity | simpl in Hlen; lia].
  - destruct s as [|c1 r1]; [reflexivity |]. simpl in Hlen. cbn [Js.stripWs].
    destruct (Js.ws1 (Js.code c1)) eqn:E1; [apply IH; lia |].
    destruct r1 as [|c2 r2]; [cbn [wsLen]; now rewrite E1 |]. simpl in Hlen.
    destruct (Js.ws2 (Js.code c1) (Js.code c2)) eqn:E2; [apply IH; lia |].
    destruct r2 as [|c3 r3]; [cbn [wsLen]; now rewrite E1, E2 |]. simpl in Hlen.
    destruct (Js.ws3 (Js.code c1) (Js.code c2) (Js.code c3)) eqn:E3; [apply IH; lia |].
    cbn [wsLen]. now rewrite E1, E2, E3.
Qed.

Lemma stripWs_back_stays (t : string) :
  (forall c1 r1, t = String c1 r1 -> Js.ws1 (Js.code c1) = false) ->
  (forall c1 c2 r2, t = String c1 (String c2 r2) ->
                    Js.ws2 (Js.code c2) (Js.code c1) = false) ->
  (forall c1 c2 c3 r3, t = String c1 (String c2 (String c3 r3)) ->
                       Js.ws3 (Js.code c3) (Js.code c2) (Js.code c1) = false) ->
  Js.stripWs true t = t.
Proof.
  intros H1 H2 H3.
  destruct t as [|c1 [|c2 [|c3 r3]]]; cbn [Js.stripWs]; [reflexivity |..].
  - now rewrite (H1 _ _ eq_refl).
  - now rewrite (H1 _ _ eq_refl), (H2 _ _ _ eq_refl).
  - now rewrite (H1 _ _ eq_refl), (H2 _ _ _ eq_refl), (H3 _ _ _ _ eq_refl).
Qed.

(** What [stripWs] leaves has nothing more to strip. *)
Lemma stripWs_back_front (n : nat) :
  forall t, (String.length t <= n)%nat ->
    Js.stripWs true (Js.stripWs true t) = Js.stripWs true t.
Proof.
  induction n as [|n IH]; intros t Hlen.
  - destruct t; [reflexivity | simpl in Hlen; lia].
  - destruct t as [|c1 r1]; [reflexivity |]. simpl in Hlen. cbn [Js.stripWs].
    destruct (Js.ws1 (Js.code c1)) eqn:E1; [apply IH; lia |].
    destruct r1 as [|c2 r2]; [cbn [Js.stripWs]; now rewrite E1 |]. simpl in Hlen.
    destruct (Js.ws2 (Js.code c2) (Js.code c1)) eqn:E2; [apply IH; lia |].
    destruct r2 as [|c3 r3]; [cbn [Js.stripWs]; now rewrite E1, E2 |]. simpl in Hlen.
    destruct (Js.ws3 (Js.code c3) (Js.code c2) (Js.code c1)) eqn:E3; [apply IH; lia |].
    cbn [Js.stripWs]. now rewrite E1, E2, E3.
Qed.

Lemma stripWs_suffix (back : bool) (n : nat) :
  forall s, (String.length s <= n)%nat -> exists p, s = p +:+ Js.stripWs back s.
Proof.
  induction n as [|n IH]; intros s Hlen.
  - destruct s; [now exists "" | simpl in Hlen; lia].
  - destruct s as [|c1 r1]; [now exists "" |]. simpl in Hlen. cbn [Js.stripWs].
    destruct (Js.ws1 (Js.code c1)).
    { destruct (IH r1 ltac:(lia)) as [p Hp].
      exists (String c1 p). now rewrite app_cons_s, <- Hp. }
    destruct r1 as [|c2 r2]; [now exists "" |]. simpl in Hlen.
    destruct (if back then _ else _).
    { destruct (IH r2 ltac:(lia)) as [p Hp].
      exists (String c1 (String c2 p)). now rewrite !app_cons_s, <- Hp. }
    destruct r2 as [|c3 r3]; [now exists "" |]. simpl in Hlen.
    destruct (if back then _ else _).
    { destruct (IH r3 ltac:(lia)) as [p Hp].
      exists (String c1 (String c2 (String c3 p))). now rewrite !app_cons_s, <- Hp. }
    now exists "".
Qed.

(** A text with no white space at its front has none at the front of
    what is left when its end is cut off. *)
Lemma wsLen_prefix (x q : string) : wsLen (x +:+ q) = 0%nat -> wsLen x = 0%nat.
Proof.
  destruct x as [|c1 [|c2 [|c3 r3]]]; [reflexivity |..]; rewrite ?app_cons_s; cbn [wsLen].
  - destruct (Js.ws1 (Js.code c1)); [discriminate | reflexivity].
  - destruct (Js.ws1 (Js.code c1)); [discriminate |].
    destruct (Js.ws2 (Js.code c1) (Js.code c2)); [discriminate | reflexivity].
  - auto.
Qed.

Lemma trim_fixed (s : string) : Js.trim (Js.trim s) = Js.trim s.
Proof.
  unfold Js.trim at 2. unfold Js.trimEnd, Js.trimStart.
  set (y := Js.stripWs false s).
  set (z := Js.stripWs true (String.rev y)).
  assert (Hy : wsLen y = 0%nat) by (apply (stripWs_front (String.length s)); apply Nat.le_refl).
  destruct (stripWs_suffix true (String.length (String.rev y)) (String.rev y)
              (Nat.le_refl _)) as [p Hp]. fold z in Hp.
  assert (Hyx : y = String.rev z +:+ String.rev p).
  { rewrite <- (rev_involutive_s y), Hp. apply rev_app_distr_s. }
  assert (Hx : wsLen (String.rev z) = 0%nat).
  { apply (wsLen_prefix _ (String.rev p)). now rewrite <- Hyx. }
  unfold Js.trim, Js.trimEnd, Js.trimStart.
  rewrite (stripWs_stays _ Hx), rev_involutive_s. f_equal.
  apply (stripWs_back_front (String.length (String.rev y))). apply Nat.le_refl.
Qed.

(* ===================================================================== *)
(** * File names and indented text *)
(* ===================================================================== *)

Lemma replaceSpaces_step (r : string) (inRun : bool) (c1 : ascii) (r1 : string) :
  Js.replaceSpaces r inRun (String c1 r1)
  = match wsLen (String c1 r1) with
    | O => String c1 (Js.replaceSpaces r false r1)
    | S k => (if inRun then "" else r) +:+ Js.replaceSpaces r true (skip k r1)
    end.
Proof.
  cbn [Js.replaceSpaces wsLen].
  destruct (Js.ws1 (Js.code c1)); [reflexivity |].
  destruct r1 as [|c2 r2]; [reflexivity |].
  destruct (Js.ws2 (Js.code c1) (Js.code c2)); [reflexivity |].
  destruct r2 as [|c3 r3]; [reflexivity |].
  destruct (Js.ws3 (Js.code c1) (Js.code c2) (Js.code c3)); reflexivity.
Qed.

Lemma wsLen_bound (s : string) : (wsLen s <= 3)%nat.
Proof.
  destruct s as [|c1 [|c2 [|c3 r3]]]; cbn [wsLen];
    repeat match goal with |- context [if ?b then _ else _] => destruct b end; lia.
Qed.

Lemma skip_length (k : nat) (s : string) : (String.length (skip k s) <= String.length s)%nat.
Proof.
  revert s. induction k as [|k IH]; intros [|c s]; simpl; try lia.
  specialize (IH s). lia.
Qed.

Lemma ws2_underscore (a : N) : Js.ws2 a (Js.code "_") = false.
Proof. unfold Js.ws2. apply andb_false_r. Qed.

Lemma ws3_underscore_mid (a c : N) : Js.ws3 a (Js.code "_") c = false.
Proof.
  unfold Js.ws3. change (Js.code "_") with 95%N.
  repeat match goal with |- context [(a =? ?k)%N] => destruct (a =? k)%N end; reflexivity.
Qed.

Lemma ws3_underscore_last (a b : N) : Js.ws3 a b (Js.code "_") = false.
Proof.
  unfold Js.ws3. change (Js.code "_") with 95%N.
  repeat match goal with |- context [(a =? ?k)%N] => destruct (a =? k)%N end;
  repeat match goal with |- context [(b =? ?k)%N] => destruct (b =? k)%N end; reflexivity.
Qed.

Lemma wsLen_underscore (s : string) : wsLen (String "_" s) = 0%nat.
Proof. destruct s as [|c2 [|c3 r3]]; reflexivity. Qed.

(** Where the front of a text is no white space, it is none either once
    the runs of white space behind its first code unit are replaced. *)
Lemma wsLen_replaceSpaces (c1 : ascii) (r1 : string) :
  wsLen (String c1 r1) = 0%nat ->
  wsLen (String c1 (Js.replaceSpaces "_" false r1)) = 0%nat.
Proof.
  intros H. cbn [wsLen] in H.
  destruct (Js.ws1 (Js.code c1)) eqn:E1; [discriminate |].
  destruct r1 as [|c2 r2]; [cbn [Js.replaceSpaces wsLen]; now rewrite E1 |].
  destruct (Js.ws2 (Js.code c1) (Js.code c2)) eqn:E2; [discriminate |].
  rewrite replaceSpaces_step.
  destruct (wsLen (String c2 r2)) as [|k].
  - cbn [wsLen]. rewrite E1, E2.
    destruct r2 as [|c3 r3]; [reflexivity |].
    destruct (Js.ws3 (Js.code c1) (Js.code c2) (Js.code c3)) eqn:E3; [discriminate |].
    rewrite replaceSpaces_step.
    destruct (wsLen (String c3 r3)) as [|k]; [now rewrite E3 |].
    rewrite app_cons_s. now rewrite ws3_underscore_last.
  - rewrite app_cons_s. cbn [wsLen]. rewrite E1, ws2_underscore.
    destruct ("" +:+ _); [reflexivity |]. now rewrite ws3_underscore_mid.
Qed.

Lemma wsFree_replaceSpaces (n : nat) :
  forall s inRun, (String.length s <= n)%nat ->
    wsFree (Js.replaceSpaces "_" inRun s) = true.
Proof.
  induction n as [|n IH]; intros s inRun Hlen.
  - destruct s; [reflexivity | simpl in Hlen; lia].
  - destruct s as [|c1 r1]; [reflexivity |]. simpl in Hlen.
    rewrite replaceSpaces_step.
    destruct (wsLen (String c1 r1)) as [|k] eqn:E.
    + cbn [wsFree]. rewrite (wsLen_replaceSpaces c1 r1 E). apply IH. lia.
    + assert (Hrest : wsFree (Js.replaceSpaces "_" true (skip k r1)) = true).
      { apply IH. pose proof (skip_length k r1). lia. }
      destruct inRun; [exact Hrest |].
      rewrite app_cons_s, app_nil_l_s. cbn [wsFree].
      now rewrite wsLen_underscore, Hrest.
Qed.

Lemma replaceSpaces_wsFree (r : string) (s : string) :
  wsFree s = true -> forall inRun, Js.replaceSpaces r inRun s = s.
Proof.
  induction s as [|c1 r1 IH]; intros H inRun; [reflexivity |].
  cbn [wsFree] in H. apply andb_true_iff in H as [H0 H1]. apply Nat.eqb_eq in H0.
  rewrite replaceSpaces_step, H0. now rewrite IH.
Qed.

Lemma allChars_app (p : ascii -> bool) (a b : string) :
  allChars p (a +:+ b) = allChars p a && allChars p b.
Proof.
  induction a as [|c a IH]; [reflexivity |].
  rewrite app_cons_s. simpl. now rewrite IH, andb_assoc.
Qed.

Lemma allChars_skip (p : ascii -> bool) (k : nat) (s : string) :
  allChars p s = true -> allChars p (skip k s) = true.
Proof.
  revert s. induction k as [|k IH]; intros [|c s] H; simpl; auto.
  simpl in H. apply andb_true_iff in H as [_ H]. now apply IH.
Qed.

Lemma allChars_replaceSpaces (p : ascii -> bool) (n : nat) :
  p "_"%char = true ->
  forall s inRun, (String.length s <= n)%nat -> allChars p s = true ->
    allChars p (Js.replaceSpaces "_" inRun s) = true.
Proof.
  intros Hp. induction n as [|n IH]; intros s inRun Hlen Hs.
  - destruct s; [reflexivity | simpl in Hlen; lia].
  - destruct s as [|c1 r1]; [reflexivity |]. simpl in Hlen.
    simpl in Hs. apply andb_true_iff in Hs as [Hc Hr].
    rewrite replaceSpaces_step.
    destruct (wsLen (String c1 r1)) as [|k].
    + simpl. rewrite Hc. apply IH; [lia | exact Hr].
    + rewrite allChars_app. apply andb_true_iff. split.
      * destruct inRun; [reflexivity |]. simpl. now rewrite Hp.
      * apply IH; [pose proof (skip_length k r1); lia | now apply allChars_skip].
Qed.

Lemma allChars_replaceClass (cls : ascii -> bool) (s : string) :
  cls "_"%char = false ->
  allChars (fun c => negb (cls c)) (Js.replaceClass cls "_" s) = true.
Proof.
  intros Hu. induction s as [|a s IH]; [reflexivity |]. simpl.
  destruct (cls a) eqn:E.
  - rewrite app_cons_s, app_nil_l_s. simpl. now rewrite Hu, IH.
  - simpl. now rewrite E, IH.
Qed.

Lemma replaceClass_allowed (cls : ascii -> bool) (r s : string) :
  allChars (fun c => negb (cls c)) s = true -> Js.replaceClass cls r s = s.
Proof.
  induction s as [|a s IH]; [reflexivity |]. simpl. intros H.
  apply andb_true_iff in H as [Ha Hs]. apply negb_true_iff in Ha. rewrite Ha.
  now rewrite IH.
Qed.

Lemma wsFree_app_r (a b : string) : wsFree (a +:+ b) = true -> wsFree b = true.
Proof.
  induction a as [|c a IH]; [now rewrite app_nil_l_s |].
  rewrite app_cons_s. cbn [wsFree]. intros H. apply andb_true_iff in H as [_ H]. auto.
Qed.

Lemma wsFree_front (s : string) : wsFree s = true -> wsLen s = 0%nat.
Proof.
  destruct s as [|c s]; [reflexivity |]. cbn [wsFree]. intros H.
  apply andb_true_iff in H as [H _]. now apply Nat.eqb_eq in H.
Qed.

(** [trim] leaves a text with no white space in it as it is. *)
Lemma trim_wsFree (s : string) : wsFree s = true -> Js.trim s = s.
Proof.
  intros H. unfold Js.trim, Js.trimStart, Js.trimEnd.
  rewrite (stripWs_stays s (wsFree_front s H)).
  rewrite <- (rev_involutive_s s) at 2. f_equal.
  apply stripWs_back_stays.
  - intros c1 r1 E. apply (f_equal String.rev) in E.
    rewrite rev_involutive_s, rev_cons_s in E. rewrite E in H.
    apply wsFree_app_r, wsFree_front in H. cbn [wsLen] in H.
    destruct (Js.ws1 (Js.code c1)); [discriminate | reflexivity].
  - intros c1 c2 r2 E. apply (f_equal String.rev) in E.
    rewrite rev_involutive_s, !rev_cons_s, app_assoc_s in E. rewrite E in H.
    apply wsFree_app_r, wsFree_front in H.
    rewrite app_cons_s, app_nil_l_s in H. cbn [wsLen] in H.
    destruct (Js.ws1 (Js.code c2)); [discriminate |].
    destruct (Js.ws2 (Js.code c2) (Js.code c1)); [discriminate | reflexivity].
  - intros c1 c2 c3 r3 E. apply (f_equal String.rev) in E.
    rewrite rev_involutive_s, !rev_cons_s, !app_assoc_s in E. rewrite E in H.
    apply wsFree_app_r, wsFree_front in H.
    rewrite !app_cons_s, !app_nil_l_s in H. cbn [wsLen] in H.
    destruct (Js.ws1 (Js.code c3)); [discriminate |].
    destruct (Js.ws2 (Js.code c3) (Js.code c2)); [discriminate |].
    destruct (Js.ws3 (Js.code c3) (Js.code c2) (Js.code c1)); [discriminate | reflexivity].
Qed.

Lemma replaceClass_empty (cls : ascii -> bool) (s : string) :
  Js.replaceClass cls "_" s = "" -> s = "".
Proof.
  destruct s as [|a s]; [reflexivity |]. simpl.
  destruct (cls a); [rewrite app_cons_s |]; discriminate.
Qed.

Lemma replaceSpaces_empty (s : string) : Js.replaceSpaces "_" false s = "" -> s = "".
Proof.
  destruct s as [|c1 r1]; [reflexivity |]. rewrite replaceSpaces_step.
  destruct (wsLen (String c1 r1)); [|rewrite app_cons_s]; discriminate.
Qed.

(** X6: the name [sanitizeFilename] gives is the name with an underscore for
    every character of the class and for every run of white space: the
    final [trim] finds nothing to remove.  The name has no character of
    the class and no white space in it, is left as it is when sanitized
    again, and is empty only for the empty name. *)
Theorem sanitizeFilename_clean (name : string) :
  let out := sanitizeFilename name in
  out = Js.replaceSpaces "_" false (Js.replaceClass illegalInFilename "_" name)
  /\ allChars (fun c => negb (illegalInFilename c)) out = true
  /\ wsFree out = true
  /\ sanitizeFilename out = out
  /\ (out = "" <-> name = "").
Proof.
  intros out.
  set (mid := Js.replaceClass illegalInFilename "_" name).
  set (res := Js.replaceSpaces "_" false mid).
  assert (Hfree : wsFree res = true) by (apply (wsFree_replaceSpaces (String.length mid)); apply Nat.le_refl).
  assert (Hout : out = res) by (unfold out, sanitizeFilename; fold mid; fold res; now apply trim_wsFree).
  assert (Hall : allChars (fun c => negb (illegalInFilename c)) res = true).
  { apply (allChars_replaceSpaces _ (String.length mid)); [reflexivity | apply Nat.le_refl |].
    now apply allChars_replaceClass. }
  rewrite Hout. repeat split; auto.
  - unfold sanitizeFilename.
    rewrite (replaceClass_allowed _ _ res Hall), (replaceSpaces_wsFree _ res Hfree).
    now apply trim_wsFree.
  - intros H. apply replaceSpaces_empty in H. now apply replaceClass_empty in H.
  - intros ->. reflexivity.
Qed.

Lemma split_nonempty (sep : ascii) (s : string) : Js.split sep s <> [].
Proof.
  destruct s as [|c s]; [discriminate |]. simpl.
  destruct (Ascii.eqb c sep); [discriminate |].
  destruct (Js.split sep s); discriminate.
Qed.

Lemma split_pieces (sep : ascii) (s : string) :
  Forall (fun piece => hasChar sep piece = false) (Js.split sep s).
Proof.
  induction s as [|c s IH]; simpl; [repeat constructor |].
  destruct (Ascii.eqb c sep) eqn:E; [constructor; [reflexivity | exact IH] |].
  destruct (Js.split sep s) as [|piece pieces]; [repeat constructor; simpl; now rewrite E |].
  apply Forall_cons in IH as [Hp Hps]. constructor; [|exact Hps].
  simpl. now rewrite E, Hp.
Qed.

Lemma split_piece (sep : ascii) (a : string) :
  hasChar sep a = false -> Js.split sep a = [a].
Proof.
  induction a as [|c a IH]; [reflexivity |]. simpl. intros H.
  apply orb_false_iff in H as [Hc Ha]. rewrite Hc. now rewrite IH.
Qed.

Lemma split_app (sep : ascii) (a rest : string) :
  hasChar sep a = false ->
  Js.split sep (a +:+ String sep rest) = a :: Js.split sep rest.
Proof.
  induction a as [|c a IH]; intros H.
  - rewrite app_nil_l_s. simpl. now rewrite Ascii.eqb_refl.
  - rewrite app_cons_s. simpl in *. apply orb_false_iff in H as [Hc Ha].
    rewrite Hc. now rewrite IH.
Qed.

(** [split] undoes [join]. *)
Lemma split_join (sep : ascii) (l : list string) :
  l <> [] -> Forall (fun piece => hasChar sep piece = false) l ->
  Js.split sep (Js.join (String sep "") l) = l.
Proof.
  induction l as [|a l IH]; [congruence |]. intros _ H.
  apply Forall_cons in H as [Ha Hl].
  destruct l as [|b l]; [now apply split_piece |].
  cbn [Js.join]. rewrite app_cons_s, app_nil_l_s.
  rewrite split_app by assumption. f_equal. now apply IH.
Qed.

Lemma join_cons (sep a : string) (l : list string) :
  l <> [] -> Js.join sep (a :: l) = a +:+ sep +:+ Js.join sep l.
Proof. destruct l; [congruence | reflexivity]. Qed.

Lemma join_cons_head (sep : string) (c : ascii) (a : string) (l : list string) :
  Js.join sep (String c a :: l) = String c (Js.join sep (a :: l)).
Proof. destruct l; reflexivity. Qed.

(** [join] undoes [split]. *)
Lemma join_split (sep : ascii) (s : string) :
  Js.join (String sep "") (Js.split sep s) = s.
Proof.
  induction s as [|c s IH]; [reflexivity |]. simpl.
  pose proof (split_nonempty sep s) as Hne.
  destruct (Ascii.eqb_spec c sep) as [->|_].
  - rewrite join_cons by assumption. now rewrite IH.
  - destruct (Js.split sep s) as [|piece pieces]; [congruence |].
    now rewrite join_cons_head, IH.
Qed.

Lemma hasChar_repeat (c : ascii) (s : string) (n : nat) :
  hasChar c s = false -> hasChar c (Js.repeat s n) = false.
Proof.
  intros H. induction n as [|n IH]; [reflexivity |]. simpl. now rewrite hasChar_app, H, IH.
Qed.

Ltac bool_prop H :=
  repeat first [ rewrite orb_true_iff in H | rewrite andb_true_iff in H
               | rewrite N.eqb_eq in H | rewrite N.leb_le in H ].

Lemma toStringIndent_split (b : Buffer.t) (indent : nat) :
  Js.split (Js.chr 10) (Buffer.toStringIndent b (S indent))
  = Buffer.indentLine (Js.repeat "   " (S indent)) <$> Js.split (Js.chr 10) (Buffer.toString b).
Proof.
  unfold Buffer.toStringIndent, Buffer.toString.
  apply (split_join (Js.chr 10)).
  - pose proof (split_nonempty (Js.chr 10) (Js.concat (Buffer.parts b))).
    destruct (Js.split _ _); [congruence | discriminate].
  - apply Forall_fmap. eapply Forall_impl; [apply split_pieces |].
    intros line Hline. unfold compose, Buffer.indentLine.
    destruct (Js.trim line); [exact Hline |].
    rewrite hasChar_app, Hline. now rewrite hasChar_repeat.
Qed.

Lemma someChar_app (p : ascii -> bool) (a b : string) :
  someChar p (a +:+ b) = someChar p a || someChar p b.
Proof.
  induction a as [|x a IH]; [reflexivity |].
  rewrite app_cons_s. simpl. now rewrite IH, orb_assoc.
Qed.

Lemma someChar_rev (p : ascii -> bool) (s : string) :
  someChar p (String.rev s) = someChar p s.
Proof.
  induction s as [|c s IH]; [reflexivity |].
  rewrite rev_cons_s, someChar_app, IH. simpl. rewrite orb_false_r. apply orb_comm.
Qed.

Lemma ws1_not_printable (c : ascii) : Js.ws1 (Js.code c) = true -> printable c = false.
Proof.
  unfold Js.ws1, printable. intros H. apply not_true_is_false. intros P.
  bool_prop H. bool_prop P. lia.
Qed.

Lemma ws2_not_printable (c1 c2 : ascii) :
  Js.ws2 (Js.code c1) (Js.code c2) = true -> printable c1 = false /\ printable c2 = false.
Proof.
  unfold Js.ws2, printable. intros H.
  bool_prop H.
  split; apply not_true_is_false; intros P; bool_prop P; lia.
Qed.

Lemma ws3_not_printable (c1 c2 c3 : ascii) :
  Js.ws3 (Js.code c1) (Js.code c2) (Js.code c3) = true ->
  printable c1 = false /\ printable c2 = false /\ printable c3 = false.
Proof.
  unfold Js.ws3, printable. intros H.
  bool_prop H.
  repeat split; apply not_true_is_false; intros P; bool_prop P; lia.
Qed.

Lemma stripWs_keeps_printable (back : bool) (n : nat) :
  forall s, (String.length s <= n)%nat ->
    someChar printable s = true -> someChar printable (Js.stripWs back s) = true.
Proof.
  induction n as [|n IH]; intros s Hlen H.
  - destruct s; [exact H | simpl in Hlen; lia].
  - destruct s as [|c1 r1]; [exact H |]. simpl in Hlen. cbn [Js.stripWs].
    destruct (Js.ws1 (Js.code c1)) eqn:E1.
    + apply ws1_not_printable in E1. cbn [someChar] in H. rewrite E1 in H.
      apply IH; [lia | exact H].
    + destruct r1 as [|c2 r2]; [exact H |]. simpl in Hlen.
      destruct (if back then Js.ws2 (Js.code c2) (Js.code c1)
                else Js.ws2 (Js.code c1) (Js.code c2)) eqn:E2.
      * assert (P : printable c1 = false /\ printable c2 = false).
        { destruct back; apply ws2_not_printable in E2; tauto. }
        destruct P as [P1 P2]. cbn [someChar] in H. rewrite P1, P2 in H.
        apply IH; [lia | exact H].
      * destruct r2 as [|c3 r3]; [exact H |]. simpl in Hlen.
        destruct (if back then Js.ws3 (Js.code c3) (Js.code c2) (Js.code c1)
                  else Js.ws3 (Js.code c1) (Js.code c2) (Js.code c3)) eqn:E3; [|exact H].
        assert (P : printable c1 = false /\ printable c2 = false /\ printable c3 = false).
        { destruct back; apply ws3_not_printable in E3; tauto. }
        destruct P as (P1 & P2 & P3). cbn [someChar] in H. rewrite P1, P2, P3 in H.
        apply IH; [lia | exact H].
Qed.

(** A text with a printable character is not white space alone. *)
Lemma trim_printable (s : string) : someChar printable s = true -> Js.trim s <> "".
Proof.
  intros H. unfold Js.trim, Js.trimEnd, Js.trimStart.
  assert (Hp : someChar printable
                 (String.rev (Js.stripWs true (String.rev (Js.stripWs false s)))) = true).
  { rewrite someChar_rev.
    apply (stripWs_keeps_printable true _ _ (Nat.le_refl _)).
    rewrite someChar_rev.
    now apply (stripWs_keeps_printable false _ _ (Nat.le_refl _)). }
  intros E. rewrite E in Hp. discriminate Hp.
Qed.

(** A text of spaces and tabs is white space alone. *)
Lemma trim_blank (s : string) : allChars blankChar s = true -> Js.trim s = "".
Proof.
  intros H. assert (Hs : Js.stripWs false s = "").
  { induction s as [|c s IH]; [reflexivity |]. cbn [allChars] in H.
    apply andb_true_iff in H as [Hc Hs]. cbn [Js.stripWs].
    assert (Hw : Js.ws1 (Js.code c) = true).
    { unfold blankChar in Hc. apply orb_true_iff in Hc as [Hc|Hc];
        apply Ascii.eqb_eq in Hc; subst c; reflexivity. }
    rewrite Hw. now apply IH. }
  unfold Js.trim, Js.trimStart. now rewrite Hs.
Qed.

(** X7: [toString] with the indent [0], or none, is the plain [toString].
    With an indent above 0 the text keeps its lines, and a line is given
    the indentation, three spaces for each level, exactly when trimming
    it leaves something: a line with a printable character is indented,
    and an empty line or a line of spaces and tabs is left as it is.  The
    lines of the text, joined again, are the text. *)
Theorem toString_indent_lines (b : Buffer.t) (indent : nat) :
  Buffer.toStringIndent b 0 = Buffer.toString b
  /\ List.length (Js.split (Js.chr 10) (Buffer.toStringIndent b (S indent)))
     = List.length (Js.split (Js.chr 10) (Buffer.toString b))
  /\ (forall k line,
        Js.split (Js.chr 10) (Buffer.toString b) !! k = Some line ->
        exists line',
          Js.split (Js.chr 10) (Buffer.toStringIndent b (S indent)) !! k = Some line'
          /\ (Js.trim line = "" -> line' = line)
          /\ (Js.trim line <> "" -> line' = Js.repeat "   " (S indent) +:+ line)
          /\ (allChars blankChar line = true -> line' = line)
          /\ (someChar printable line = true ->
              line' = Js.repeat "   " (S indent) +:+ line))
  /\ Js.join Js.LF (Js.split (Js.chr 10) (Buffer.toString b)) = Buffer.toString b.
Proof.
  split; [reflexivity |]. rewrite toStringIndent_split.
  split; [apply length_fmap |]. split; [|apply join_split].
  intros k line Hk. rewrite list_lookup_fmap, Hk. eexists. split; [reflexivity |].
  assert (Hblank : Js.trim line = "" ->
                   Buffer.indentLine (Js.repeat "   " (S indent)) line = line).
  { intros E. unfold Buffer.indentLine. now rewrite E. }
  assert (Hfull : Js.trim line <> "" ->
                  Buffer.indentLine (Js.repeat "   " (S indent)) line
                  = Js.repeat "   " (S indent) +:+ line).
  { intros E. unfold Buffer.indentLine. destruct (Js.trim line); [congruence | reflexivity]. }
  split; [exact Hblank |]. split; [exact Hfull |]. split.
  - intros H. now apply Hblank, trim_blank.
  - intros H. now apply Hfull, trim_printable.
Qed.

(* ===================================================================== *)
(** * References to downloaded files *)
(* ===================================================================== *)

Lemma getSubstitution_plain (matched before after rep : string) :
  hasChar "$" rep = false -> Js.getSubstitution matched before after rep = rep.
Proof.
  induction rep as [|c rep IH]; [reflexivity |]. simpl. intros H.
  apply orb_false_iff in H as [Hc Hr]. rewrite Hc. now rewrite IH.
Qed.

Lemma occurrences_app_ge (pat a s : string) :
  (occurrences pat s <= occurrences pat (a +:+ s))%nat.
Proof.
  induction a as [|c a IH]; [rewrite app_nil_l_s; lia |].
  rewrite app_cons_s. cbn [occurrences]. lia.
Qed.

(** A text in which the pattern does not occur is left as it is. *)
Lemma replaceFrom_absent (pat rep : string) (s : string) :
  occurrences pat s = 0%nat -> forall before, Js.replaceFrom pat rep before 0 s = s.
Proof.
  induction s as [|c s IH]; intros H before; [reflexivity |].
  cbn [occurrences] in H. cbn [Js.replaceFrom].
  destruct (String.prefix pat (String c s)); [discriminate |].
  rewrite IH; [reflexivity | lia].
Qed.

(** The part of the text before the first occurrence is passed
    through. *)
Lemma replaceFrom_pass (pat rep : string) (a s : string) :
  occurrences pat (a +:+ s) = occurrences pat s ->
  forall before,
    Js.replaceFrom pat rep before 0 (a +:+ s)
    = a +:+ Js.replaceFrom pat rep (String.rev a +:+ before) 0 s.
Proof.
  induction a as [|c a IH]; intros H before; [reflexivity |].
  rewrite app_cons_s in *. cbn [occurrences] in H.
  pose proof (occurrences_app_ge pat a s) as Hge.
  cbn [Js.replaceFrom].
  destruct (String.prefix pat (String c (a +:+ s))); [lia |].
  rewrite IH by lia. rewrite rev_cons_s, app_assoc_s. reflexivity.
Qed.

(** The rest of an occurrence that was replaced is passed over. *)
Lemma replaceFrom_skip (pat rep : string) (p s : string) :
  forall before,
    Js.replaceFrom pat rep before (String.length p) (p +:+ s)
    = Js.replaceFrom pat rep (String.rev p +:+ before) 0 s.
Proof.
  induction p as [|c p IH]; intros before; [reflexivity |].
  rewrite app_cons_s. cbn [String.length Js.replaceFrom].
  rewrite IH, rev_cons_s, app_assoc_s. reflexivity.
Qed.

(** The one occurrence of a pattern is replaced by a replacement text
    without dollar sign as it is written. *)
Lemma replaceAll_once (pat rep a b : string) :
  pat <> "" -> hasChar "$" rep = false ->
  occurrences pat (a +:+ pat +:+ b) = 1%nat ->
  Js.replaceAll pat rep (a +:+ pat +:+ b) = a +:+ rep +:+ b.
Proof.
  intros Hne Hrep Hocc. destruct pat as [|c p]; [congruence |].
  assert (Hhere : String.prefix (String c p) (String c p +:+ b) = true) by apply prefix_app.
  assert (Hrest : occurrences (String c p) (p +:+ b) = 0%nat
                  /\ occurrences (String c p) (String c p +:+ b) = 1%nat).
  { pose proof (occurrences_app_ge (String c p) a (String c p +:+ b)) as Hge.
    rewrite Hocc in Hge. rewrite app_cons_s in *. cbn [occurrences] in *.
    rewrite Hhere in *. lia. }
  destruct Hrest as [Hp Hcp].
  assert (Hb : occurrences (String c p) b = 0%nat).
  { pose proof (occurrences_app_ge (String c p) p b). lia. }
  unfold Js.replaceAll. rewrite replaceFrom_pass by lia. f_equal.
  rewrite app_cons_s in *. cbn [Js.replaceFrom]. rewrite Hhere.
  rewrite getSubstitution_plain by assumption. f_equal.
  cbn [String.length].
  replace (S (String.length p) - 1)%nat with (String.length p) by lia.
  rewrite replaceFrom_skip.
  now apply replaceFrom_absent.
Qed.

Lemma replaceAll_absent (pat rep s : string) :
  occurrences pat s = 0%nat -> Js.replaceAll pat rep s = s.
Proof. intros H. now apply replaceFrom_absent. Qed.

(** X8: a text that refers to none of the tokens of the map is returned as
    it is. *)
Theorem replaceFileTokens_no_reference (markdown : string)
    (tokenToPath : list (string * string)) :
  (forall tok localPath, (tok, localPath) ∈ tokenToPath ->
     occurrences ("src=" +:+ Js.quoted tok) markdown = 0%nat
     /\ occurrences ("](" +:+ tok +:+ ")") markdown = 0%nat) ->
  replaceFileTokens markdown tokenToPath = markdown.
Proof.
  unfold replaceFileTokens.
  induction tokenToPath as [|[tok localPath] rest IH]; intros H; [reflexivity |].
  cbn [foldl].
  assert (Hin : (tok, localPath) ∈ (tok, localPath) :: rest) by (apply elem_of_cons; now left).
  destruct (H tok localPath Hin) as [H1 H2].
  rewrite (replaceAll_absent _ ("src=" +:+ Js.quoted localPath) markdown H1).
  rewrite (replaceAll_absent _ ("](" +:+ localPath +:+ ")") markdown H2).
  apply IH. intros t p Ht. apply (H t p). apply elem_of_cons. now right.
Qed.

Lemma replaceFileTokens_no_reference_witness :
  replaceFileTokens ("# Title" +:+ Js.LF) [("boxcnAbc", "images/boxcnAbc.png")]
  = "# Title" +:+ Js.LF.
Proof.
  apply replaceFileTokens_no_reference.
  intros tok localPath Hin. apply list_elem_of_singleton in Hin.
  injection Hin as -> ->. split; vm_compute; reflexivity.
Defined.

(** X9: the reference to an image whose token is in the map with a path
    without dollar sign, where it is the one reference to that token in
    the text, is replaced by the reference to the path. *)
Theorem replaceFileTokens_image_reference (tok localPath before after : string) :
  hasChar "$" localPath = false ->
  occurrences ("src=" +:+ Js.quoted tok)
              (before +:+ ("src=" +:+ Js.quoted tok) +:+ after) = 1%nat ->
  occurrences ("](" +:+ tok +:+ ")")
              (before +:+ ("src=" +:+ Js.quoted localPath) +:+ after) = 0%nat ->
  replaceFileTokens (before +:+ ("src=" +:+ Js.quoted tok) +:+ after) [(tok, localPath)]
  = before +:+ ("src=" +:+ Js.quoted localPath) +:+ after.
Proof.
  intros Hd H1 H2. unfold replaceFileTokens. cbn [foldl].
  rewrite replaceAll_once; [now apply replaceAll_absent | discriminate | | exact H1].
  unfold Js.quoted. rewrite !hasChar_app, Hd. reflexivity.
Qed.

Lemma replaceFileTokens_image_reference_witness :
  replaceFileTokens ("<img src=" +:+ Js.quoted "boxcnAbc" +:+ " />" +:+ Js.LF)
                    [("boxcnAbc", "images/boxcnAbc.png")]
  = "<img src=" +:+ Js.quoted "images/boxcnAbc.png" +:+ " />" +:+ Js.LF.
Proof.
  apply (replaceFileTokens_image_reference "boxcnAbc" "images/boxcnAbc.png"
           "<img " (" />" +:+ Js.LF)); vm_compute; reflexivity.
Defined.

(* ===================================================================== *)
(** * Inline text *)
(* ===================================================================== *)

Ltac bind_inv H :=
  repeat first
    [ apply ret_Ok in H as [? ?]
    | let a := fresh "a" in let r := fresh "r" in let H1 := fresh "H" in
      apply bind_Ok in H as (a & r & H1 & H) ].

Lemma styleWrappers_state (style : option TextElementStyle) (r : Renderer)
    (w : string * string * bool) (r' : Renderer) :
  styleWrappers style r = Ok w r' -> r' = r.
Proof.
  unfold styleWrappers, ret, throw. intros H.
  repeat match type of H with
         | context [match ?x with _ => _ end] => destruct x
         end; congruence.
Qed.

Lemma parseTextRun_state (buf : Buffer.t) (run : TextRun) (r : Renderer)
    (buf' : Buffer.t) (r' : Renderer) :
  parseTextRun buf run r = Ok buf' r' -> r' = r.
Proof.
  unfold parseTextRun. intros H.
  apply bind_Ok in H as ([[pre post] esc] & r1 & H1 & H).
  apply styleWrappers_state in H1 as ->.
  apply bind_Ok in H as (cur & r2 & H2 & H).
  unfold getCurrentBlock in H2. injection H2 as <- <-.
  repeat match type of H with
         | context [let '(_, _) := ?x in _] => destruct x
         end.
  unfold ret in H. congruence.
Qed.

Lemma parseTextElement_state (buf : Buffer.t) (el : TextElement) (inline : bool)
    (r : Renderer) (buf' : Buffer.t) (r' : Renderer) :
  parseTextElement buf el inline r = Ok buf' r' -> r' = r.
Proof.
  unfold parseTextElement. intros H.
  destruct (text_run el); [now apply parseTextRun_state in H |].
  destruct (equation el); [unfold ret in H; congruence |].
  destruct (mention_doc el) as [m|]; [|unfold ret in H; congruence].
  destruct (Js.decodeURIComponent _); unfold ret, throw in H; congruence.
Qed.

Lemma forEach_state {A B} (f : nat -> A -> B -> M B) (l : list A) :
  (forall idx x acc r acc' r', f idx x acc r = Ok acc' r' -> r' = r) ->
  forall idx acc r acc' r', forEach f idx l acc r = Ok acc' r' -> r' = r.
Proof.
  intros Hf. induction l as [|x l IH]; intros idx acc r acc' r' H; cbn [forEach] in H.
  - unfold ret in H. congruence.
  - apply bind_Ok in H as (acc1 & r1 & H1 & H).
    apply Hf in H1 as ->. now apply IH in H.
Qed.

Lemma parseTextElements_state (buf : Buffer.t) (els : list TextElement) (r : Renderer)
    (buf' : Buffer.t) (r' : Renderer) :
  parseTextElements buf els r = Ok buf' r' -> r' = r.
Proof.
  unfold parseTextElements. apply forEach_state.
  intros idx el acc r0 acc' r0'. apply parseTextElement_state.
Qed.

(** X10: composing the inline elements of a text block changes nothing in the
    renderer: no file token is added for an inline file, in particular;
    and an element that is neither a run, an equation nor a mention (an
    inline file, an inline block) is passed over, nothing written. *)
Theorem inline_text_keeps_renderer (buf : Buffer.t) (els : list TextElement)
    (r : Renderer) (buf' : Buffer.t) (r' : Renderer) :
  parseTextElements buf els r = Ok buf' r' ->
  r' = r
  /\ (forall el inline,
        text_run el = None -> equation el = None -> mention_doc el = None ->
        parseTextElement buf el inline r = Ok buf r).
Proof.
  intros H. split; [now apply parseTextElements_state in H |].
  intros el inline H1 H2 H3. unfold parseTextElement. now rewrite H1, H2, H3.
Qed.

(** X11: only the first flag that is set, in the order bold, italic,
    strikethrough, underline, inline code, counts for a run: the flags
    after it, the colours and the link make no difference, and the URL of
    the link is not decoded. *)
Theorem first_flag_wins (k : InlineStyle) (st : TextElementStyle) (text : string)
    (buf : Buffer.t) (r : Renderer) :
  appliedStyle st = Some k ->
  parseTextRun buf {| content := text; text_element_style := Some st |} r
  = parseTextRun buf {| content := text; text_element_style := Some (onlyStyle k) |} r.
Proof.
  destruct st as [b i s u c bg tc l]. unfold appliedStyle. cbn.
  intros H. unfold parseTextRun, styleWrappers, colonWrappers. cbn.
  destruct b; [injection H as <-; reflexivity |].
  destruct i; [injection H as <-; reflexivity |].
  destruct s; [injection H as <-; reflexivity |].
  destruct u; [injection H as <-; reflexivity |].
  destruct c; [injection H as <-; reflexivity | discriminate].
Qed.

Lemma first_flag_wins_witness :
  parseTextRun Buffer.new
    {| content := "go";
       text_element_style :=
         Some {| bold := true; italic := true; strikethrough := false; underline := false;
                 inline_code := false; background_color := 3; text_color := 1;
                 link := Some {| url := "https://example.com/100%" |} |} |} newRenderer
  = parseTextRun Buffer.new
      {| content := "go"; text_element_style := Some (onlyStyle SBold) |} newRenderer.
Proof. apply first_flag_wins. reflexivity. Defined.

Lemma inline_text_keeps_renderer_witness :
  newRenderer = newRenderer
  /\ (forall el inline,
        text_run el = None -> equation el = None -> mention_doc el = None ->
        parseTextElement Buffer.new el inline newRenderer = Ok Buffer.new newRenderer).
Proof.
  apply (inline_text_keeps_renderer Buffer.new [plainRun "a"] newRenderer
           (Buffer.write (Buffer.write (Buffer.write Buffer.new "") "a") "")).
  reflexivity.
Defined.

(** An unstyled run is written as its text, escaped outside a code
    block. *)
Lemma plainRun_written (buf : Buffer.t) (text : string) (inline : bool) (r : Renderer) :
  exists buf',
    parseTextElement buf (plainRun text) inline r = Ok buf' r
    /\ Buffer.toString buf' = Buffer.toString buf +:+ shownPlain r text.
Proof.
  unfold parseTextElement, plainRun, parseTextRun, styleWrappers, shownPlain. cbn.
  destruct (isCode (currentBlock r)); cbn;
    destruct (endsInColon _); cbn;
    (eexists; split; [reflexivity |]);
    rewrite !toString_write, !app_nil_r_s; reflexivity.
Qed.

Lemma plainRuns_written (inline : bool) (texts : list string) :
  forall idx buf r,
  exists buf',
    forEach (fun _ el buf => parseTextElement buf el inline) idx (plainRun <$> texts) buf r
    = Ok buf' r
    /\ Buffer.toString buf' = Buffer.toString buf +:+ Js.concat (shownPlain r <$> texts).
Proof.
  induction texts as [|text texts IH]; intros idx buf r.
  - exists buf. split; [reflexivity |]. simpl. now rewrite app_nil_r_s.
  - destruct (plainRun_written buf text inline r) as (buf1 & H1 & Hs1).
    destruct (IH (S idx) buf1 r) as (buf' & H' & Hs').
    exists buf'. split.
    + cbn [fmap list_fmap forEach]. unfold bind. now rewrite H1.
    + rewrite Hs', Hs1. cbn [fmap list_fmap Js.concat]. now rewrite app_assoc_s.
Qed.

Lemma equation_written (buf : Buffer.t) (tex : string) (inline : bool) (r : Renderer) :
  exists buf',
    parseTextElement buf (equationElement tex) inline r = Ok buf' r
    /\ Buffer.toString buf'
       = Buffer.toString buf +:+ (if inline then "$" else "$$") +:+ Js.trimEnd tex
         +:+ (if inline then "$" else "$$").
Proof.
  eexists. split; [reflexivity |]. rewrite !toString_write. now rewrite !app_assoc_s.
Qed.

Lemma forEach_app {A B} (f : nat -> A -> B -> M B) (l1 l2 : list A) :
  forall idx acc r,
    forEach f idx (l1 ++ l2) acc r
    = (let* acc' := forEach f idx l1 acc in forEach f (idx + List.length l1) l2 acc') r.
Proof.
  induction l1 as [|x l1 IH]; intros idx acc r.
  - cbn. now rewrite Nat.add_0_r.
  - cbn [app forEach List.length]. unfold bind in *.
    destruct (f idx x acc r) as [acc1 r1| |]; [|reflexivity..].
    rewrite IH. now replace (S idx + List.length l1)%nat
                  with (idx + S (List.length l1))%nat by lia.
Qed.

Lemma app_split_s (a b c d : string) :
  a +:+ b = c +:+ d ->
  (exists m, c = a +:+ m /\ b = m +:+ d)
  \/ (exists m, m <> "" /\ a = c +:+ m /\ d = m +:+ b).
Proof.
  revert c. induction a as [|x a IH]; intros c H.
  - left. exists c. now rewrite app_nil_l_s in *.
  - destruct c as [|y c].
    + right. exists (String x a). rewrite app_nil_l_s in *. repeat split; [discriminate | now symmetry].
    + rewrite !app_cons_s in H. injection H as -> H.
      destruct (IH c H) as [(m & -> & ->)|(m & Hm & -> & ->)].
      * left. exists m. now rewrite app_cons_s.
      * right. exists m. now rewrite app_cons_s.
Qed.

Lemma suffix_has_last (x : ascii) (p c m : string) :
  m <> "" -> p +:+ String x "" = c +:+ m -> hasChar x m = true.
Proof.
  revert c. induction p as [|y p IH]; intros c Hm H.
  - rewrite app_nil_l_s in H. destruct c as [|z c].
    + rewrite app_nil_l_s in H. subst m. simpl. now rewrite Ascii.eqb_refl.
    + rewrite app_cons_s in H. injection H as _ H.
      destruct c; [rewrite app_nil_l_s in H; congruence | rewrite app_cons_s in H; discriminate].
  - rewrite app_cons_s in H. destruct c as [|z c].
    + rewrite app_nil_l_s in H. subst m. simpl.
      rewrite hasChar_app. simpl. rewrite Ascii.eqb_refl. now rewrite !orb_true_r.
    + rewrite app_cons_s in H. injection H as _ H. now apply (IH c).
Qed.

(** A prefix that ends with a dollar sign stays when a suffix without
    dollar sign is removed. *)
Lemma keep_prefix (p rest a pre : string) :
  pre <> "" -> hasChar "$" pre = false ->
  (p +:+ "$") +:+ rest = a +:+ pre ->
  exists rest', a = (p +:+ "$") +:+ rest'.
Proof.
  intros Hne Hpre H. destruct (app_split_s _ _ _ _ H) as [(m & -> & _)|(m & Hm & Hp & ->)].
  - now exists m.
  - apply (suffix_has_last "$" p a m Hm) in Hp.
    rewrite hasChar_app, Hp in Hpre. discriminate.
Qed.

Lemma trimLast_keeps (p : string) (buf : Buffer.t) (pre : string) :
  hasChar "$" pre = false ->
  keeps (p +:+ "$") buf ->
  keeps (p +:+ "$") (Buffer.trimLastIfEndsWith buf pre).1.
Proof.
  intros Hpre [rest Hbuf]. destruct (String.eqb_spec pre "") as [->|Hne].
  - unfold Buffer.trimLastIfEndsWith. cbn. now exists rest.
  - destruct (Js.endsWith (Buffer.toString buf) pre) eqn:E.
    + apply endsWith_spec in E as [a Ha].
      destruct (trimLast_hit buf a pre Hne Ha) as (b1 & -> & Hb1). cbn [fst].
      rewrite Ha in Hbuf. symmetry in Hbuf.
      destruct (keep_prefix p rest a pre Hne Hpre Hbuf) as [rest' ->].
      exists rest'. exact Hb1.
    + rewrite (trimLast_miss buf pre E). now exists rest.
Qed.

Lemma keeps_write (p : string) (buf : Buffer.t) (s : string) :
  keeps p buf -> keeps p (Buffer.write buf s).
Proof.
  intros [rest H]. exists (rest +:+ s). now rewrite toString_write, H, app_assoc_s.
Qed.

Lemma styleWrappers_no_dollar (style : option TextElementStyle) (r : Renderer)
    (pre post : string) (esc : bool) (r' : Renderer) (b : bool) :
  styleWrappers style r = Ok (pre, post, esc) r' ->
  hasChar "$" (if b then colonWrappers style (pre, post) else (pre, post)).1 = false.
Proof.
  unfold styleWrappers, colonWrappers, ret, throw. intros H.
  destruct style as [st|]; [|injection H as <- _ _ _; now destruct b].
  destruct (bold st); [injection H as <- _ _ _; now destruct b |].
  destruct (italic st); [injection H as <- _ _ _; now destruct b |].
  destruct (strikethrough st); [injection H as <- _ _ _; now destruct b |].
  destruct (underline st); [injection H as <- _ _ _; now destruct b |].
  destruct (inline_code st); [injection H as <- _ _ _; now destruct b |].
  destruct (link st) as [l|]; [|injection H as <- _ _ _; now destruct b].
  destruct (Js.decodeURIComponent (url l)); [|discriminate].
  injection H as <- _ _ _. now destruct b.
Qed.

Lemma parseTextRun_keeps (p : string) (buf : Buffer.t) (run : TextRun) (r : Renderer)
    (buf' : Buffer.t) (r' : Renderer) :
  keeps (p +:+ "$") buf ->
  parseTextRun buf run r = Ok buf' r' -> keeps (p +:+ "$") buf'.
Proof.
  intros Hk H. unfold parseTextRun in H.
  apply bind_Ok in H as ([[pre post] esc] & r0 & Hw & H).
  apply bind_Ok in H as (cur & r1 & _ & H).
  set (plainText := if esc && negb (isCode cur) then escapeHTMLTags (content run)
                    else content run) in H.
  pose proof (styleWrappers_no_dollar _ _ _ _ _ _ (endsInColon plainText) Hw) as Hpre.
  destruct (if endsInColon plainText
            then colonWrappers (text_element_style run) (pre, post)
            else (pre, post)) as [pre' post'].
  cbn [fst] in Hpre.
  pose proof (trimLast_keeps p buf pre' Hpre Hk) as Hb.
  destruct (Buffer.trimLastIfEndsWith buf pre') as [b1 merged]. cbn [fst] in Hb.
  apply ret_Ok in H as [<- _].
  destruct merged; repeat apply keeps_write; exact Hb.
Qed.

Lemma parseTextElement_keeps (p : string) (buf : Buffer.t) (el : TextElement)
    (inline : bool) (r : Renderer) (buf' : Buffer.t) (r' : Renderer) :
  keeps (p +:+ "$") buf ->
  parseTextElement buf el inline r = Ok buf' r' -> keeps (p +:+ "$") buf'.
Proof.
  intros Hk H. unfold parseTextElement in H.
  destruct (text_run el) as [run|]; [eapply parseTextRun_keeps; eauto |].
  destruct (equation el) as [eq|].
  { apply ret_Ok in H as [<- _]. now repeat apply keeps_write. }
  destruct (mention_doc el) as [m|]; [|apply ret_Ok in H as [<- _]; exact Hk].
  destruct (Js.decodeURIComponent _); [|discriminate].
  apply ret_Ok in H as [<- _]. now apply keeps_write.
Qed.

Lemma forEach_keeps (p : string) (inline : bool) (els : list TextElement) :
  forall idx buf r buf' r',
    keeps (p +:+ "$") buf ->
    forEach (fun _ el buf => parseTextElement buf el inline) idx els buf r = Ok buf' r' ->
    keeps (p +:+ "$") buf'.
Proof.
  induction els as [|el els IH]; intros idx buf r buf' r' Hk H; cbn [forEach] in H.
  - apply ret_Ok in H as [<- _]. exact Hk.
  - apply bind_Ok in H as (b1 & r1 & H1 & H).
    eapply IH; [|exact H]. eapply parseTextElement_keeps; eauto.
Qed.

(** X12: an equation is written between two dollar signs on either side
    when it is the one element of its text block, and between single
    dollar signs when the text block has another element, of whatever
    kind and wherever the equation stands among them: the text of the
    block is then the text composed from the elements before the
    equation, a dollar sign, the source of the equation with the white
    space at its end removed, a dollar sign, and what the elements after
    it add; no element after it removes any of this. *)
Theorem equation_wrapping (els1 els2 : list TextElement) (el : TextElement)
    (eq : TextRun) (r : Renderer) (out : string) :
  text_run el = None -> equation el = Some eq ->
  composed (els1 ++ el :: els2) r = Some out ->
  (els1 = [] -> els2 = [] -> out = "$$" +:+ Js.trimEnd (content eq) +:+ "$$")
  /\ (els1 <> [] \/ els2 <> [] ->
      exists before after,
        composedInline els1 r = Some before
        /\ out = before +:+ "$" +:+ Js.trimEnd (content eq) +:+ "$" +:+ after
        /\ (els2 = [] -> after = "")).
Proof.
  intros Hrun Heq H. unfold composed, parseTextElements in H.
  set (inline := bool_decide (1 < List.length (els1 ++ el :: els2))%nat) in H.
  destruct (forEach _ _ _ _ _) as [buf r'| |] eqn:Hall; try discriminate.
  injection H as <-. rewrite forEach_app in Hall.
  apply bind_Ok in Hall as (buf1 & r1 & H1 & Hall). cbn [forEach] in Hall.
  apply bind_Ok in Hall as (buf2 & r2 & H2 & Hall).
  unfold parseTextElement in H2. rewrite Hrun, Heq in H2.
  apply ret_Ok in H2 as [<- <-].
  split.
  - intros -> ->. cbn [forEach] in H1, Hall. unfold ret in H1, Hall.
    injection H1 as <- <-. injection Hall as <- _.
    rewrite !toString_write, toString_new. reflexivity.
  - intros Hne. assert (Hin : inline = true).
    { unfold inline. apply bool_decide_eq_true_2. rewrite length_app. cbn [List.length].
      destruct Hne as [Hne|Hne]; [destruct els1 | destruct els2]; cbn [List.length];
        try congruence; lia. }
    rewrite Hin in *.
    exists (Buffer.toString buf1).
    assert (Hk : keeps ((Buffer.toString buf1 +:+ "$" +:+ Js.trimEnd (content eq)) +:+ "$")
                   (Buffer.write (Buffer.write (Buffer.write buf1 "$")
                                    (Js.trimEnd (content eq))) "$")).
    { exists "". rewrite !toString_write. now rewrite app_nil_r_s, !app_assoc_s. }
    destruct (forEach_keeps _ _ _ _ _ _ _ _ Hk Hall) as [after Hafter].
    exists after. split; [unfold composedInline; now rewrite H1 |]. split.
    + rewrite Hafter. now rewrite !app_assoc_s.
    + intros ->. cbn [forEach] in Hall. unfold ret in Hall. injection Hall as <- _.
      rewrite !toString_write in Hafter. rewrite !app_assoc_s in Hafter.
      clear -Hafter.
      assert (E : forall a b : string, a = a +:+ b -> b = "").
      { intros a b Hab. apply (f_equal String.length) in Hab.
        rewrite length_app_s in Hab. destruct b; [reflexivity | simpl in Hab; lia]. }
      apply (E (Buffer.toString buf1 +:+ "$" +:+ Js.trimEnd (content eq) +:+ "$")).
      now rewrite !app_assoc_s.
Qed.

Lemma equation_wrapping_witness :
  exists before after,
    composedInline [styledRun "a" true false false false false] newRenderer = Some before
    /\ "**a**$x$*b*" = before +:+ "$" +:+ Js.trimEnd "x " +:+ "$" +:+ after
    /\ ([styledRun "b" false true false false false] = [] -> after = "").
Proof.
  refine (proj2 (equation_wrapping [styledRun "a" true false false false false]
                   [styledRun "b" false true false false false]
                   (equationElement "x ") {| content := "x "; text_element_style := None |}
                   newRenderer "**a**$x$*b*" eq_refl eq_refl _) _).
  - vm_compute. reflexivity.
  - left. discriminate.
Defined.

(* ===================================================================== *)
(** * Fragments of blocks *)
(* ===================================================================== *)

Ltac extends_writes :=
  repeat first [ apply extends_refl | eapply extends_trans; [|apply extends_write] ].

Section Fragments.
Variables (marked_parse getEmojiChar : string -> string) (JSON_stringify : Block -> string).
Variable bm : gmap string Block.

Local Notation "'walk'" := (parseBlock marked_parse getEmojiChar JSON_stringify bm).

(** X13: every fragment starts with the indentation of its depth. *)
Theorem fragment_starts_with_indentation (n : nat) (block : Block) (ind : nat)
    (r : Renderer) (out : string) (r' : Renderer) :
  walk (S n) block ind r = Ok out r' ->
  exists rest, out = Js.repeat "   " ind +:+ rest.
Proof.
  intros H. cbn [parseBlock] in H. unfold parseBlockBody in H.
  apply bind_Ok in H as ([] & r1 & _ & H).
  apply bind_Ok in H as ([] & r2 & _ & H).
  apply bind_Ok in H as (buf' & r3 & Hcase & H).
  apply ret_Ok in H as [<- _].
  assert (Hext : extends (Buffer.writeIndent Buffer.new ind) buf').
  { destruct (block_type block); unfold parseHeading in Hcase;
      bind_inv Hcase; subst; extends_writes. }
  destruct Hext as [rest Hrest]. exists rest.
  now rewrite Hrest, toString_writeIndent, toString_new.
Qed.

Lemma walk_nothing (n : nat) (block : Block) (ind : nat) (r : Renderer) :
  rendersNothing (block_type block) = true ->
  walk (S n) block ind r = Ok (Js.repeat "   " ind) (entered r block ind).
Proof.
  intros H. cbn [parseBlock]. unfold parseBlockBody, bind, setIndent, setCurrentBlock, entered.
  destruct (block_type block); try discriminate H;
    unfold parseUnsupport, ret; cbn [negb outputUnsupported]; f_equal;
    rewrite ?toString_write, toString_writeIndent, toString_new, ?app_nil_r_s; reflexivity.
Qed.

(** X14: a block of a type that the renderer does not support, or a grid
    column met outside a grid, is rendered as the indentation alone, the
    renderer left at that block; as a child of the page it adds nothing to
    the text of the page. *)
Theorem unsupported_block_renders_nothing (n : nat) (block : Block) (ind : nat)
    (r : Renderer) :
  rendersNothing (block_type block) = true ->
  walk (S n) block ind r = Ok (Js.repeat "   " ind) (entered r block ind)
  /\ (forall page idx c rest buf,
        bm !! c = Some block ->
        pageChildren bm (walk (S n)) page idx (c :: rest) buf r
        = pageChildren bm (walk (S n)) page (S idx) rest buf
            (entered (withNext r (lookahead bm page idx)) block 0)).
Proof.
  intros H. split; [now apply walk_nothing |].
  intros page idx c rest buf Hc. cbn [pageChildren]. rewrite Hc.
  unfold bind at 1. unfold bind at 1. unfold setNextBlock at 1.
  unfold bind at 1. rewrite (walk_nothing n block 0 _ H). reflexivity.
Qed.

(** The text block of a list item, of a code block, a quote or a to-do
    item: its children are not rendered with it, and the renderer stays as
    it is. *)
Lemma parseTextBlock_leaf (rec : Block -> nat -> M string) (block : Block)
    (tb : option TextBlock) (r : Renderer) (s : string) (r' : Renderer) :
  block_type block ∉ childrenBlockTypes ->
  parseTextBlock bm rec block tb r = Ok s r' -> r' = r.
Proof.
  intros Hty H. unfold parseTextBlock in H. destruct tb as [tb|].
  - apply bind_Ok in H as (buf & r1 & H1 & H).
    apply parseTextElements_state in H1 as ->.
    rewrite bool_decide_eq_false_2 in H by assumption.
    bind_inv H. congruence.
  - apply ret_Ok in H as [_ ->]. reflexivity.
Qed.

Lemma trimStart_dash (s : string) : Js.trimStart ("- " +:+ s) = "- " +:+ s.
Proof. apply stripWs_stays. destruct s; reflexivity. Qed.

Lemma compacts_spec (r : Renderer) (block : Block) :
  children block = [] ->
  compacts (nextBlock r) block = true <-> siblingFollows r block.
Proof.
  intros Hkids. unfold compacts, siblingFollows. destruct (nextBlock r) as [nb|].
  - rewrite !andb_true_iff, !bool_decide_eq_true. split.
    + intros [[H1 H2] _]. now exists nb.
    + intros (nb' & Hnb & H1 & H2). injection Hnb as <-. auto.
  - split; [discriminate |]. intros (nb & Hnb & _). discriminate.
Qed.

Lemma walk_bullet (n : nat) (block : Block) (ind : nat) (r : Renderer) :
  block_type block = Bullet ->
  walk (S n) block ind r
  = match parseBulletBlock bm (walk n) block ind (entered r block ind) with
    | Ok s r' => Ok (Js.repeat "   " ind +:+ Js.trimStart s) r'
    | Throw e => Throw e
    | OutOfFuel => OutOfFuel
    end.
Proof.
  intros Hty. cbn [parseBlock]. unfold parseBlockBody.
  unfold bind at 1. cbn [setIndent]. unfold bind at 1. cbn [setCurrentBlock].
  change {| currentBlock := Some block; nextBlock := _; indent := _;
            _fileTokens := _; _title := _ |} with (entered r block ind).
  rewrite Hty. unfold bind.
  destruct (parseBulletBlock _ _ _ _ _) as [s r'| |]; try reflexivity.
  unfold ret. f_equal.
  now rewrite toString_write, toString_writeIndent, toString_new, app_nil_l_s.
Qed.

Lemma parseBulletBlock_run (rec : Block -> nat -> M string) (block : Block) (ind : nat)
    (r0 : Renderer) (itemText : string) :
  parseTextBlock bm rec block (bullet block) r0 = Ok itemText r0 ->
  parseBulletBlock bm rec block ind r0
  = match parseSubList bm rec block ind
            (Buffer.write (Buffer.write Buffer.new "- ")
               (if compacts (nextBlock r0) block then trimLastNewline itemText
                else itemText)) r0 with
    | Ok buf r' => Ok (Buffer.toString buf) r'
    | Throw e => Throw e
    | OutOfFuel => OutOfFuel
    end.
Proof.
  intros Htext. unfold parseBulletBlock.
  unfold bind at 1. rewrite Htext.
  unfold bind at 1. unfold getNextBlock at 1.
  unfold bind. now destruct (parseSubList _ _ _ _ _ _).
Qed.

End Fragments.

Lemma siblingFollows_sample :
  siblingFollows
    (withNext newRenderer (Some (textualBlock "b2" "doc" Bullet [] [plainRun "two"])))
    (textualBlock "b1" "doc" Bullet [] [plainRun "one"]).
Proof. eexists. repeat split. Qed.

(* ===================================================================== *)
(** * Containers and code blocks *)
(* ===================================================================== *)

Section Containers.
Variables (marked_parse getEmojiChar : string -> string) (JSON_stringify : Block -> string).
Variable bm : gmap string Block.

Local Notation "'walk'" := (parseBlock marked_parse getEmojiChar JSON_stringify bm).

Lemma eachChild_rendered (rec : Block -> nat -> M string) (depth : nat)
    (wrap : string -> string)
    (step : Block -> Buffer.t -> M Buffer.t) (ids : list string)
    (r : Renderer) (texts : list string) (r' : Renderer) :
  (forall child buf r0 s r1,
     rec child depth r0 = Ok s r1 ->
     exists buf', step child buf r0 = Ok buf' r1
                  /\ Buffer.toString buf' = Buffer.toString buf +:+ wrap s) ->
  rendered bm rec depth ids r texts r' ->
  forall buf,
  exists buf',
    eachChild bm step ids buf r = Ok buf' r'
    /\ Buffer.toString buf' = Buffer.toString buf +:+ Js.concat (wrap <$> texts).
Proof.
  intros Hstep Hr. induction Hr as [r|c ids r texts r' Hc _ IH|c child ids r s r1 texts r' Hc Hs _ IH];
    intros buf.
  - exists buf. split; [reflexivity |]. simpl. now rewrite app_nil_r_s.
  - destruct (IH buf) as (buf' & H1 & H2). exists buf'. split; [|exact H2].
    cbn [eachChild]. rewrite Hc. unfold bind at 1. unfold ret at 1. exact H1.
  - destruct (Hstep child buf r s r1 Hs) as (buf1 & H1 & Hs1).
    destruct (IH buf1) as (buf' & H2 & Hs2). exists buf'. split.
    + cbn [eachChild]. rewrite Hc. unfold bind at 1. now rewrite H1.
    + rewrite Hs2, Hs1. cbn [fmap list_fmap Js.concat]. now rewrite !app_assoc_s.
Qed.

Lemma parseChildren_rendered (rec : Block -> nat -> M string) (pre : option string)
    (block : Block) (r : Renderer) (texts : list string) (r' : Renderer) :
  rendered bm rec 0 (children block) r texts r' ->
  parseChildren bm rec pre block r
  = Ok (Js.concat ((fun s => default "" pre +:+ s) <$> texts)) r'.
Proof.
  intros Hr. unfold parseChildren.
  destruct (eachChild_rendered rec 0 (fun s => default "" pre +:+ s)
              (fun child buf =>
                 let buf := match pre with Some p => Buffer.write buf p | None => buf end in
                 let* s := rec child O in ret (Buffer.write buf s))
              (children block) r texts r') with (buf := Buffer.new) as (buf' & H1 & H2);
    [|exact Hr|].
  - intros child buf r0 s r1 Hs. eexists. split.
    + unfold bind. rewrite Hs. reflexivity.
    + destruct pre; cbn [default from_option id];
        rewrite ?toString_write, ?app_assoc_s; reflexivity.
  - rewrite (bind_Ok_intro _ _ _ _ _ H1). unfold ret. f_equal. now rewrite H2, toString_new.
Qed.

(** X16: a view, a synced block and a table cell are rendered as the texts of
    their children, one after the other and each rendered at depth 0,
    whatever the depth of the container; a quote container as the same
    with the quote mark before the text of each child.  A child that is
    in no block of the list adds nothing, not a quote mark either. *)
Theorem container_children_in_order (n : nat) (block : Block) (ind : nat)
    (r : Renderer) (texts : list string) (r' : Renderer) :
  rendered bm (walk n) 0 (children block) (entered r block ind) texts r' ->
  (transparent (block_type block) = true ->
   walk (S n) block ind r = Ok (Js.repeat "   " ind +:+ Js.concat texts) r')
  /\ (block_type block = QuoteContainer ->
      walk (S n) block ind r
      = Ok (Js.repeat "   " ind +:+ Js.concat ((fun s => "> " +:+ s) <$> texts)) r').
Proof.
  intros Hr.
  pose proof (parseChildren_rendered (walk n) None block _ _ _ Hr) as Hnone.
  pose proof (parseChildren_rendered (walk n) (Some "> ") block _ _ _ Hr) as Hquote.
  cbn [default from_option id] in Hnone, Hquote.
  assert (Hid : (fun s : string => "" +:+ s) <$> texts = texts).
  { clear. induction texts as [|t texts IH]; [reflexivity |]. cbn [fmap list_fmap] in *.
    now rewrite IH. }
  rewrite Hid in Hnone.
  split; intros Hty; cbn [parseBlock]; unfold parseBlockBody;
    unfold bind at 1; cbn [setIndent]; unfold bind at 1; cbn [setCurrentBlock];
    change {| currentBlock := Some block; nextBlock := _; indent := _;
              _fileTokens := _; _title := _ |} with (entered r block ind).
  - destruct (block_type block); try discriminate Hty;
      unfold parseView, parseSyncedBlock, parseTableCell, bind; rewrite Hnone;
      unfold ret; f_equal;
      now rewrite toString_write, toString_writeIndent, toString_new.
  - rewrite Hty. unfold parseQuoteContainer, bind. rewrite Hquote.
    unfold ret. f_equal.
    now rewrite toString_write, toString_writeIndent, toString_new.
Qed.

(** X17: a code block whose elements are unstyled runs is rendered as the
    fence with the name of its language, the sources of the runs as they
    are (no character of them is escaped), trimmed, and the closing fence;
    the children of the block are not rendered. *)
Theorem code_block_verbatim (n : nat) (block : Block) (tb : TextBlock)
    (texts : list string) (ind : nat) (r : Renderer) :
  block_type block = Code ->
  code block = Some tb ->
  elements tb = plainRun <$> texts ->
  walk (S n) block ind r
  = Ok (Js.repeat "   " ind +:+ "```" +:+ getCodeLanguage (language (style tb)) +:+ Js.LF
        +:+ Js.trim (codeSource texts) +:+ Js.LF +:+ "```" +:+ Js.LF)
       (entered r block ind).
Proof.
  intros Hty Hcode Hels.
  cbn [parseBlock]. unfold parseBlockBody.
  unfold bind at 1. cbn [setIndent]. unfold bind at 1. cbn [setCurrentBlock].
  change {| currentBlock := Some block; nextBlock := _; indent := _;
            _fileTokens := _; _title := _ |} with (entered r block ind).
  rewrite Hty, Hcode.
  assert (Htext : parseTextBlock bm (walk n) block (Some tb) (entered r block ind)
                  = Ok (codeSource texts) (entered r block ind)).
  { unfold parseTextBlock, parseTextElements. rewrite Hels.
    destruct (plainRuns_written
                (bool_decide (1 < List.length (plainRun <$> texts))%nat) texts 0
                Buffer.new (entered r block ind)) as (buf & H1 & H2).
    unfold bind at 1. rewrite H1.
    rewrite toString_new, app_nil_l_s in H2.
    assert (Hshown : shownPlain (entered r block ind) <$> texts = texts).
    { unfold shownPlain, entered, isCode. cbn [currentBlock].
      rewrite (bool_decide_eq_true_2 _ Hty). apply list_fmap_id. }
    rewrite Hshown in H2.
    rewrite (bool_decide_eq_false_2 (block_type block ∈ childrenBlockTypes)).
    2:{ rewrite Hty. unfold childrenBlockTypes.
        rewrite !not_elem_of_cons. repeat split; try discriminate. apply not_elem_of_nil. }
    unfold bind, ret. f_equal. unfold codeSource.
    unfold Buffer.length. rewrite foldl_length_parts.
    change (Js.concat (Buffer.parts buf)) with (Buffer.toString buf). rewrite H2.
    destruct (Js.concat texts) as [|c s] eqn:E.
    - rewrite bool_decide_eq_false_2 by (simpl; lia). congruence.
    - rewrite bool_decide_eq_true_2 by (simpl; lia).
      rewrite toString_write. congruence. }
  unfold bind. rewrite Htext. unfold ret. f_equal.
  rewrite !toString_write, toString_writeIndent, toString_new.
  now rewrite !app_assoc_s.
Qed.

End Containers.

Section ListItems.
Variables (marked_parse getEmojiChar : string -> string) (JSON_stringify : Block -> string).
Variable bm : gmap string Block.

Local Notation "'walk'" := (parseBlock marked_parse getEmojiChar JSON_stringify bm).

Lemma parseSubList_rendered (rec : Block -> nat -> M string) (block : Block) (ind : nat)
    (buf : Buffer.t) (r : Renderer) (kids : list string) (r' : Renderer) :
  rendered bm (fun child d r0 => rec child d (withNext r0 None)) (S ind)
    (children block) r kids r' ->
  exists buf',
    parseSubList bm rec block ind buf r = Ok buf' r'
    /\ Buffer.toString buf' = Buffer.toString buf +:+ Js.concat kids.
Proof.
  intros Hr. unfold parseSubList.
  destruct (eachChild_rendered bm (fun child d r0 => rec child d (withNext r0 None)) (S ind)
              (fun s => s)
              (fun child buf =>
                 let* _ := setNextBlock None in
                 let* s := rec child (S ind) in
                 ret (Buffer.write buf s))
              (children block) r kids r') with (buf := buf) as (buf' & H1 & H2);
    [|exact Hr|].
  - intros child b r0 s r1 Hs. eexists. split.
    + unfold bind at 1. unfold setNextBlock at 1.
      change {| currentBlock := currentBlock r0; nextBlock := None; indent := indent r0;
                _fileTokens := _fileTokens r0; _title := _title r0 |}
        with (withNext r0 None).
      unfold bind. rewrite Hs. reflexivity.
    + apply toString_write.
  - exists buf'. split; [exact H1 |]. now rewrite H2, list_fmap_id.
Qed.

(** X15: a bullet item is rendered as the indentation, a dash and a
    space, the text of the item, and below it its children: the children
    that are blocks of the list, in their order, each rendered one level
    deeper than the item and with the lookahead sibling cleared before
    it.  An item without children loses the line feed that ends its text
    when the lookahead sibling is a bullet item of the same parent, and
    keeps it otherwise; an item with children keeps it in any case. *)
Theorem bullet_fragment (n : nat) (block : Block) (ind : nat) (r : Renderer)
    (itemText : string) (r1 : Renderer) :
  block_type block = Bullet ->
  parseTextBlock bm (walk n) block (bullet block) (entered r block ind) = Ok itemText r1 ->
  (children block = [] -> siblingFollows r block ->
     walk (S n) block ind r
     = Ok (Js.repeat "   " ind +:+ "- " +:+ trimLastNewline itemText) (entered r block ind))
  /\ (children block = [] -> ~ siblingFollows r block ->
        walk (S n) block ind r
        = Ok (Js.repeat "   " ind +:+ "- " +:+ itemText) (entered r block ind))
  /\ (forall kids r',
        children block <> [] ->
        rendered bm (fun child d r0 => walk n child d (withNext r0 None)) (S ind)
          (children block) (entered r block ind) kids r' ->
        walk (S n) block ind r
        = Ok (Js.repeat "   " ind +:+ "- " +:+ itemText +:+ Js.concat kids) r').
Proof.
  intros Hty Htext.
  assert (Hleaf : block_type block ∉ childrenBlockTypes).
  { rewrite Hty. unfold childrenBlockTypes.
    rewrite !not_elem_of_cons. repeat split; try discriminate. apply not_elem_of_nil. }
  pose proof (parseTextBlock_leaf _ _ _ _ _ _ _ Hleaf Htext) as ->.
  pose proof (parseBulletBlock_run bm (walk n) block ind _ _ Htext) as Hrun.
  change (nextBlock (entered r block ind)) with (nextBlock r) in Hrun.
  rewrite (walk_bullet marked_parse getEmojiChar JSON_stringify bm n block ind r Hty), Hrun.
  split; [|split].
  - intros Hkids Hsib. apply (compacts_spec r block Hkids) in Hsib. rewrite Hsib.
    unfold parseSubList. rewrite Hkids. cbn [eachChild]. unfold ret.
    rewrite !toString_write, toString_new, app_nil_l_s, trimStart_dash.
    rewrite ?app_assoc_s; reflexivity.
  - intros Hkids Hsib.
    destruct (compacts (nextBlock r) block) eqn:E;
      [apply (compacts_spec r block Hkids) in E; contradiction |].
    unfold parseSubList. rewrite Hkids. cbn [eachChild]. unfold ret.
    rewrite !toString_write, toString_new, app_nil_l_s, trimStart_dash.
    rewrite ?app_assoc_s; reflexivity.
  - intros kids r' Hkids Hr.
    assert (E : compacts (nextBlock r) block = false).
    { unfold compacts. destruct (nextBlock r); [|reflexivity].
      rewrite (bool_decide_eq_false_2 (children block = [])) by assumption.
      apply andb_false_r. }
    rewrite E.
    destruct (parseSubList_rendered (walk n) block ind
                (Buffer.write (Buffer.write Buffer.new "- ") itemText) _ _ _ Hr)
      as (buf' & -> & Hbuf).
    f_equal. rewrite Hbuf, !toString_write, toString_new, app_nil_l_s.
    rewrite !app_assoc_s, trimStart_dash. reflexivity.
Qed.

End ListItems.

Lemma bullet_fragment_witness :
  parseBlock sampleMarked sampleEmoji sampleStringify ∅ 1
    (textualBlock "b1" "doc" Bullet [] [plainRun "one"]) 0
    (withNext newRenderer (Some (textualBlock "b2" "doc" Bullet [] [plainRun "two"])))
  = Ok "- one"
       (entered (withNext newRenderer
                   (Some (textualBlock "b2" "doc" Bullet [] [plainRun "two"])))
          (textualBlock "b1" "doc" Bullet [] [plainRun "one"]) 0)
  /\ exists r',
       parseBlock sampleMarked sampleEmoji sampleStringify (buildBlockMap nestedHeadingDoc) 2
         (textualBlock "item" "doc" Bullet ["head"] [plainRun "point"]) 0 newRenderer
       = Ok ("- point" +:+ Js.LF +:+ "   # Nested" +:+ Js.LF) r'.
Proof.
  split.
  - refine (proj1 (bullet_fragment sampleMarked sampleEmoji sampleStringify ∅ 0
                     (textualBlock "b1" "doc" Bullet [] [plainRun "one"]) 0
                     (withNext newRenderer
                        (Some (textualBlock "b2" "doc" Bullet [] [plainRun "two"])))
                     ("one" +:+ Js.LF) _ eq_refl _) eq_refl siblingFollows_sample).
    vm_compute. reflexivity.
  - eexists.
    refine (proj2 (proj2 (bullet_fragment sampleMarked sampleEmoji sampleStringify
                            (buildBlockMap nestedHeadingDoc) 1
                            (textualBlock "item" "doc" Bullet ["head"] [plainRun "point"])
                            0 newRenderer ("point" +:+ Js.LF) _ eq_refl _))
              ["   # Nested" +:+ Js.LF] _ _ _).
    + vm_compute. reflexivity.
    + discriminate.
    + eapply rendered_child; [vm_compute; reflexivity | vm_compute; reflexivity |].
      apply rendered_nil.
Defined.


Lemma container_children_in_order_witness :
  parseBlock sampleMarked sampleEmoji sampleStringify (buildBlockMap quotedDoc) 2
    (bareBlock "q" "doc" QuoteContainer ["p1"; "gone"; "p2"]) 0 newRenderer
  = Ok ("> first" +:+ Js.LF +:+ "> second" +:+ Js.LF)
       (entered newRenderer (textualBlock "p2" "q" Text [] [plainRun "second"]) 0).
Proof.
  refine (proj2 (container_children_in_order sampleMarked sampleEmoji sampleStringify
                   (buildBlockMap quotedDoc) 1
                   (bareBlock "q" "doc" QuoteContainer ["p1"; "gone"; "p2"]) 0 newRenderer
                   ["first" +:+ Js.LF; "second" +:+ Js.LF] _ _) eq_refl).
  eapply rendered_child; [vm_compute; reflexivity | vm_compute; reflexivity |].
  eapply rendered_skip; [vm_compute; reflexivity |].
  eapply rendered_child; [vm_compute; reflexivity | vm_compute; reflexivity |].
  apply rendered_nil.
Defined.

Lemma code_block_verbatim_witness :
  parseBlock sampleMarked sampleEmoji sampleStringify ∅ 1
    (textualBlock "c" "doc" Code [] [plainRun "if (a < b) {"; plainRun " }"]) 0 newRenderer
  = Ok ("```" +:+ Js.LF +:+ "if (a < b) { }" +:+ Js.LF +:+ "```" +:+ Js.LF)
       (entered newRenderer
          (textualBlock "c" "doc" Code [] [plainRun "if (a < b) {"; plainRun " }"]) 0).
Proof.
  apply (code_block_verbatim sampleMarked sampleEmoji sampleStringify ∅ 0
           (textualBlock "c" "doc" Code [] [plainRun "if (a < b) {"; plainRun " }"])
           {| style := plainStyle;
              elements := [plainRun "if (a < b) {"; plainRun " }"] |}
           ["if (a < b) {"; " }"] 0 newRenderer); reflexivity.
Defined.

(* ===================================================================== *)
(** * What the walk does to the renderer *)
(* ===================================================================== *)

Lemma transits_elim {A} (R : Renderer -> Renderer -> Prop) (m : M A)
    (r : Renderer) (a : A) (r' : Renderer) :
  transits R m -> m r = Ok a r' -> R r r'.
Proof. intros H. apply H. Qed.

Section Transit.
Variables (marked_parse getEmojiChar : string -> string) (JSON_stringify : Block -> string).
Variable bm : gmap string Block.
Variable R : Renderer -> Renderer -> Prop.
Variable P : Block -> Prop.

Hypothesis R_refl : forall r, R r r.
Hypothesis R_trans : forall a b c, R a b -> R b c -> R a c.
Hypothesis R_frame :
  forall r cur next ind,
    R r {| currentBlock := cur; nextBlock := next; indent := ind;
           _fileTokens := _fileTokens r; _title := _title r |}.
Hypothesis P_map : forall id b, bm !! id = Some b -> P b.
Hypothesis R_image :
  forall b i, P b -> block_type b = Image -> image b = Some i ->
    transits R (addFileToken KindImage (image_token i)).
Hypothesis R_board :
  forall b i, P b -> block_type b = Board -> board b = Some i ->
    transits R (addFileToken KindBoard (image_token i)).
Hypothesis R_file :
  forall b f, P b -> block_type b = File -> file b = Some f ->
    transits R (addFileToken KindFile (file_block_token f)).
Hypothesis R_title :
  forall b pg buf r,
    P b -> block_type b = Page -> page b = Some pg -> elements pg <> [] ->
    currentBlock r = Some b ->
    parseTextElements Buffer.new (elements pg) r = Ok buf r ->
    R r (withTitle r (Js.trim (Buffer.toString buf))).

Lemma transits_ret {A} (a : A) : transits R (ret a).
Proof. intros r b r' H. apply ret_Ok in H as [_ <-]. apply R_refl. Qed.

Lemma transits_bind {A B} (m : M A) (k : A -> M B) :
  transits R m -> (forall a, transits R (k a)) -> transits R (bind m k).
Proof.
  intros Hm Hk r b r' H. apply bind_Ok in H as (a & r1 & H1 & H2).
  eapply R_trans; [eapply Hm, H1 | eapply Hk, H2].
Qed.

Lemma transits_getNextBlock : transits R getNextBlock.
Proof. intros r a r' H. injection H as _ <-. apply R_refl. Qed.

Lemma transits_getIndent : transits R getIndent.
Proof. intros r a r' H. injection H as _ <-. apply R_refl. Qed.

Lemma transits_setNextBlock (b : option Block) : transits R (setNextBlock b).
Proof. intros r a r' H. injection H as _ <-. apply R_frame. Qed.

Lemma transits_setIndent (n : nat) : transits R (setIndent n).
Proof. intros r a r' H. injection H as _ <-. apply R_frame. Qed.

Lemma transits_setCurrentBlock (b : option Block) : transits R (setCurrentBlock b).
Proof. intros r a r' H. injection H as _ <-. apply R_frame. Qed.

Lemma transits_forEach {A B} (f : nat -> A -> B -> M B) (l : list A) :
  (forall idx x acc, transits R (f idx x acc)) ->
  forall idx acc, transits R (forEach f idx l acc).
Proof.
  intros Hf. induction l as [|x l IH]; intros idx acc; cbn [forEach].
  - apply transits_ret.
  - apply transits_bind; [apply Hf | intros acc'; apply IH].
Qed.

Lemma transits_mapM {A B} (f : A -> M B) (l : list A) :
  (forall x, transits R (f x)) -> transits R (mapM f l).
Proof.
  intros Hf. induction l as [|x l IH]; cbn [mapM].
  - apply transits_ret.
  - apply transits_bind; [apply Hf | intros y].
    apply transits_bind; [apply IH | intros ys; apply transits_ret].
Qed.

Lemma transits_parseTextElements (buf : Buffer.t) (els : list TextElement) :
  transits R (parseTextElements buf els).
Proof. intros r a r' H. apply parseTextElements_state in H as ->. apply R_refl. Qed.

Section Body.
Variable rec : Block -> nat -> M string.
Hypothesis Hrec : forall b ind, P b -> transits R (rec b ind).

Lemma transits_eachChild (step : Block -> Buffer.t -> M Buffer.t) (ids : list string) :
  (forall child buf, P child -> transits R (step child buf)) ->
  forall buf, transits R (eachChild bm step ids buf).
Proof.
  intros Hstep. induction ids as [|c ids IH]; intros buf; cbn [eachChild].
  - apply transits_ret.
  - apply transits_bind; [|intros buf'; apply IH].
    destruct (bm !! c) as [child|] eqn:Hc; [|apply transits_ret].
    apply Hstep. eapply P_map, Hc.
Qed.

Ltac transits_step :=
  match goal with
  | |- transits R (bind _ _) => apply transits_bind; [|intros]
  | |- transits R (ret _) => apply transits_ret
  | |- transits R getNextBlock => apply transits_getNextBlock
  | |- transits R getIndent => apply transits_getIndent
  | |- transits R (setNextBlock _) => apply transits_setNextBlock
  | |- transits R (parseTextElements _ _) => apply transits_parseTextElements
  | |- transits R (rec _ _) => apply Hrec; try assumption
  | |- transits R (eachChild _ _ _ _) => apply transits_eachChild; intros
  | |- transits R (forEach _ _ _ _) => apply transits_forEach; intros
  | |- transits R (mapM _ _) => apply transits_mapM; intros
  | |- transits R (if ?b then _ else _) => destruct b
  end.

Lemma transits_parseTextBlock (block : Block) (tb : option TextBlock) :
  transits R (parseTextBlock bm rec block tb).
Proof. unfold parseTextBlock. destruct tb; repeat transits_step. Qed.

Lemma transits_pageChildren (block : Block) (ids : list string) :
  forall idx buf, transits R (pageChildren bm rec block idx ids buf).
Proof.
  induction ids as [|c ids IH]; intros idx buf; cbn [pageChildren].
  - apply transits_ret.
  - apply transits_bind; [|intros buf'; apply IH].
    destruct (bm !! c) as [child|] eqn:Hc; [|apply transits_ret].
    pose proof (P_map _ _ Hc). repeat transits_step.
Qed.

Lemma transits_parsePageBlock (block : Block) (r : Renderer) (s : string) (r' : Renderer) :
  P block -> block_type block = Page -> currentBlock r = Some block ->
  parsePageBlock bm rec block r = Ok s r' -> R r r'.
Proof.
  intros HP Hty Hcur H. unfold parsePageBlock in H.
  apply bind_Ok in H as ([] & r1 & Htitle & H).
  apply bind_Ok in H as (text & r2 & Htext & H).
  apply bind_Ok in H as (buf & r3 & Hkids & H).
  apply ret_Ok in H as [_ <-].
  apply (R_trans _ r1).
  - destruct (page block) as [pg|] eqn:Hpg; [|apply ret_Ok in Htitle as [_ <-]; apply R_refl].
    destruct (elements pg) as [|el els] eqn:Hels;
      [apply ret_Ok in Htitle as [_ <-]; apply R_refl |].
    apply bind_Ok in Htitle as (titleBuf & r0 & Hbuf & Hset).
    pose proof (parseTextElements_state _ _ _ _ _ Hbuf) as ->.
    injection Hset as <-.
    apply (R_title block pg titleBuf r HP Hty Hpg); [now rewrite Hels | exact Hcur |].
    now rewrite Hels.
  - apply (R_trans _ r2).
    + eapply transits_parseTextBlock, Htext.
    + eapply transits_pageChildren, Hkids.
Qed.

Lemma transits_parseSubList (block : Block) (ind : nat) (buf : Buffer.t) :
  transits R (parseSubList bm rec block ind buf).
Proof. unfold parseSubList. repeat transits_step. Qed.

Lemma transits_parseChildren (pre : option string) (block : Block) :
  transits R (parseChildren bm rec pre block).
Proof. unfold parseChildren. repeat transits_step. Qed.

Lemma transits_parseCells (finish : string -> string) (table : TableBlock) :
  transits R (parseCells bm rec finish table).
Proof.
  unfold parseCells. apply transits_forEach. intros idx c rows. unfold collectCell.
  destruct (bm !! c) as [cell|] eqn:Hc; [|apply transits_ret].
  pose proof (P_map _ _ Hc) as HPc. apply transits_bind; [now apply Hrec | intros s].
  destruct (pushCell _ _ _ _); [apply transits_ret |].
  intros r a r' Hthrow. discriminate.
Qed.

Lemma transits_parseTable (table : option TableBlock) :
  transits R (parseTable marked_parse bm rec table).
Proof.
  unfold parseTable, parseTableAsHTML. destruct table as [t|]; [|apply transits_ret].
  destruct (isComplexTable t);
    (apply transits_bind; [apply transits_parseCells | intros; apply transits_ret]).
Qed.

Lemma transits_parseInner (block : Block) : transits R (parseInner bm rec block).
Proof.
  unfold parseInner, innerParts. apply transits_bind; [|intros; apply transits_ret].
  apply transits_mapM. intros c. destruct (bm !! c) as [child|] eqn:Hc; [|apply transits_ret].
  apply Hrec. eapply P_map, Hc.
Qed.

Lemma transits_parseGridColumn (block : Block) :
  transits R (parseGridColumn marked_parse bm rec block).
Proof.
  unfold parseGridColumn.
  apply transits_bind; [apply transits_parseInner | intros; apply transits_ret].
Qed.

Lemma transits_parseGrid (block : Block) :
  transits R (parseGrid marked_parse bm rec block).
Proof.
  unfold parseGrid. apply transits_bind; [|intros; apply transits_ret].
  apply transits_eachChild. intros child buf _.
  apply transits_bind; [apply transits_parseGridColumn | intros; apply transits_ret].
Qed.

Lemma transits_parseCallout (block : Block) :
  transits R (parseCallout marked_parse getEmojiChar bm rec block).
Proof.
  unfold parseCallout.
  apply transits_bind; [apply transits_parseInner | intros; apply transits_ret].
Qed.

Lemma transits_parseIframe (block : Block) : transits R (parseIframe block).
Proof.
  unfold parseIframe. intros r a r' H.
  repeat match type of H with
         | context [match ?x with _ => _ end] => destruct x
         end; unfold ret, throw in H; try discriminate; injection H as _ <-; apply R_refl.
Qed.

Lemma transits_parseUnsupport (block : Block) :
  transits R (parseUnsupport JSON_stringify block).
Proof. unfold parseUnsupport. cbn. apply transits_ret. Qed.

Lemma transits_parseImage (block : Block) :
  P block -> block_type block = Image -> transits R (parseImage (image block)).
Proof.
  intros HP Hty. unfold parseImage. destruct (image block) as [i|] eqn:Hi;
    [|apply transits_ret].
  apply transits_bind; [eapply R_image; eauto | intros; apply transits_ret].
Qed.

Lemma transits_parseBoard (block : Block) :
  P block -> block_type block = Board -> transits R (parseBoard (board block)).
Proof.
  intros HP Hty. unfold parseBoard. destruct (board block) as [i|] eqn:Hi;
    [|apply transits_ret].
  apply transits_bind; [eapply R_board; eauto | intros; apply transits_ret].
Qed.

Lemma transits_parseFile (block : Block) :
  P block -> block_type block = File -> transits R (parseFile block).
Proof.
  intros HP Hty. unfold parseFile. destruct (file block) as [f|] eqn:Hf;
    [|apply transits_ret].
  apply transits_bind; [eapply R_file; eauto | intros; apply transits_ret].
Qed.

Lemma transits_parseBlockBody (block : Block) (ind : nat) :
  P block ->
  transits R (parseBlockBody marked_parse getEmojiChar JSON_stringify bm rec block ind).
Proof.
  intros HP r out r' H. unfold parseBlockBody in H.
  apply bind_Ok in H as ([] & r1 & H1 & H). injection H1 as <-.
  apply bind_Ok in H as ([] & r2 & H2 & H). injection H2 as <-.
  apply bind_Ok in H as (buf & r3 & Hcase & H).
  apply ret_Ok in H as [_ <-].
  apply (R_trans _ _ _ (R_frame r (Some block) (nextBlock r) ind)).
  cbn [currentBlock nextBlock indent _fileTokens _title] in Hcase.
  destruct (block_type block) eqn:Hty;
    try (apply bind_Ok in Hcase as (s & r4 & Hpage & Hret);
         apply ret_Ok in Hret as [_ <-];
         eapply (transits_parsePageBlock block _ s r4 HP Hty); [|exact Hpage];
         reflexivity);
    (eapply transits_elim; [|exact Hcase]);
    unfold parseHeading, parseBulletBlock, parseOrderedBlock,
      parseTableCell, parseView, parseSyncedBlock, parseQuoteContainer;
    repeat first
      [ apply transits_parseTextBlock
      | apply transits_getNextBlock
      | apply transits_parseSubList
      | apply transits_parseGrid
      | apply transits_parseCallout
      | apply transits_parseTable
      | apply transits_parseChildren
      | apply transits_parseIframe
      | now apply transits_parseFile
      | now apply transits_parseImage
      | now apply transits_parseBoard
      | apply transits_parseUnsupport
      | apply transits_ret
      | apply transits_bind; [|intros] ].
Qed.

End Body.

Lemma transits_parseBlock (fuel : nat) :
  forall block ind,
    P block ->
    transits R (parseBlock marked_parse getEmojiChar JSON_stringify bm fuel block ind).
Proof.
  induction fuel as [|fuel IH]; intros block ind HP; cbn [parseBlock].
  - intros r a r' H. discriminate.
  - now apply transits_parseBlockBody.
Qed.

End Transit.

Lemma tokensGrow_refl (r : Renderer) : tokensGrow r r.
Proof. exists []. split; [now rewrite app_nil_r | constructor]. Qed.

Lemma tokensGrow_trans (a b c : Renderer) : tokensGrow a b -> tokensGrow b c -> tokensGrow a c.
Proof.
  intros (l1 & H1 & F1) (l2 & H2 & F2). exists (l1 ++ l2). split.
  - now rewrite H2, H1, app_assoc.
  - now apply Forall_app.
Qed.

Lemma tokensGrow_addFileToken (kind : FileKind) (tok : string) :
  transits tokensGrow (addFileToken kind tok).
Proof.
  intros r a r' H. unfold addFileToken in H. destruct tok as [|c tok].
  - apply ret_Ok in H as [_ <-]. apply tokensGrow_refl.
  - unfold bind, getFileTokens, setFileTokens in H. injection H as _ <-.
    eexists. split; [reflexivity |]. repeat constructor. discriminate.
Qed.

Lemma walk_tokensGrow (marked_parse getEmojiChar : string -> string)
    (JSON_stringify : Block -> string) (bm : gmap string Block) (fuel : nat)
    (block : Block) (ind : nat) :
  transits tokensGrow (parseBlock marked_parse getEmojiChar JSON_stringify bm fuel block ind).
Proof.
  apply (transits_parseBlock marked_parse getEmojiChar JSON_stringify bm tokensGrow
           (fun _ => True)); auto using tokensGrow_refl, tokensGrow_addFileToken.
  - apply tokensGrow_trans.
  - intros r cur next ind0. exists []. split; [cbn; now rewrite app_nil_r | constructor].
  - intros b pg buf r _ _ _ _ _ _. exists []. split; [cbn; now rewrite app_nil_r | constructor].
Qed.

(** X18: the walk only adds to the file tokens, at their end, and never an
    empty token: the tokens that were there stay, in their order.  So the
    tokens that [parse] leaves, which starts from none, are not empty. *)
Theorem file_tokens_only_grow (marked_parse getEmojiChar : string -> string)
    (JSON_stringify : Block -> string) :
  (forall bm fuel block ind r out r',
     parseBlock marked_parse getEmojiChar JSON_stringify bm fuel block ind r = Ok out r' ->
     exists added,
       _fileTokens r' = _fileTokens r ++ added
       /\ Forall (fun ft => token ft <> "") added)
  /\ (forall fuel blocks this md r',
        parse marked_parse getEmojiChar JSON_stringify fuel blocks this = Ok md r' ->
        Forall (fun ft => token ft <> "") (fileTokens r')).
Proof.
  split.
  - intros bm fuel block ind r out r' H.
    exact (walk_tokensGrow marked_parse getEmojiChar JSON_stringify bm fuel block ind _ _ _ H).
  - intros fuel blocks this md r' H. unfold parse in H.
    destruct (findRoot blocks) as [root|]; [|discriminate].
    destruct (parseBlock _ _ _ _ _ _ _ _) as [s r1| |] eqn:Hwalk; try discriminate.
    injection H as _ <-.
    apply walk_tokensGrow in Hwalk as (added & Hadd & Hall).
    unfold fileTokens. now rewrite Hadd.
Qed.

(** X19: a block list with no image, board or file block leaves no file
    token. *)
Theorem no_media_no_tokens (marked_parse getEmojiChar : string -> string)
    (JSON_stringify : Block -> string) (fuel : nat) (blocks : list Block)
    (this : Renderer) (md : string) (r' : Renderer) :
  (forall b, b ∈ blocks -> isMedia (block_type b) = false) ->
  parse marked_parse getEmojiChar JSON_stringify fuel blocks this = Ok md r' ->
  fileTokens r' = [].
Proof.
  intros Hno H. unfold parse in H.
  destruct (findRoot blocks) as [root|] eqn:Hroot; [|discriminate].
  destruct (parseBlock _ _ _ _ _ _ _ _) as [s r1| |] eqn:Hwalk; try discriminate.
  injection H as _ <-.
  apply find_some in Hroot as [Hin _]. apply list_elem_of_In in Hin.
  apply (transits_parseBlock marked_parse getEmojiChar JSON_stringify (buildBlockMap blocks)
           (fun r r' => _fileTokens r' = _fileTokens r)
           (fun b => isMedia (block_type b) = false)) in Hwalk; auto.
  - intros a b c H1 H2. congruence.
  - intros id b Hb. apply Hno. eapply buildBlockMap_elem, Hb.
  - intros b i Hb Hty. rewrite Hty in Hb. discriminate.
  - intros b i Hb Hty. rewrite Hty in Hb. discriminate.
  - intros b f Hb Hty. rewrite Hty in Hb. discriminate.
Qed.

(* ===================================================================== *)
(** * Media blocks and the title *)
(* ===================================================================== *)

Lemma addFileToken_run (kind : FileKind) (tok : string) (r : Renderer) :
  addFileToken kind tok r = Ok tt (withToken r kind tok).
Proof. destruct tok; reflexivity. Qed.

Lemma imgTag_shape (img : ImageBlock) :
  exists tail, imgTag img = ("<img src=" +:+ Js.quoted (image_token img)) +:+ tail.
Proof.
  unfold imgTag. cbn [app].
  match goal with |- context [Js.join " " (?a :: ?l)] => generalize l end.
  intros l. destruct l as [|b l].
  - exists " />". cbn [Js.join]. now rewrite !app_assoc_s.
  - eexists. rewrite join_cons by discriminate. rewrite !app_assoc_s. reflexivity.
Qed.

Section Media.
Variables (marked_parse getEmojiChar : string -> string) (JSON_stringify : Block -> string).
Variable bm : gmap string Block.

Local Notation "'walk'" := (parseBlock marked_parse getEmojiChar JSON_stringify bm).

(** X20: an image block is rendered as its [<img />] tag on a line, the tag
    starting with the token as the source, and its token is recorded as
    the token of an image; a board likewise, its token recorded as that of
    a board; a file block as a link from its name to its token, the token
    recorded as that of a file.  An empty token is written in the same way
    but not recorded. *)
Theorem media_block_records_token (n : nat) (block : Block) (ind : nat) (r : Renderer) :
  (forall img,
     block_type block = Image -> image block = Some img ->
     walk (S n) block ind r
     = Ok (Js.repeat "   " ind +:+ imgTag img +:+ Js.LF)
          (withToken (entered r block ind) KindImage (image_token img))
     /\ String.prefix ("<img src=" +:+ Js.quoted (image_token img)) (imgTag img) = true)
  /\ (forall img,
        block_type block = Board -> board block = Some img ->
        walk (S n) block ind r
        = Ok (Js.repeat "   " ind +:+ imgTag img +:+ Js.LF)
             (withToken (entered r block ind) KindBoard (image_token img)))
  /\ (forall f,
        block_type block = File -> file block = Some f ->
        walk (S n) block ind r
        = Ok (Js.repeat "   " ind +:+ "[" +:+ file_name f +:+ "](" +:+ file_block_token f
              +:+ ")" +:+ Js.LF)
             (withToken (entered r block ind) KindFile (file_block_token f))).
Proof.
  split; [|split].
  - intros img Hty Himg. split.
    + cbn [parseBlock]. unfold parseBlockBody.
      unfold bind at 1. cbn [setIndent]. unfold bind at 1. cbn [setCurrentBlock].
      change {| currentBlock := Some block; nextBlock := _; indent := _;
                _fileTokens := _; _title := _ |} with (entered r block ind).
      rewrite Hty, Himg. unfold parseImage, bind. rewrite addFileToken_run.
      unfold ret. f_equal.
      rewrite !toString_write, toString_writeIndent, toString_new.
      now rewrite !app_assoc_s.
    + destruct (imgTag_shape img) as [tail ->]. apply prefix_app.
  - intros img Hty Himg.
    cbn [parseBlock]. unfold parseBlockBody.
    unfold bind at 1. cbn [setIndent]. unfold bind at 1. cbn [setCurrentBlock].
    change {| currentBlock := Some block; nextBlock := _; indent := _;
              _fileTokens := _; _title := _ |} with (entered r block ind).
    rewrite Hty, Himg. unfold parseBoard, bind. rewrite addFileToken_run.
    unfold ret. f_equal.
    rewrite !toString_write, toString_writeIndent, toString_new.
    now rewrite !app_assoc_s.
  - intros f Hty Hf.
    cbn [parseBlock]. unfold parseBlockBody.
    unfold bind at 1. cbn [setIndent]. unfold bind at 1. cbn [setCurrentBlock].
    change {| currentBlock := Some block; nextBlock := _; indent := _;
              _fileTokens := _; _title := _ |} with (entered r block ind).
    rewrite Hty. unfold parseFile. rewrite Hf. unfold bind. rewrite addFileToken_run.
    unfold ret. f_equal.
    rewrite !toString_write, toString_writeIndent, toString_new.
    now rewrite !app_assoc_s.
Qed.

End Media.

Lemma file_tokens_only_grow_witness :
  exists md r',
    parse sampleMarked sampleEmoji sampleStringify 2 imageDoc newRenderer = Ok md r'
    /\ fileTokens r' = [{| token := "boxcnAbc"; type := KindImage |}]
    /\ Forall (fun ft => token ft <> "") (fileTokens r').
Proof.
  eexists _, _. split; [vm_compute; reflexivity |]. split; [reflexivity |].
  eapply (proj2 (file_tokens_only_grow sampleMarked sampleEmoji sampleStringify)
            2%nat imageDoc newRenderer).
  vm_compute. reflexivity.
Defined.

Lemma no_media_no_tokens_witness :
  exists md r',
    parse sampleMarked sampleEmoji sampleStringify 2 orderedListDoc newRenderer = Ok md r'
    /\ fileTokens r' = [].
Proof.
  eexists _, _. split; [vm_compute; reflexivity |].
  eapply (no_media_no_tokens sampleMarked sampleEmoji sampleStringify 2 orderedListDoc
            newRenderer).
  - intros b Hb. unfold orderedListDoc in Hb.
    repeat (apply elem_of_cons in Hb as [->|Hb]; [reflexivity |]).
    now apply elem_of_nil in Hb.
  - vm_compute. reflexivity.
Defined.

Lemma media_block_records_token_witness :
  parseBlock sampleMarked sampleEmoji sampleStringify ∅ 1
    (imageBlock "img" "doc"
       {| image_width := 640; image_height := 0; image_token := "boxcnAbc";
          image_align := 2 |}) 0 newRenderer
  = Ok ("<img src=" +:+ Js.quoted "boxcnAbc" +:+ " src-width=" +:+ Js.quoted "640"
        +:+ " align=" +:+ Js.quoted "center" +:+ " />" +:+ Js.LF)
       (withToken
          (entered newRenderer
             (imageBlock "img" "doc"
                {| image_width := 640; image_height := 0; image_token := "boxcnAbc";
                   image_align := 2 |}) 0)
          KindImage "boxcnAbc").
Proof.
  exact (proj1 (proj1 (media_block_records_token sampleMarked sampleEmoji sampleStringify
                         ∅ 0
                         (imageBlock "img" "doc"
                            {| image_width := 640; image_height := 0;
                               image_token := "boxcnAbc"; image_align := 2 |})
                         0 newRenderer)
                  {| image_width := 640; image_height := 0; image_token := "boxcnAbc";
                     image_align := 2 |} eq_refl eq_refl)).
Defined.

Lemma styleWrappers_any (style : option TextElementStyle) (r1 r2 : Renderer)
    (w : string * string * bool) (r1' : Renderer) :
  styleWrappers style r1 = Ok w r1' -> styleWrappers style r2 = Ok w r2.
Proof.
  unfold styleWrappers, ret, throw. intros H.
  repeat match type of H with
         | context [match ?x with _ => _ end] => destruct x
         end; try discriminate; injection H as <- _; reflexivity.
Qed.

(** The inline composer reads of the renderer only whether the block it
    is at is a code block. *)
Lemma parseTextRun_reads (buf : Buffer.t) (run : TextRun) (r1 r2 : Renderer)
    (buf' : Buffer.t) (r1' : Renderer) :
  isCode (currentBlock r1) = isCode (currentBlock r2) ->
  parseTextRun buf run r1 = Ok buf' r1' -> parseTextRun buf run r2 = Ok buf' r2.
Proof.
  intros Hcode H. unfold parseTextRun in *.
  apply bind_Ok in H as ([[pre post] esc] & r0 & Hw & H).
  pose proof (styleWrappers_state _ _ _ _ Hw) as ->.
  rewrite (bind_Ok_intro _ _ _ _ _ (styleWrappers_any _ _ r2 _ _ Hw)).
  unfold bind, getCurrentBlock, ret in *. rewrite <- Hcode.
  repeat match type of H with
         | context [let '(_, _) := ?x in _] => destruct x
         end.
  injection H as <- _. reflexivity.
Qed.

Lemma parseTextElement_reads (buf : Buffer.t) (el : TextElement) (inline : bool)
    (r1 r2 : Renderer) (buf' : Buffer.t) (r1' : Renderer) :
  isCode (currentBlock r1) = isCode (currentBlock r2) ->
  parseTextElement buf el inline r1 = Ok buf' r1' ->
  parseTextElement buf el inline r2 = Ok buf' r2.
Proof.
  intros Hcode H. unfold parseTextElement in *.
  destruct (text_run el); [eapply parseTextRun_reads; eauto |].
  destruct (equation el); [unfold ret in *; congruence |].
  destruct (mention_doc el) as [m|]; [|unfold ret in *; congruence].
  destruct (Js.decodeURIComponent _); unfold ret, throw in *; congruence.
Qed.

Lemma parseTextElements_reads (els : list TextElement) (buf : Buffer.t)
    (r1 r2 : Renderer) (buf' : Buffer.t) (r1' : Renderer) :
  isCode (currentBlock r1) = isCode (currentBlock r2) ->
  parseTextElements buf els r1 = Ok buf' r1' ->
  parseTextElements buf els r2 = Ok buf' r2.
Proof.
  intros Hcode. unfold parseTextElements.
  generalize (bool_decide (1 < List.length els)%nat) as inline. intros inline.
  generalize O as idx. revert buf.
  induction els as [|el els IH]; intros buf idx H; cbn [forEach] in *.
  - unfold ret in *. congruence.
  - apply bind_Ok in H as (b1 & r0 & H1 & H).
    pose proof (parseTextElement_state _ _ _ _ _ _ H1) as ->.
    rewrite (bind_Ok_intro _ _ _ _ _ (parseTextElement_reads _ _ _ _ r2 _ _ Hcode H1)).
    now apply IH.
Qed.

(** X21: [parse] sets the title to the trimmed text of the inline elements of
    the page block, and leaves the title the renderer had when the page
    block has no such element: the title is not cleared.  (The page block
    at the root is the one page block of the list.) *)
Theorem title_of_parse (marked_parse getEmojiChar : string -> string)
    (JSON_stringify : Block -> string) (fuel : nat) (blocks : list Block)
    (root : Block) (this : Renderer) (md : string) (r' : Renderer) :
  findRoot blocks = Some root ->
  (forall b, b ∈ blocks -> block_type b = Page -> b = root) ->
  parse marked_parse getEmojiChar JSON_stringify fuel blocks this = Ok md r' ->
  match page root with
  | Some pg =>
      match elements pg with
      | [] => title r' = title this
      | els => Some (title r') = titleOf els
      end
  | None => title r' = title this
  end.
Proof.
  intros Hroot Honly H. unfold parse in H. rewrite Hroot in H.
  destruct (parseBlock _ _ _ _ _ _ _ _) as [s r1| |] eqn:Hwalk; try discriminate.
  injection H as _ <-.
  pose proof Hroot as Hfind. apply find_some in Hfind as [Hin Hpage].
  apply list_elem_of_In in Hin. apply bool_decide_eq_true in Hpage.
  destruct fuel as [|n]; [discriminate |].
  cbn [parseBlock] in Hwalk. unfold parseBlockBody in Hwalk.
  apply bind_Ok in Hwalk as ([] & ra & Ha & Hwalk). injection Ha as <-.
  apply bind_Ok in Hwalk as ([] & rb & Hb & Hwalk). injection Hb as <-.
  apply bind_Ok in Hwalk as (buf & rc & Hcase & Hwalk).
  apply ret_Ok in Hwalk as [_ <-].
  rewrite Hpage in Hcase.
  apply bind_Ok in Hcase as (text & rd & Hpg & Hret). apply ret_Ok in Hret as [_ <-].
  unfold parsePageBlock in Hpg.
  apply bind_Ok in Hpg as ([] & rt & Htitle & Hpg).
  apply bind_Ok in Hpg as (text1 & r2 & Htext & Hpg).
  apply bind_Ok in Hpg as (buf1 & r3 & Hkids & Hpg).
  apply ret_Ok in Hpg as [_ <-].
  set (bm := buildBlockMap blocks) in *.
  assert (Hcode : isCode (Some root) = false) by (unfold isCode; now rewrite Hpage).
  set (P := fun b : Block => block_type b = Page -> b = root).
  assert (HP : forall id b, bm !! id = Some b -> P b).
  { intros id b Hb. unfold P. apply Honly. eapply buildBlockMap_elem, Hb. }
  assert (Hgen : forall (T : string),
             (forall pg bufT r,
                page root = Some pg -> elements pg <> [] ->
                currentBlock r = Some root ->
                parseTextElements Buffer.new (elements pg) r = Ok bufT r ->
                Js.trim (Buffer.toString bufT) = T) ->
             _title r3 = _title rt \/ _title r3 = T).
  { intros T HT.
    set (R := fun r r' : Renderer => _title r' = _title r \/ _title r' = T).
    assert (R_refl : forall r, R r r) by (intros; now left).
    assert (R_trans : forall a b c, R a b -> R b c -> R a c).
    { intros a b c [H1|H1] [H2|H2]; unfold R; rewrite ?H2, ?H1; auto. }
    assert (R_frame : forall r cur next ind,
               R r {| currentBlock := cur; nextBlock := next; indent := ind;
                      _fileTokens := _fileTokens r; _title := _title r |})
      by (intros; now left).
    assert (R_tok : forall kind tok, transits R (addFileToken kind tok)).
    { intros kind tok r a r0 Hadd. rewrite addFileToken_run in Hadd.
      injection Hadd as _ <-. left. now destruct tok. }
    assert (R_title : forall b pg bufT r,
               P b -> block_type b = Page -> page b = Some pg -> elements pg <> [] ->
               currentBlock r = Some b ->
               parseTextElements Buffer.new (elements pg) r = Ok bufT r ->
               R r (withTitle r (Js.trim (Buffer.toString bufT)))).
    { intros b pg bufT r Hb Hty Hpgb Hne Hcur Hrun. right. cbn [withTitle _title].
      rewrite (Hb Hty) in *. eapply HT; eauto. }
    assert (Hrec : forall b ind, P b ->
               transits R (parseBlock marked_parse getEmojiChar JSON_stringify bm n b ind)).
    { intros b ind Hb.
      apply (transits_parseBlock marked_parse getEmojiChar JSON_stringify bm R P); auto. }
    apply (R_trans _ r2).
    - eapply (transits_parseTextBlock bm R P); [..|exact Htext]; auto.
    - eapply (transits_pageChildren bm R P); [..|exact Hkids]; auto. }
  destruct (page root) as [pg|] eqn:Hpgr.
  - destruct (elements pg) as [|el els] eqn:Hels.
    + apply ret_Ok in Htitle as [_ <-].
      destruct (Hgen (_title this)) as [Ht|Ht]; [|exact Ht..].
      intros pg' bufT r Hpg' Hne. injection Hpg' as <-. congruence.
    + apply bind_Ok in Htitle as (titleBuf & r0 & Hbuf & Hset).
      pose proof (parseTextElements_state _ _ _ _ _ Hbuf) as ->.
      injection Hset as <-.
      assert (Hcomposed : titleOf (el :: els) = Some (Js.trim (Buffer.toString titleBuf))).
      { assert (Hnew : parseTextElements Buffer.new (el :: els) newRenderer
                       = Ok titleBuf newRenderer)
          by (eapply parseTextElements_reads; [|exact Hbuf]; exact Hcode).
        unfold titleOf, composed. now rewrite Hnew. }
      rewrite Hcomposed. f_equal. unfold title.
      destruct (Hgen (Js.trim (Buffer.toString titleBuf))) as [Ht|Ht]; [|exact Ht..].
      intros pg' bufT r Hpg' Hne Hcur Hrun. injection Hpg' as <-. rewrite Hels in Hrun.
      assert (Hsame : parseTextElements Buffer.new (el :: els) r = Ok titleBuf r).
      { eapply parseTextElements_reads; [|exact Hbuf]. cbn [currentBlock]. now rewrite Hcur. }
      congruence.
  - apply ret_Ok in Htitle as [_ <-].
    destruct (Hgen (_title this)) as [Ht|Ht]; [|exact Ht..].
    intros pg' bufT r Hpg'. discriminate.
Qed.

Lemma title_of_parse_witness :
  exists md r',
    parse sampleMarked sampleEmoji sampleStringify 3 nestedHeadingDoc newRenderer = Ok md r'
    /\ Some (title r') = titleOf [plainRun "Notes"].
Proof.
  eexists _, _. split; [vm_compute; reflexivity |].
  refine (title_of_parse sampleMarked sampleEmoji sampleStringify 3 nestedHeadingDoc
            (textualBlock "doc" "" Page ["item"] [plainRun "Notes"]) newRenderer _ _
            eq_refl _ _).
  - intros b Hb Hty. unfold nestedHeadingDoc in Hb.
    repeat (apply elem_of_cons in Hb as [->|Hb]; [first [reflexivity | discriminate Hty] |]).
    now apply elem_of_nil in Hb.
  - vm_compute. reflexivity.
Defined.

(* ===================================================================== *)
(** * What [parse] leaves in the renderer *)
(* ===================================================================== *)

(** The page block at the root, when it has title elements and no
    children: the renderer is left at the page block, at depth 0, with
    the title set. *)
Lemma walk_childless_page (marked_parse getEmojiChar : string -> string)
    (JSON_stringify : Block -> string) (bm : gmap string Block) (n : nat)
    (root : Block) (pg : TextBlock) (r : Renderer) (out : string) (r' : Renderer) :
  block_type root = Page -> page root = Some pg -> elements pg <> [] ->
  children root = [] ->
  parseBlock marked_parse getEmojiChar JSON_stringify bm (S n) root O r = Ok out r' ->
  exists buf,
    parseTextElements Buffer.new (elements pg) (entered r root O)
    = Ok buf (entered r root O)
    /\ r' = withTitle (entered r root O) (Js.trim (Buffer.toString buf)).
Proof.
  intros Hty Hpg Hels Hkids H. cbn [parseBlock] in H. unfold parseBlockBody in H.
  apply bind_Ok in H as ([] & ra & Ha & H). injection Ha as <-.
  apply bind_Ok in H as ([] & rb & Hb & H). injection Hb as <-.
  change {| currentBlock := Some root; nextBlock := _; indent := _;
            _fileTokens := _; _title := _ |} with (entered r root O) in H.
  rewrite Hty in H.
  apply bind_Ok in H as (buf' & rc & Hcase & H). apply ret_Ok in H as [_ <-].
  apply bind_Ok in Hcase as (text & rd & Hpage & Hret). apply ret_Ok in Hret as [_ <-].
  unfold parsePageBlock in Hpage. rewrite Hpg, Hkids in Hpage.
  destruct (elements pg) as [|el els] eqn:E; [congruence |].
  apply bind_Ok in Hpage as ([] & rt & Htitle & Hpage).
  apply bind_Ok in Htitle as (titleBuf & r1 & Hbuf & Hset).
  pose proof (parseTextElements_state _ _ _ _ _ Hbuf) as ->.
  injection Hset as <-.
  apply bind_Ok in Hpage as (text1 & r2 & Htext & Hpage).
  cbn [pageChildren] in Hpage. unfold bind, ret in Hpage. injection Hpage as _ <-.
  unfold parseTextBlock in Htext. rewrite Hty in Htext.
  apply bind_Ok in Htext as (b1 & r3 & Hb1 & Htext).
  pose proof (parseTextElements_state _ _ _ _ _ Hb1) as ->.
  rewrite bool_decide_eq_false_2 in Htext.
  2:{ unfold childrenBlockTypes. rewrite !not_elem_of_cons.
      repeat split; try discriminate. apply not_elem_of_nil. }
  unfold bind, ret in Htext. injection Htext as _ <-.
  exists titleBuf. split; [exact Hbuf | reflexivity].
Qed.

(** C8, as amended: [parse] is a function of the block list alone: on two
    renderers in any two states (two freshly constructed ones, or ones
    that earlier calls have used) and with the same fuel it returns the
    same Markdown text and leaves the same list of file tokens, or throws
    the same exception.  It does assign other members of the renderer,
    which stay after the call: on a page block with title elements and no
    children it leaves the title set to the trimmed text of those
    elements, the current block set to the page block and the depth set
    to 0. *)
Theorem parse_deterministic (marked_parse getEmojiChar : string -> string)
    (JSON_stringify : Block -> string)
    (fuel : nat) (blocks : list Block) :
  (forall this1 this2,
     sameRendering
       (parse marked_parse getEmojiChar JSON_stringify fuel blocks this1)
       (parse marked_parse getEmojiChar JSON_stringify fuel blocks this2))
  /\ (forall root pg this md r',
        findRoot blocks = Some root -> page root = Some pg -> elements pg <> [] ->
        children root = [] ->
        parse marked_parse getEmojiChar JSON_stringify fuel blocks this = Ok md r' ->
        Some (title r') = titleOf (elements pg)
        /\ currentBlock r' = Some root
        /\ indent r' = O
        /\ nextBlock r' = nextBlock this).
Proof.
  split; [intros this1 this2; apply parse_independent |].
  intros root pg this md r' Hroot Hpg Hels Hkids H.
  unfold parse in H. rewrite Hroot in H.
  destruct (parseBlock _ _ _ _ _ _ _ _) as [s r1| |] eqn:Hwalk; try discriminate.
  injection H as _ <-.
  apply find_some in Hroot as [_ Hpage]. apply bool_decide_eq_true in Hpage.
  destruct fuel as [|n]; [discriminate |].
  destruct (walk_childless_page _ _ _ _ _ _ _ _ _ _ Hpage Hpg Hels Hkids Hwalk)
    as (buf & Hbuf & ->).
  split; [|repeat split].
  assert (Hcode : isCode (currentBlock (entered
                    {| currentBlock := currentBlock this; nextBlock := nextBlock this;
                       indent := indent this; _fileTokens := [];
                       _title := _title this |} root O))
                  = isCode (currentBlock newRenderer)).
  { cbn [entered currentBlock isCode newRenderer]. now rewrite Hpage. }
  unfold titleOf, composed.
  now rewrite (parseTextElements_reads _ _ _ newRenderer _ _ Hcode Hbuf).
Qed.

(** C8 as stated fails: [parse] does more to the renderer than to write
    its buffer and its token list.  It sets the title, and the current
    block; and the title stays: a later call for a page without title
    elements leaves the title of the earlier page, where a fresh renderer
    has the empty title. *)
Lemma parse_leaves_title :
  exists md1 r1 md2 r2 md3 r3,
    parse sampleMarked sampleEmoji sampleStringify 3 nestedHeadingDoc newRenderer = Ok md1 r1
    /\ title newRenderer = "" /\ title r1 = "Notes"
    /\ currentBlock newRenderer = None /\ currentBlock r1 <> None
    /\ parse sampleMarked sampleEmoji sampleStringify 1 untitledDoc r1 = Ok md2 r2
    /\ title r2 = "Notes"
    /\ parse sampleMarked sampleEmoji sampleStringify 1 untitledDoc newRenderer = Ok md3 r3
    /\ title r3 = "".
Proof.
  eexists _, _, _, _, _, _.
  split; [vm_compute; reflexivity |].
  split; [reflexivity |]. split; [reflexivity |]. split; [reflexivity |].
  split; [discriminate |].
  split; [vm_compute; reflexivity |]. split; [reflexivity |].
  split; [vm_compute; reflexivity | reflexivity].
Qed.

(* ===================================================================== *)
(** * Merged cells, rows of cells and the text of [parse] *)
(* ===================================================================== *)

Lemma markCovered_length (ci : list Z) (x : Z) :
  List.length (markCovered ci x) = List.length ci.
Proof. unfold markCovered. destruct (_ && _); [apply length_insert | reflexivity]. Qed.

Lemma markCovered_lookup (ci : list Z) (x : Z) (t : nat) :
  (t < List.length ci)%nat ->
  markCovered ci x !! t = if Z.of_nat t =? x then Some 0 else ci !! t.
Proof.
  intros Ht. unfold markCovered.
  destruct (Z.eqb_spec (Z.of_nat t) x) as [<-|Hne].
  - destruct (Z.ltb_spec (Z.of_nat t) (Z.of_nat (List.length ci))); [|lia].
    destruct (Z.leb_spec 0 (Z.of_nat t)); [|lia]. cbn [andb].
    rewrite Nat2Z.id. now apply list_lookup_insert_eq.
  - destruct (_ && _) eqn:E; [|reflexivity].
    apply andb_true_iff in E as [_ E]. apply Z.leb_le in E.
    apply list_lookup_insert_ne. lia.
Qed.

Lemma foldl_marks (xs : list Z) :
  forall ci,
    List.length (foldl markCovered ci xs) = List.length ci
    /\ forall t, (t < List.length ci)%nat ->
         (foldl markCovered ci xs !! t = Some 0 /\ Z.of_nat t ∈ xs)
         \/ (foldl markCovered ci xs !! t = ci !! t /\ Z.of_nat t ∉ xs).
Proof.
  induction xs as [|x xs IH]; intros ci; cbn [foldl].
  - split; [reflexivity |]. intros t Ht. right. split; [reflexivity | apply not_elem_of_nil].
  - destruct (IH (markCovered ci x)) as [Hlen Hlook]. rewrite markCovered_length in *.
    split; [exact Hlen |]. intros t Ht.
    destruct (Hlook t Ht) as [[H0 Hin]|[Hsame Hnot]].
    + left. split; [exact H0 | now right].
    + rewrite markCovered_lookup in Hsame by assumption.
      destruct (Z.eqb_spec (Z.of_nat t) x) as [->|Hne].
      * left. split; [exact Hsame | left].
      * right. split; [exact Hsame |]. rewrite not_elem_of_cons. now split.
Qed.

Lemma foldl_fmap_marks {A} (g : A -> Z) (l : list A) (ci : list Z) :
  foldl (fun ci x => markCovered ci (g x)) ci l = foldl markCovered ci (g <$> l).
Proof. revert ci. induction l as [|x l IH]; intros ci; cbn; [reflexivity | apply IH]. Qed.

Lemma foldl_app_marks (l1 l2 : list Z) (ci : list Z) :
  foldl markCovered ci (l1 ++ l2) = foldl markCovered (foldl markCovered ci l1) l2.
Proof. apply foldl_app. Qed.

Lemma spanSteps_nil (span : Z) : span <= 1 -> spanSteps span = [].
Proof. intros H. unfold spanSteps. now replace (Z.to_nat (span - 1)) with O by lia. Qed.

Lemma elem_of_spanSteps (span j : Z) : j ∈ spanSteps span <-> 1 <= j < span.
Proof.
  unfold spanSteps. rewrite list_elem_of_fmap. setoid_rewrite elem_of_seq. split.
  - intros (k & -> & Hk). lia.
  - intros Hj. exists (Z.to_nat j). split; lia.
Qed.

Lemma computeCellInfos_marks (mi : list TableMergeInfo) (cs : Z) :
  computeCellInfos mi cs
  = foldl markCovered ((fun _ => 1) <$> mi) (mjoin (targets cs <$> imap pair mi)).
Proof.
  unfold computeCellInfos.
  generalize ((fun _ : TableMergeInfo => 1) <$> mi) as ci.
  generalize (imap pair mi) as es.
  induction es as [|[i info] es IH]; intros ci; [reflexivity |].
  cbn [foldl fmap list_fmap mjoin list_join]. rewrite foldl_app_marks, IH. f_equal.
  unfold targets. cbn [fst snd]. rewrite foldl_app_marks, <- !foldl_fmap_marks.
  destruct (Z.gtb_spec (row_span info) 1) as [Hr|Hr];
    destruct (Z.gtb_spec (col_span info) 1) as [Hc|Hc];
    rewrite ?(spanSteps_nil _ Hr), ?(spanSteps_nil _ Hc); reflexivity.
Qed.

Lemma elem_of_targets (mi : list TableMergeInfo) (cs : Z) (t : nat) :
  Z.of_nat t ∈ mjoin (targets cs <$> imap pair mi) <-> covered mi cs t.
Proof.
  rewrite list_elem_of_join. unfold covered. split.
  - intros (l & Ht & Hl). apply list_elem_of_fmap in Hl as ([i info] & -> & He).
    apply elem_of_lookup_imap in He as (i' & info' & Heq & Hi). injection Heq as -> ->.
    exists i', info'. split; [exact Hi |].
    unfold targets in Ht. cbn [fst snd] in Ht.
    apply elem_of_app in Ht as [Ht|Ht];
      apply list_elem_of_fmap in Ht as (j & Hj & Hin); apply elem_of_spanSteps in Hin;
      [left | right]; now exists j.
  - intros (i & info & Hi & Hcov). exists (targets cs (i, info)). split.
    + unfold targets. cbn [fst snd]. apply elem_of_app.
      destruct Hcov as [(j & Hj & Ht)|(j & Hj & Ht)]; [left | right];
        apply list_elem_of_fmap; exists j; (split; [exact Ht | now apply elem_of_spanSteps]).
    + apply list_elem_of_fmap. exists (i, info). split; [reflexivity |].
      apply elem_of_lookup_imap. now exists i, info.
Qed.

(** X22: [cellInfos] has an entry for each merge entry: [0] for a cell that
    is marked as covered on account of some merge entry ([j] rows below
    the cell of the entry, or [j] cells after it, for a [j] from 1 and
    below the span), [1] for every other cell.  No element is written for
    a cell that has no merge entry. *)
Theorem cell_infos_mark_covered (mergeInfos : list TableMergeInfo) (columnSize : Z) :
  let cellInfos := computeCellInfos mergeInfos columnSize in
  List.length cellInfos = List.length mergeInfos
  /\ (forall t, (t < List.length mergeInfos)%nat ->
        (cellInfos !! t = Some 0 /\ covered mergeInfos columnSize t)
        \/ (cellInfos !! t = Some 1 /\ ~ covered mergeInfos columnSize t))
  /\ (forall b k cell tag, (List.length mergeInfos <= k)%nat ->
        writeCell mergeInfos cellInfos (b, k) cell tag = (b, S k)).
Proof.
  intros cellInfos. unfold cellInfos. rewrite computeCellInfos_marks.
  destruct (foldl_marks (mjoin (targets columnSize <$> imap pair mergeInfos))
              ((fun _ => 1) <$> mergeInfos)) as [Hlen Hlook].
  rewrite length_fmap in *. split; [exact Hlen |]. split.
  - intros t Ht. destruct (Hlook t Ht) as [[H0 Hin]|[Hsame Hnot]].
    + left. split; [exact H0 | now apply elem_of_targets].
    + right. split.
      * rewrite Hsame, list_lookup_fmap.
        destruct (lookup_lt_is_Some_2 mergeInfos t Ht) as [info ->]. reflexivity.
      * intros Hcov. apply Hnot. now apply elem_of_targets.
  - intros b k cell tag Hk. unfold writeCell.
    rewrite (lookup_ge_None_2 _ k) by lia. reflexivity.
Qed.

Lemma rowsOf_lookup (n : nat) (l : list string) (k : nat) :
  rowsOf n l !! k
  = if decide (k < numRows n (List.length l))%nat
    then Some (take n (drop (k * n) l)) else None.
Proof.
  unfold rowsOf. rewrite list_lookup_fmap. destruct (decide _) as [H|H].
  - now rewrite lookup_seq_lt.
  - rewrite lookup_seq_ge by lia. reflexivity.
Qed.

Lemma rowsOf_nil (n : nat) : rowsOf n [] = [[]].
Proof. unfold rowsOf. cbn. now rewrite take_nil. Qed.

Lemma rowsOf_length (n : nat) (l : list string) :
  List.length (rowsOf n l) = numRows n (List.length l).
Proof. unfold rowsOf. now rewrite length_fmap, length_seq. Qed.

Lemma chunk_app_full (n k : nat) (l : list string) (x : string) :
  (k * n + n <= List.length l)%nat ->
  take n (drop (k * n) (l ++ [x])) = take n (drop (k * n) l).
Proof.
  intros H. rewrite drop_app_le by lia. apply take_app_le. rewrite length_drop. lia.
Qed.

Lemma chunk_app_last (n k : nat) (l : list string) (x : string) :
  (k * n <= List.length l < k * n + n)%nat ->
  take n (drop (k * n) (l ++ [x])) = take n (drop (k * n) l) ++ [x].
Proof.
  intros H. rewrite drop_app_le by lia.
  rewrite !take_ge; [reflexivity | rewrite length_drop; lia |].
  rewrite length_app, length_drop. simpl. lia.
Qed.

Lemma numRows_cases (n idx : nat) :
  (0 < n)%nat ->
  let q := (idx / n)%nat in
  (q * n <= idx < q * n + n)%nat
  /\ (numRows n idx = q /\ idx = (q * n)%nat /\ (0 < q)%nat \/ numRows n idx = (q + 1)%nat).
Proof.
  intros Hn q.
  pose proof (Nat.div_mod_eq idx n) as Hdm.
  pose proof (Nat.mod_upper_bound idx n ltac:(lia)) as Hm.
  fold q in Hdm. set (m := (idx mod n)%nat) in *.
  split; [lia |].
  destruct idx as [|i]; [right; unfold q; simpl; now rewrite Nat.Div0.div_0_l |].
  cbn [numRows]. destruct m as [|m'] eqn:Em.
  - left. assert (Hq : (0 < q)%nat) by (destruct q; lia).
    split; [|split; [lia | exact Hq]].
    rewrite <- (Nat.div_unique i n (q - 1) (n - 1)); [lia | lia |].
    destruct q as [|q']; [lia |]. replace (S q' - 1)%nat with q' by lia. lia.
  - right. rewrite <- (Nat.div_unique i n q m'); [reflexivity | lia | lia].
Qed.

Lemma pushCell_rowsOf (n : nat) (l : list string) (cell : string) :
  (0 < n)%nat ->
  pushCell (rowsOf n l) (List.length l) (Z.of_nat n) cell = Some (rowsOf n (l ++ [cell])).
Proof.
  intros Hn. unfold pushCell.
  destruct (Z.eqb_spec (Z.of_nat n) 0) as [H0|_]; [lia |].
  rewrite <- Nat2Z.inj_div. set (idx := List.length l). set (q := (idx / n)%nat).
  destruct (Z.ltb_spec (Z.of_nat q) 0) as [Hneg|_]; [lia |].
  rewrite Nat2Z.id, rowsOf_length. fold idx.
  destruct (numRows_cases n idx Hn) as [Hq Hrows]. fold q in Hq, Hrows.
  assert (Hnew : numRows n (List.length (l ++ [cell])) = (q + 1)%nat).
  { rewrite length_app. simpl. fold idx. replace (idx + 1)%nat with (S idx) by lia.
    reflexivity. }
  assert (Hgoal : forall rows',
             List.length rows' = (q + 1)%nat ->
             (forall k, (k < q)%nat -> rows' !! k = rowsOf n l !! k) ->
             rows' !! q = Some (take n (drop (q * n) l) ++ [cell]) ->
             rows' = rowsOf n (l ++ [cell])).
  { intros rows' Hlen Hlow Hat. apply list_eq. intros k.
    rewrite (rowsOf_lookup n (l ++ [cell])), Hnew.
    destruct (decide (k < q + 1)%nat) as [Hk|Hk].
    - destruct (decide (k = q)) as [->|Hkq].
      + rewrite Hat, chunk_app_last by (fold idx; lia). reflexivity.
      + rewrite Hlow, rowsOf_lookup by lia. fold idx.
        assert (k * n + n <= q * n)%nat by nia.
        rewrite chunk_app_full by (fold idx; lia).
        destruct (decide _) as [|Hno]; [reflexivity |].
        exfalso. apply Hno. destruct Hrows as [(Hrows & _)|Hrows]; rewrite Hrows; lia.
    - apply lookup_ge_None_2. lia. }
  assert (Hlen : List.length (rowsOf n l) = numRows n idx) by apply rowsOf_length.
  destruct Hrows as [(Hrows & Hidx & Hq0)|Hrows]; rewrite Hrows; rewrite Hrows in Hlen.
  - destruct (Z.ltb_spec (Z.of_nat q) (Z.of_nat q + 1)) as [_|]; [|lia].
    rewrite lookup_app_r by lia.
    rewrite Hlen, Nat.sub_diag. cbn [lookup list_lookup].
    f_equal. apply Hgoal.
    + rewrite length_insert, length_app, Hlen. simpl. lia.
    + intros k Hk. rewrite list_lookup_insert_ne by lia.
      apply lookup_app_l. lia.
    + rewrite list_lookup_insert_eq.
      * f_equal. rewrite <- Hidx. unfold idx. now rewrite drop_all, take_nil.
      * rewrite length_app, Hlen. simpl. lia.
  - destruct (Z.ltb_spec (Z.of_nat (q + 1)) (Z.of_nat q + 1)) as [|_]; [lia |].
    rewrite rowsOf_lookup. fold idx. rewrite Hrows.
    destruct (decide (q < q + 1)%nat) as [_|]; [|lia].
    f_equal. apply Hgoal.
    + rewrite length_insert, Hlen. lia.
    + intros k Hk. apply list_lookup_insert_ne. lia.
    + apply list_lookup_insert_eq. lia.
Qed.

Section Rows.
Variable bm : gmap string Block.
Variable rec : Block -> nat -> M string.

Lemma collect_rendered (finish : string -> string) (table : TableBlock) (n : nat)
    (ids : list string) (r : Renderer) (texts : list string) (r' : Renderer) :
  (0 < n)%nat ->
  column_size (property table) = Z.of_nat n ->
  Forall (fun c => is_Some (bm !! c)) ids ->
  rendered bm rec 0 ids r texts r' ->
  forall l,
    forEach (collectCell bm rec finish table) (List.length l) ids (rowsOf n l) r
    = Ok (rowsOf n (l ++ (finish <$> texts))) r'.
Proof.
  intros Hn Hcs Hall Hr.
  induction Hr as [r|c ids r texts r' Hc _ _|c child ids r s r1 texts r' Hc Hs _ IH];
    intros l.
  - cbn [forEach fmap list_fmap]. now rewrite app_nil_r.
  - apply Forall_cons in Hall as [[b Hb] _]. congruence.
  - apply Forall_cons in Hall as [_ Hall].
    cbn [forEach]. unfold collectCell at 1. rewrite Hc.
    unfold bind at 1. unfold bind at 1. rewrite Hs.
    rewrite Hcs, pushCell_rowsOf by exact Hn. unfold ret at 1.
    specialize (IH Hall (l ++ [finish s])).
    rewrite length_app in IH. simpl in IH.
    replace (List.length l + 1)%nat with (S (List.length l)) in IH by lia.
    rewrite IH. cbn [fmap list_fmap]. now rewrite <- app_assoc.
Qed.

(** X23: the cells of a table are collected row after row, [column_size] of
    them in each row and the rest in the last one; a table without cells
    has the one empty row the loop starts from.  This holds when every
    cell is a block of the list and the table has one column at least:
    the texts are the cells rendered in order at depth 0. *)
Theorem table_cells_row_major (finish : string -> string) (table : TableBlock)
    (r : Renderer) (texts : list string) (r' : Renderer) :
  0 < column_size (property table) ->
  Forall (fun c => is_Some (bm !! c)) (cells table) ->
  rendered bm rec 0 (cells table) r texts r' ->
  parseCells bm rec finish table r
  = Ok (rowsOf (Z.to_nat (column_size (property table))) (finish <$> texts)) r'.
Proof.
  intros Hcs Hall Hr. unfold parseCells.
  pose proof (collect_rendered finish table (Z.to_nat (column_size (property table)))
                (cells table) r texts r' ltac:(lia) ltac:(lia) Hall Hr []) as H.
  now rewrite rowsOf_nil in H.
Qed.

End Rows.

Lemma lineFeeds_pipeRow (cells : list string) :
  Forall (fun c => lineFeeds c = O) cells -> lineFeeds (pipeRow cells) = 1%nat.
Proof.
  intros H. unfold pipeRow. rewrite !lineFeeds_app.
  assert (Hc : lineFeeds (Js.concat ((fun cell => cell +:+ "|") <$> cells)) = O).
  { induction H as [|c cells Hc _ IH]; [reflexivity |].
    cbn [fmap list_fmap Js.concat]. rewrite !lineFeeds_app, Hc. exact IH. }
  rewrite Hc. reflexivity.
Qed.

Lemma lineFeeds_separatorRow (n : nat) : lineFeeds (separatorRow n) = 1%nat.
Proof.
  unfold separatorRow. rewrite !lineFeeds_app.
  assert (Hc : lineFeeds (Js.repeat "---|" n) = O).
  { induction n as [|n IH]; [reflexivity |]. cbn [Js.repeat]. now rewrite lineFeeds_app, IH. }
  rewrite Hc. reflexivity.
Qed.

Lemma lineFeeds_pipeRows (body : list (list string)) :
  Forall (Forall (fun c => lineFeeds c = O)) body ->
  lineFeeds (Js.concat (pipeRow <$> body)) = List.length body.
Proof.
  induction 1 as [|row body Hrow _ IH]; [reflexivity |].
  cbn [fmap list_fmap Js.concat List.length].
  now rewrite lineFeeds_app, (lineFeeds_pipeRow _ Hrow), IH.
Qed.

Lemma rowsOf_cells (P : string -> Prop) (n : nat) (l : list string) :
  Forall P l -> Forall (Forall P) (rowsOf n l).
Proof.
  intros H. unfold rowsOf. apply Forall_fmap, Forall_forall. intros k _.
  cbn. now apply Forall_take, Forall_drop.
Qed.

Lemma rowsOf_shift (n : nat) (l : list string) :
  exists head body,
    rowsOf n l = head :: body /\ List.length body = (numRows n (List.length l) - 1)%nat.
Proof.
  pose proof (rowsOf_length n l) as Hlen.
  destruct (rowsOf n l) as [|head body].
  - exfalso. destruct (List.length l); cbn in Hlen; lia.
  - exists head, body. split; [reflexivity |]. simpl in Hlen. lia.
Qed.

Lemma lineFeeds_header (headRow : list string) (cs : Z) :
  Forall (fun c => lineFeeds c = O) headRow ->
  Forall (fun c => lineFeeds c = O) ((fun i => cellOr headRow i " ") <$> columns cs).
Proof.
  intros H. apply Forall_fmap, Forall_forall. intros i _. cbn. unfold cellOr.
  destruct (headRow !! i) as [s|] eqn:E; [|reflexivity].
  destruct s as [|c s]; [reflexivity |].
  apply (Forall_lookup_1 _ _ _ _ H E).
Qed.

Section Rows2.
Variable marked_parse : string -> string.
Variable bm : gmap string Block.
Variable rec : Block -> nat -> M string.

(** X24: a table on the pipe path with one column at least, whose cells are
    all blocks of the list, is written as the header line, the separator
    line and one line for each row of cells, the first row being the
    header line when [header_row] is set: 2 lines and one for each row, or
    for each row but the first. *)
Theorem gfm_table_lines (table : TableBlock) (r : Renderer) (texts : list string)
    (r' : Renderer) :
  ~ complexTable table ->
  0 < column_size (property table) ->
  Forall (fun c => is_Some (bm !! c)) (cells table) ->
  rendered bm rec 0 (cells table) r texts r' ->
  exists out,
    parseTable marked_parse bm rec (Some table) r = Ok out r'
    /\ lineFeeds out
       = (2 + numRows (Z.to_nat (column_size (property table))) (List.length texts)
          - (if header_row (property table) then 1 else 0))%nat.
Proof.
  intros Hn Hcs Hall Hr.
  set (n := Z.to_nat (column_size (property table))).
  assert (Hcells : parseCells bm rec gfmCell table r = Ok (rowsOf n (gfmCell <$> texts)) r').
  { unfold parseCells.
    pose proof (collect_rendered bm rec gfmCell table n (cells table) r texts r'
                  ltac:(lia) ltac:(lia) Hall Hr []) as H.
    now rewrite rowsOf_nil in H. }
  eexists. split; [exact (parseTable_gfm marked_parse bm rec table r r' _ Hn Hcells) |].
  rewrite writeGfmTable_layout.
  assert (Hfree : Forall (Forall (fun c => lineFeeds c = O)) (rowsOf n (gfmCell <$> texts))).
  { apply rowsOf_cells, Forall_fmap, Forall_forall. intros t _. apply lineFeeds_gfmCell. }
  destruct (rowsOf_shift n (gfmCell <$> texts)) as (head & body & Hrows & Hbody).
  rewrite length_fmap in Hbody.
  pose proof (rowsOf_length n (gfmCell <$> texts)) as Hlen. rewrite length_fmap in Hlen.
  rewrite Hrows in Hfree, Hlen |- *. apply Forall_cons in Hfree as [Hhead Hrest].
  cbn [List.length] in Hlen. fold n.
  destruct (header_row (property table)); cbn [shiftRow].
  - rewrite !lineFeeds_app, lineFeeds_pipeRow by now apply lineFeeds_header.
    rewrite lineFeeds_separatorRow, (lineFeeds_pipeRows _ Hrest). lia.
  - rewrite !lineFeeds_app, lineFeeds_pipeRow by (apply lineFeeds_header; constructor).
    rewrite lineFeeds_separatorRow, (lineFeeds_pipeRows (head :: body)) by now constructor.
    cbn [List.length]. lia.
Qed.

End Rows2.




Lemma countChar_app (c : ascii) (a b : string) :
  countChar c (a +:+ b) = (countChar c a + countChar c b)%nat.
Proof.
  induction a as [|x a IH]; [reflexivity |].
  rewrite app_cons_s. simpl. rewrite IH. lia.
Qed.

Lemma countChar_absent (c : ascii) (s : string) :
  hasChar c s = false -> countChar c s = O.
Proof.
  induction s as [|a s IH]; [reflexivity |]. simpl. intros H.
  apply orb_false_iff in H as [Ha Hs]. now rewrite Ha, IH.
Qed.

Lemma countChar_replaceChar (c sep : ascii) (rep s : string) :
  Ascii.eqb sep c = false -> countChar c rep = O ->
  countChar c (Js.replaceChar sep rep s) = countChar c s.
Proof.
  intros Hsep Hrep. induction s as [|a s IH]; [reflexivity |].
  cbn [Js.replaceChar countChar]. destruct (Ascii.eqb a sep) eqn:E.
  - apply Ascii.eqb_eq in E. subst a. now rewrite countChar_app, Hrep, Hsep, IH.
  - cbn [countChar]. now rewrite IH.
Qed.

Lemma countChar_trimLastNewline (c : ascii) (t : string) :
  Ascii.eqb (Js.chr 10) c = false ->
  countChar c (trimLastNewline t) = countChar c t.
Proof.
  intros Hc. unfold trimLastNewline. destruct (Js.endsWith t Js.LF) eqn:E; [|reflexivity].
  apply endsWith_spec in E as [a ->].
  change 1%nat with (String.length Js.LF). rewrite dropLast_app, countChar_app.
  unfold Js.LF. cbn [countChar]. rewrite Hc. lia.
Qed.

(** The pipes of a cell of a pipe table are those of the text of the
    cell. *)
Lemma countChar_gfmCell (t : string) : countChar "|" (gfmCell t) = countChar "|" t.
Proof.
  unfold gfmCell. rewrite countChar_replaceChar by reflexivity.
  now apply countChar_trimLastNewline.
Qed.

Lemma countChar_headerCell (t : string) : countChar "|" (headerCell t) = countChar "|" t.
Proof.
  rewrite <- (countChar_gfmCell t). unfold headerCell. now destruct (gfmCell t).
Qed.

Lemma countChar_pipeRow2 (a b : string) :
  countChar "|" (pipeRow [a; b]) = (3 + countChar "|" a + countChar "|" b)%nat.
Proof.
  unfold pipeRow. cbn [fmap list_fmap Js.concat].
  rewrite !countChar_app. cbn [countChar Ascii.eqb Bool.eqb]. unfold Js.LF. simpl. lia.
Qed.

Section Choice.
Variable marked_parse : string -> string.
Variable bm : gmap string Block.
Variable rec : Block -> nat -> M string.


(** C5, as amended: a table of two rows and two columns with a header
    row, no merge and no wide column, whose four cells are in the block
    map and render, gives a pipe table of three lines: the header line
    (the first row, a blank for an empty cell), the separator line and one
    body line (the second row).  Each line is a pipe and then its two
    cells with a pipe after each: it has three pipes and the pipes of the
    texts of its cells, which are written as they are; so it has three
    pipes, two cells between them, when no text of a cell holds a
    pipe. *)
Theorem gfm_table_2x2 (table : TableBlock)
    (c0 c1 c2 c3 : string) (b0 b1 b2 b3 : Block) (t0 t1 t2 t3 : string)
    (r r1 r2 r3 r4 : Renderer) :
  cells table = [c0; c1; c2; c3] ->
  column_size (property table) = 2 ->
  header_row (property table) = true ->
  ~ complexTable table ->
  bm !! c0 = Some b0 -> bm !! c1 = Some b1 -> bm !! c2 = Some b2 -> bm !! c3 = Some b3 ->
  rec b0 O r = Ok t0 r1 -> rec b1 O r1 = Ok t1 r2 ->
  rec b2 O r2 = Ok t2 r3 -> rec b3 O r3 = Ok t3 r4 ->
  let header := pipeRow [headerCell t0; headerCell t1] in
  let body := pipeRow [gfmCell t2; gfmCell t3] in
  parseTable marked_parse bm rec (Some table) r
  = Ok (header +:+ separatorRow 2 +:+ body) r4
  /\ lineFeeds (header +:+ separatorRow 2 +:+ body) = 3%nat
  /\ lineFeeds header = 1%nat /\ lineFeeds (separatorRow 2) = 1%nat /\ lineFeeds body = 1%nat
  /\ countChar "|" (separatorRow 2) = 3%nat
  /\ countChar "|" header = (3 + countChar "|" t0 + countChar "|" t1)%nat
  /\ countChar "|" body = (3 + countChar "|" t2 + countChar "|" t3)%nat
  /\ (hasChar "|" t0 = false -> hasChar "|" t1 = false -> countChar "|" header = 3%nat)
  /\ (hasChar "|" t2 = false -> hasChar "|" t3 = false -> countChar "|" body = 3%nat).
Proof.
  intros Hcells Hcols Hhead Hn H0 H1 H2 H3 R0 R1 R2 R3 header body.
  assert (Hh : lineFeeds header = 1%nat).
  { unfold header, pipeRow. cbn [fmap list_fmap Js.concat].
    rewrite !lineFeeds_app, !lineFeeds_headerCell. reflexivity. }
  assert (Hb : lineFeeds body = 1%nat).
  { unfold body, pipeRow. cbn [fmap list_fmap Js.concat].
    rewrite !lineFeeds_app, !lineFeeds_gfmCell. reflexivity. }
  assert (Hch : countChar "|" header = (3 + countChar "|" t0 + countChar "|" t1)%nat).
  { unfold header. now rewrite countChar_pipeRow2, !countChar_headerCell. }
  assert (Hcb : countChar "|" body = (3 + countChar "|" t2 + countChar "|" t3)%nat).
  { unfold body. now rewrite countChar_pipeRow2, !countChar_gfmCell. }
  split; [|split; [|split; [|split; [|split; [|split; [|split; [|split; [|split]]]]]]]].
  - rewrite (parseTable_gfm marked_parse bm rec table _ _ _ Hn
               (parseCells_2x2 bm rec gfmCell table _ _ _ _ _ _ _ _ _ _ _ _ _ _ _ _ _
                  Hcells Hcols H0 H1 H2 H3 R0 R1 R2 R3)).
    rewrite writeGfmTable_layout, Hhead, Hcols. f_equal.
    unfold header, body. change (columns 2) with [0; 1]%nat. change (Z.to_nat 2) with 2%nat.
    cbn [shiftRow fmap list_fmap Js.concat]. rewrite !app_nil_r_s.
    now rewrite (cellOr_headerCell _ 0 t0), (cellOr_headerCell _ 1 t1).
  - rewrite !lineFeeds_app, Hh, Hb. reflexivity.
  - exact Hh.
  - reflexivity.
  - exact Hb.
  - reflexivity.
  - exact Hch.
  - exact Hcb.
  - intros P0 P1. rewrite Hch, (countChar_absent _ _ P0), (countChar_absent _ _ P1). reflexivity.
  - intros P2 P3. rewrite Hcb, (countChar_absent _ _ P2), (countChar_absent _ _ P3). reflexivity.
Qed.

End Choice.


(** A pipe in the text of a cell is written as it is, and the header
    line then has a pipe more than its two cells account for. *)
Lemma pipe_in_cell_not_escaped :
  returned (parseTable sampleMarked (buildBlockMap pipeCellDoc)
              (sampleWalk (buildBlockMap pipeCellDoc) 2)
              (Some (sampleTable plainProperty)) newRenderer)
  = Some ("|a|b|Age|" +:+ Js.LF +:+ "|---|---|" +:+ Js.LF +:+ "|Ann|41|" +:+ Js.LF)
  /\ countChar "|" ("|a|b|Age|" +:+ Js.LF) = 4%nat.
Proof. split; vm_compute; reflexivity. Qed.


(** The later of two blocks with the same id is the one of the map. *)
Lemma buildBlockMap_snoc (blocks : list Block) (x : Block) :
  buildBlockMap (blocks ++ [x]) = <[block_id x := x]> (buildBlockMap blocks).
Proof. unfold buildBlockMap. now rewrite foldl_app. Qed.

(** X25: [parse] looks a block up by its id and finds the last block of the
    list with that id: a block whose id comes again later in the list is
    never rendered as a child. *)
Theorem buildBlockMap_last_wins (blocks : list Block) (id : string) :
  buildBlockMap blocks !! id
  = List.find (fun b => String.eqb (block_id b) id) (rev blocks).
Proof.
  induction blocks as [|x blocks IH] using rev_ind; [reflexivity |].
  rewrite buildBlockMap_snoc, rev_app_distr. cbn [rev app List.find].
  destruct (String.eqb_spec (block_id x) id) as [<-|Hne].
  - apply lookup_insert_eq.
  - rewrite lookup_insert_ne by exact Hne. exact IH.
Qed.

(** X26: the text [parse] returns is a text with no white space at its start
    or its end (trimming it changes nothing), and one line feed after
    it. *)
Theorem parse_output_trimmed (marked_parse getEmojiChar : string -> string)
    (JSON_stringify : Block -> string) (fuel : nat) (blocks : list Block)
    (this : Renderer) (md : string) (r' : Renderer) :
  parse marked_parse getEmojiChar JSON_stringify fuel blocks this = Ok md r' ->
  exists body, md = body +:+ Js.LF /\ Js.trim body = body.
Proof.
  unfold parse. intros H.
  destruct (findRoot blocks) as [root|]; [|discriminate].
  destruct (parseBlock _ _ _ _ _ _ _ _) as [result r1| |]; try discriminate.
  injection H as <- _. exists (Js.trim result). split; [reflexivity | apply trim_fixed].
Qed.

(* ===================================================================== *)
(** * Grids and callouts *)
(* ===================================================================== *)

Section Inner.
Variables (marked_parse getEmojiChar : string -> string) (JSON_stringify : Block -> string).
Variable bm : gmap string Block.

Local Notation "'walk'" := (parseBlock marked_parse getEmojiChar JSON_stringify bm).

Lemma innerParts_joined (rec : Block -> nat -> M string) (ids : list string)
    (r : Renderer) (texts : list string) (r' : Renderer) :
  joined bm rec ids r texts r' -> innerParts bm rec ids r = Ok texts r'.
Proof.
  unfold innerParts.
  induction 1 as [r|c ids r texts r' Hc _ IH|c child ids r s r1 texts r' Hc Hs _ IH];
    cbn [mapM].
  - reflexivity.
  - rewrite Hc. unfold bind at 1. unfold ret at 1. unfold bind at 1. now rewrite IH.
  - rewrite Hc. unfold bind at 1. rewrite Hs. unfold bind at 1. now rewrite IH.
Qed.

Lemma parseInner_joined (rec : Block -> nat -> M string) (block : Block)
    (r : Renderer) (texts : list string) (r' : Renderer) :
  joined bm rec (children block) r texts r' ->
  parseInner bm rec block r = Ok (Js.join Js.LF texts) r'.
Proof.
  intros H. unfold parseInner, bind. now rewrite (innerParts_joined _ _ _ _ _ H).
Qed.

Lemma walk_enter (n : nat) (block : Block) (ind : nat) (r : Renderer)
    (body : M string) (s : string) (r' : Renderer) :
  (parseBlockBody marked_parse getEmojiChar JSON_stringify bm (walk n) block ind r
   = (let* buf := (let* s := body in
                   ret (Buffer.write (Buffer.writeIndent Buffer.new ind) s)) in
      ret (Buffer.toString buf)) (entered r block ind)) ->
  body (entered r block ind) = Ok s r' ->
  walk (S n) block ind r = Ok (Js.repeat "   " ind +:+ s) r'.
Proof.
  intros Hbody Hs. cbn [parseBlock]. rewrite Hbody. unfold bind. rewrite Hs.
  unfold ret. now rewrite toString_write, toString_writeIndent, toString_new.
Qed.

(** X27: a grid is rendered as its opening tag, its children one after the
    other and the closing tag; each child is rendered as a grid column,
    whatever its type, and a child that is in no block of the list adds
    nothing.  A grid column is its opening tag, the HTML of the texts of
    its children joined by line feeds, and the closing tag; a child of the
    column that is in no block of the list counts as an empty text. *)
Theorem grid_fragment (n : nat) (block : Block) (ind : nat) (r : Renderer) :
  (forall cols r',
     block_type block = Grid ->
     rendered bm (fun child _ => parseGridColumn marked_parse bm (walk n) child) 0
       (children block) (entered r block ind) cols r' ->
     walk (S n) block ind r
     = Ok (Js.repeat "   " ind +:+ gridOpening block +:+ Js.concat cols
           +:+ "</div>" +:+ Js.LF) r')
  /\ (forall texts r',
        joined bm (walk n) (children block) r texts r' ->
        parseGridColumn marked_parse bm (walk n) block r
        = Ok (columnOpening block +:+ marked_parse (Js.join Js.LF texts)
              +:+ "</div>" +:+ Js.LF) r').
Proof.
  split.
  - intros cols r' Hty Hr.
    apply (walk_enter n block ind r (parseGrid marked_parse bm (walk n) block)).
    + unfold parseBlockBody. rewrite Hty. reflexivity.
    + unfold parseGrid.
      destruct (eachChild_rendered bm
                  (fun child _ => parseGridColumn marked_parse bm (walk n) child) 0
                  (fun s => s)
                  (fun child buf =>
                     let* s := parseGridColumn marked_parse bm (walk n) child in
                     ret (Buffer.write buf s))
                  (children block) (entered r block ind) cols r')
        with (buf := Buffer.writeln Buffer.new
                       ("<div class=" +:+ Js.quoted "grid" +:+ " style="
                        +:+ Js.quoted ("display: grid; grid-template-columns: repeat("
                                       +:+ Js.ofZ (orOne (match grid block with
                                                          | Some g => grid_column_size g
                                                          | None => 0
                                                          end))
                                       +:+ ", 1fr); gap: 16px;") +:+ ">"))
        as (buf' & H1 & H2); [|exact Hr|].
      * intros child buf r0 s r1 Hs. eexists. split.
        -- unfold bind. rewrite Hs. reflexivity.
        -- apply toString_write.
      * rewrite (bind_Ok_intro _ _ _ _ _ H1). unfold ret. f_equal.
        rewrite toString_writeln, H2, toString_writeln, toString_new, list_fmap_id.
        unfold gridOpening. now rewrite !app_assoc_s.
  - intros texts r' Hj. unfold parseGridColumn.
    rewrite (bind_Ok_intro _ _ _ _ _ (parseInner_joined _ _ _ _ _ Hj)). unfold ret. f_equal.
    rewrite toString_writeln, toString_write, toString_writeln, toString_new.
    unfold columnOpening, markdownToHTML. now rewrite !app_assoc_s.
Qed.

(** X28: a callout without colours is rendered as a [div] of the class
    [callout]: the element of its emoji if it has one, the HTML of the
    texts of its children joined by line feeds, and the closing tag.  The
    children are rendered at depth 0, and a child that is in no block of
    the list counts as an empty text. *)
Theorem callout_fragment (n : nat) (block : Block) (ind : nat) (r : Renderer)
    (texts : list string) (r' : Renderer) :
  block_type block = Callout ->
  plainCallout block ->
  joined bm (walk n) (children block) (entered r block ind) texts r' ->
  walk (S n) block ind r
  = Ok (Js.repeat "   " ind +:+ "<div class=" +:+ Js.quoted "callout" +:+ ">" +:+ Js.LF
        +:+ emojiSpan getEmojiChar block
        +:+ marked_parse (Js.join Js.LF texts) +:+ "</div>" +:+ Js.LF) r'.
Proof.
  intros Hty Hplain Hj.
  rewrite (walk_enter n block ind r
             (parseCallout marked_parse getEmojiChar bm (walk n) block)
             ("<div class=" +:+ Js.quoted "callout" +:+ ">" +:+ Js.LF
              +:+ emojiSpan getEmojiChar block
              +:+ marked_parse (Js.join Js.LF texts) +:+ "</div>" +:+ Js.LF) r').
  - reflexivity.
  - unfold parseBlockBody. rewrite Hty. reflexivity.
  - unfold parseCallout.
    rewrite (bind_Ok_intro _ _ _ _ _ (parseInner_joined _ _ _ _ _ Hj)). unfold ret. f_equal.
    unfold emojiSpan, plainCallout, markdownToHTML in *.
    destruct (callout block) as [c|].
    + destruct (Hplain c eq_refl) as (-> & -> & ->). cbn [Z.eqb app Js.join].
      destruct (emoji_id c) as [|a id];
        repeat (rewrite toString_writeln || rewrite toString_write);
        rewrite toString_new, ?app_nil_l_s, ?app_assoc_s; reflexivity.
    + cbn [Z.eqb app Js.join].
      repeat (rewrite toString_writeln || rewrite toString_write).
      rewrite toString_new, ?app_nil_l_s, ?app_assoc_s. reflexivity.
Qed.

End Inner.

(* ===================================================================== *)
(** * Embedded pages and the children of a paragraph *)
(* ===================================================================== *)

Lemma decode_plain (s : string) :
  hasChar "%" s = false -> Js.decodeURIComponent s = Some s.
Proof.
  unfold Js.decodeURIComponent. induction s as [|c s IH]; [reflexivity |].
  cbn [hasChar Js.decodeFrom]. intros H. apply orb_false_iff in H as [Hc Hs].
  rewrite Hc, (IH Hs). reflexivity.
Qed.

Section Leaves.
Variables (marked_parse getEmojiChar : string -> string) (JSON_stringify : Block -> string).
Variable bm : gmap string Block.

Local Notation "'walk'" := (parseBlock marked_parse getEmojiChar JSON_stringify bm).

Lemma walk_iframe (n : nat) (block : Block) (ind : nat) (r : Renderer) :
  block_type block = Iframe ->
  walk (S n) block ind r
  = (let* buf := (let* s := parseIframe block in
                  ret (Buffer.write (Buffer.writeIndent Buffer.new ind) s)) in
     ret (Buffer.toString buf)) (entered r block ind).
Proof. intros Hty. cbn [parseBlock]. unfold parseBlockBody. now rewrite Hty. Qed.

(** X29: an embedded page is rendered as an [iframe] element whose source is
    the URL with its percent escapes decoded, a URL without a percent
    sign being kept as it is; without a URL nothing is written but the
    indentation; and a URL that cannot be decoded is thrown out of the
    walk as a [URIError]. *)
Theorem iframe_fragment (n : nat) (block : Block) (ind : nat) (r : Renderer)
    (f : IframeBlock) :
  block_type block = Iframe ->
  iframe block = Some f ->
  (iframe_url f = "" ->
   walk (S n) block ind r = Ok (Js.repeat "   " ind) (entered r block ind))
  /\ (forall decoded,
        iframe_url f <> "" -> Js.decodeURIComponent (iframe_url f) = Some decoded ->
        walk (S n) block ind r
        = Ok (Js.repeat "   " ind +:+ "<iframe src=" +:+ Js.quoted decoded +:+ "></iframe>"
              +:+ Js.LF) (entered r block ind))
  /\ (iframe_url f <> "" -> hasChar "%" (iframe_url f) = false ->
      walk (S n) block ind r
      = Ok (Js.repeat "   " ind +:+ "<iframe src=" +:+ Js.quoted (iframe_url f)
            +:+ "></iframe>" +:+ Js.LF) (entered r block ind))
  /\ (Js.decodeURIComponent (iframe_url f) = None ->
      walk (S n) block ind r = Throw URIError).
Proof.
  intros Hty Hf. rewrite (walk_iframe n block ind r Hty). unfold parseIframe. rewrite Hf.
  assert (Hdec : forall decoded,
             iframe_url f <> "" -> Js.decodeURIComponent (iframe_url f) = Some decoded ->
             (let* buf := (let* s := match iframe_url f with
                                     | "" => ret ""
                                     | u =>
                                         match Js.decodeURIComponent u with
                                         | None => throw URIError
                                         | Some decodedUrl =>
                                             let buf :=
                                               Buffer.write Buffer.new
                                                 ("<iframe src=" +:+ Js.quoted decodedUrl
                                                  +:+ "></iframe>") in
                                             ret (Buffer.toString (Buffer.write buf Js.LF))
                                         end
                                     end in
                           ret (Buffer.write (Buffer.writeIndent Buffer.new ind) s)) in
              ret (Buffer.toString buf)) (entered r block ind)
             = Ok (Js.repeat "   " ind +:+ "<iframe src=" +:+ Js.quoted decoded
                   +:+ "></iframe>" +:+ Js.LF) (entered r block ind)).
  { intros decoded Hne Hd. destruct (iframe_url f) as [|c u]; [congruence |].
    rewrite Hd. unfold bind, ret.
    rewrite !toString_write, toString_writeIndent, toString_new, app_nil_l_s.
    now rewrite !app_assoc_s. }
  split; [|split; [|split]].
  - intros ->. unfold bind, ret.
    now rewrite toString_write, toString_writeIndent, toString_new, app_nil_r_s.
  - exact Hdec.
  - intros Hne H. apply (Hdec _ Hne). now apply decode_plain.
  - intros Hd. destruct (iframe_url f) as [|c u]; [discriminate Hd |].
    rewrite Hd. reflexivity.
Qed.

Lemma eachChild_renderedAt (rec : Block -> nat -> M string) (ids : list string)
    (r : Renderer) (texts : list string) (r' : Renderer) :
  renderedAt bm rec ids r texts r' ->
  forall buf,
  exists buf',
    eachChild bm (fun child buf =>
                    let* ind := getIndent in
                    let* s := rec child ind in
                    ret (Buffer.write buf s)) ids buf r = Ok buf' r'
    /\ Buffer.toString buf' = Buffer.toString buf +:+ Js.concat texts.
Proof.
  induction 1 as [r|c ids r texts r' Hc _ IH|c child ids r s r1 texts r' Hc Hs _ IH];
    intros buf.
  - exists buf. split; [reflexivity |]. simpl. now rewrite app_nil_r_s.
  - destruct (IH buf) as (buf' & H1 & H2). exists buf'. split; [|exact H2].
    cbn [eachChild]. rewrite Hc. unfold bind at 1. unfold ret at 1. exact H1.
  - destruct (IH (Buffer.write buf s)) as (buf' & H1 & H2). exists buf'. split.
    + cbn [eachChild]. rewrite Hc. unfold bind at 1. unfold bind at 1.
      unfold getIndent at 1. unfold bind at 1. rewrite Hs. unfold ret at 1. exact H1.
    + rewrite H2, toString_write. cbn [Js.concat]. now rewrite app_assoc_s.
Qed.

(** X30: a paragraph is rendered as the indentation, its line and its
    children.  Each child is rendered at the depth the renderer holds when
    the child is reached: the depth of the paragraph for the first child
    that is found, and for a later one the depth of the block that was
    rendered last, which is deeper after a child with children of its
    own. *)
Theorem text_children_depth (n : nat) (block : Block) (ind : nat) (r : Renderer)
    (tb : TextBlock) (buf : Buffer.t) (r1 : Renderer) (kids : list string)
    (r' : Renderer) :
  block_type block = Text ->
  text block = Some tb ->
  parseTextElements Buffer.new (elements tb) (entered r block ind) = Ok buf r1 ->
  renderedAt bm (walk n) (children block) (entered r block ind) kids r' ->
  walk (S n) block ind r
  = Ok (Js.repeat "   " ind +:+ textLine (Buffer.toString buf) +:+ Js.concat kids) r'.
Proof.
  intros Hty Htb Hels Hkids.
  pose proof (parseTextElements_state _ _ _ _ _ Hels) as ->.
  cbn [parseBlock]. unfold parseBlockBody.
  unfold bind at 1. cbn [setIndent]. unfold bind at 1. cbn [setCurrentBlock].
  change {| currentBlock := Some block; nextBlock := _; indent := _;
            _fileTokens := _; _title := _ |} with (entered r block ind).
  rewrite Hty, Htb. cbv iota. unfold parseTextBlock. rewrite Hty.
  rewrite (bool_decide_eq_true_2 (Text ∈ childrenBlockTypes)) by (unfold childrenBlockTypes; left).
  unfold bind at 1. unfold bind at 1. unfold bind at 1. rewrite Hels.
  set (line := if bool_decide (0 < Buffer.length buf)%nat
               then Buffer.write buf Js.LF else buf).
  destruct (eachChild_renderedAt (walk n) _ _ _ _ Hkids line) as (buf' & H1 & H2).
  unfold bind at 1. rewrite H1. unfold ret. f_equal.
  rewrite toString_write, toString_writeIndent, toString_new, app_nil_l_s, H2.
  assert (Hline : Buffer.toString line = textLine (Buffer.toString buf)).
  { unfold line, textLine, Buffer.length. rewrite foldl_length_parts.
    change (Js.concat (Buffer.parts buf)) with (Buffer.toString buf).
    destruct (Buffer.toString buf) as [|c s] eqn:E.
    - rewrite bool_decide_eq_false_2 by (simpl; lia). exact E.
    - rewrite bool_decide_eq_true_2 by (simpl; lia). rewrite toString_write. now rewrite E. }
  now rewrite Hline.
Qed.

End Leaves.

(* ===================================================================== *)
(** * The theorems at sample documents *)
(* ===================================================================== *)

(** The second of two ordered items at the start of a page. *)
Lemma ordered_item_ordinal_witness :
  orderOf (buildBlockMap orderedListDoc) (textualBlock "b" "doc" Ordered [] [plainRun "two"])
  = 2%nat.
Proof.
  refine (proj1 (ordered_item_ordinal (buildBlockMap orderedListDoc)
                   (textualBlock "b" "doc" Ordered [] [plainRun "two"])
                   (textualBlock "doc" "" Page ["a"; "b"; "x"; "c"] [plainRun "Steps"]) 1
                   _ _ _)).
  - vm_compute. reflexivity.
  - reflexivity.
  - intros H. apply list_elem_of_singleton in H. discriminate H.
Defined.

(** The sample table with a header row. *)
Lemma gfm_table_2x2_witness :
  parseTable sampleMarked (buildBlockMap (tableDoc plainProperty))
    (sampleWalk (buildBlockMap (tableDoc plainProperty)) 2)
    (Some (sampleTable plainProperty)) newRenderer
  = Ok ("|Name|Age|" +:+ Js.LF +:+ "|---|---|" +:+ Js.LF +:+ "|Ann|41|" +:+ Js.LF)
       (entered newRenderer (samplePara "p3" "c3" "41") 0).
Proof.
  refine (proj1 (gfm_table_2x2 sampleMarked (buildBlockMap (tableDoc plainProperty))
             (sampleWalk (buildBlockMap (tableDoc plainProperty)) 2)
             (sampleTable plainProperty)
             "c0" "c1" "c2" "c3"
             (sampleCell "c0" "p0") (sampleCell "c1" "p1")
             (sampleCell "c2" "p2") (sampleCell "c3" "p3")
             ("Name" +:+ Js.LF) ("Age" +:+ Js.LF) ("Ann" +:+ Js.LF) ("41" +:+ Js.LF)
             newRenderer
             (entered newRenderer (samplePara "p0" "c0" "Name") 0)
             (entered newRenderer (samplePara "p1" "c1" "Age") 0)
             (entered newRenderer (samplePara "p2" "c2" "Ann") 0)
             (entered newRenderer (samplePara "p3" "c3" "41") 0)
             eq_refl eq_refl eq_refl _ _ _ _ _ _ _ _ _)).
  - intros Hc. apply isComplexTable_spec in Hc. discriminate Hc.
  - vm_compute. reflexivity.
  - vm_compute. reflexivity.
  - vm_compute. reflexivity.
  - vm_compute. reflexivity.
  - vm_compute. reflexivity.
  - vm_compute. reflexivity.
  - vm_compute. reflexivity.
  - vm_compute. reflexivity.
Defined.

(** C5 as stated fails: the table of two rows with a header row has
    three lines, not four; the header line is the first row. *)
Lemma plain_table_has_three_lines :
  returned (parse sampleMarked sampleEmoji sampleStringify 4 (tableDoc plainProperty)
              newRenderer)
  = Some ("# Report" +:+ Js.LF +:+ Js.LF
          +:+ "|Name|Age|" +:+ Js.LF +:+ "|---|---|" +:+ Js.LF +:+ "|Ann|41|" +:+ Js.LF)
  /\ returned (parseTable sampleMarked (buildBlockMap (tableDoc plainProperty))
                 (sampleWalk (buildBlockMap (tableDoc plainProperty)) 2)
                 (Some (sampleTable plainProperty)) newRenderer)
     = Some ("|Name|Age|" +:+ Js.LF +:+ "|---|---|" +:+ Js.LF +:+ "|Ann|41|" +:+ Js.LF)
  /\ lineFeeds ("|Name|Age|" +:+ Js.LF +:+ "|---|---|" +:+ Js.LF +:+ "|Ann|41|" +:+ Js.LF)
     = 3%nat
  /\ lineFeeds ("|Name|Age|" +:+ Js.LF +:+ "|---|---|" +:+ Js.LF +:+ "|Ann|41|" +:+ Js.LF)
     <> 4%nat.
Proof. repeat split; try (vm_compute; reflexivity). vm_compute. discriminate. Qed.

(** The sample table without a header row. *)
Lemma headless_gfm_table_witness :
  parseTable sampleMarked (buildBlockMap (tableDoc headlessProperty))
    (sampleWalk (buildBlockMap (tableDoc headlessProperty)) 2)
    (Some (sampleTable headlessProperty)) newRenderer
  = Ok ("| | |" +:+ Js.LF +:+ "|---|---|" +:+ Js.LF
        +:+ "|Name|Age|" +:+ Js.LF +:+ "|Ann|41|" +:+ Js.LF)
       (entered newRenderer (samplePara "p3" "c3" "41") 0).
Proof.
  apply (headless_gfm_table sampleMarked (buildBlockMap (tableDoc headlessProperty))
           (sampleWalk (buildBlockMap (tableDoc headlessProperty)) 2)
           (sampleTable headlessProperty) newRenderer
           (entered newRenderer (samplePara "p3" "c3" "41") 0)
           [["Name"; "Age"]; ["Ann"; "41"]]).
  - intros Hc. apply isComplexTable_spec in Hc. discriminate Hc.
  - reflexivity.
  - vm_compute. reflexivity.
Defined.

(** The sample table with its first cell spanning both rows; the cell
    texts are converted by [sampleMarked], which leaves them as they
    are. *)
Lemma html_table_rowspan_witness :
  parseTable sampleMarked (buildBlockMap (tableDoc mergedProperty))
    (sampleWalk (buildBlockMap (tableDoc mergedProperty)) 2)
    (Some (sampleTable mergedProperty)) newRenderer
  = Ok ("<table header_row=" +:+ Js.quoted "1" +:+ ">" +:+ Js.LF
        +:+ "  <colgroup>" +:+ Js.LF
        +:+ "    <col width=" +:+ Js.quoted "100" +:+ " />" +:+ Js.LF
        +:+ "    <col width=" +:+ Js.quoted "100" +:+ " />" +:+ Js.LF
        +:+ "  </colgroup>" +:+ Js.LF
        +:+ "  <thead>" +:+ Js.LF
        +:+ "    <tr><th rowspan=" +:+ Js.quoted "2" +:+ ">Name</th><th>Age</th></tr>" +:+ Js.LF
        +:+ "  </thead>" +:+ Js.LF
        +:+ "  <tbody>" +:+ Js.LF
        +:+ "    <tr><td>41</td></tr>" +:+ Js.LF
        +:+ "  </tbody>" +:+ Js.LF
        +:+ "</table>" +:+ Js.LF)
       (entered newRenderer (samplePara "p3" "c3" "41") 0).
Proof.
  refine (html_table_rowspan sampleMarked (buildBlockMap (tableDoc mergedProperty))
            (sampleWalk (buildBlockMap (tableDoc mergedProperty)) 2)
            (sampleTable mergedProperty)
            "c0" "c1" "c2" "c3"
            (sampleCell "c0" "p0") (sampleCell "c1" "p1")
            (sampleCell "c2" "p2") (sampleCell "c3" "p3")
            ("Name" +:+ Js.LF) ("Age" +:+ Js.LF) ("Ann" +:+ Js.LF) ("41" +:+ Js.LF)
            newRenderer
            (entered newRenderer (samplePara "p0" "c0" "Name") 0)
            (entered newRenderer (samplePara "p1" "c1" "Age") 0)
            (entered newRenderer (samplePara "p2" "c2" "Ann") 0)
            (entered newRenderer (samplePara "p3" "c3" "41") 0)
            eq_refl eq_refl eq_refl eq_refl _ _ _ _ _ _ _ _); vm_compute; reflexivity.
Defined.


(** A page whose first child is in no block of the list: the block list
    is well formed and [parse] returns. *)
Lemma parse_root_error_witness :
  exists md r',
    parse sampleMarked sampleEmoji sampleStringify 2 missingChildDoc newRenderer = Ok md r'.
Proof.
  refine (proj2 (proj2 (proj2 (proj2
            (parse_root_error sampleMarked sampleEmoji sampleStringify 2
               missingChildDoc newRenderer))))
            flatRank (textualBlock "doc" "" Page ["gone"; "a"] [plainRun "Steps"]) _ _ _).
  - intros b Hb.
    apply elem_of_cons in Hb as [->|Hb]; [|apply elem_of_cons in Hb as [->|Hb]].
    + split; [reflexivity | split; [reflexivity |]].
      intros c cb Hc Hcb.
      apply elem_of_cons in Hc as [->|Hc]; [vm_compute in Hcb; discriminate Hcb |].
      apply elem_of_cons in Hc as [->|Hc].
      * vm_compute in Hcb. injection Hcb as <-. vm_compute. lia.
      * apply elem_of_nil in Hc. contradiction.
    + split; [reflexivity | split; [reflexivity |]].
      intros c cb Hc. apply elem_of_nil in Hc. contradiction.
    + apply elem_of_nil in Hb. contradiction.
  - reflexivity.
  - vm_compute. lia.
Defined.

(* ===================================================================== *)
(** * The further properties at sample documents *)
(* ===================================================================== *)

Lemma table_cells_row_major_witness :
  parseCells (buildBlockMap cellsDoc)
    (parseBlock sampleMarked sampleEmoji sampleStringify (buildBlockMap cellsDoc) 1)
    gfmCell threeCells newRenderer
  = Ok [["one"; "two"]; ["three"]]
       (entered newRenderer (textualBlock "c" "t" Text [] [plainRun "three"]) 0).
Proof.
  refine (table_cells_row_major (buildBlockMap cellsDoc)
            (parseBlock sampleMarked sampleEmoji sampleStringify (buildBlockMap cellsDoc) 1)
            gfmCell threeCells newRenderer
            ["one" +:+ Js.LF; "two" +:+ Js.LF; "three" +:+ Js.LF] _ _ _ _).
  - reflexivity.
  - repeat constructor; vm_compute; eexists; reflexivity.
  - eapply rendered_child; [vm_compute; reflexivity | vm_compute; reflexivity |].
    eapply rendered_child; [vm_compute; reflexivity | vm_compute; reflexivity |].
    eapply rendered_child; [vm_compute; reflexivity | vm_compute; reflexivity |].
    apply rendered_nil.
Defined.

Lemma gfm_table_lines_witness :
  exists out,
    parseTable sampleMarked (buildBlockMap cellsDoc)
      (parseBlock sampleMarked sampleEmoji sampleStringify (buildBlockMap cellsDoc) 1)
      (Some threeCells) newRenderer
    = Ok out (entered newRenderer (textualBlock "c" "t" Text [] [plainRun "three"]) 0)
    /\ lineFeeds out = 3%nat.
Proof.
  refine (gfm_table_lines sampleMarked (buildBlockMap cellsDoc)
            (parseBlock sampleMarked sampleEmoji sampleStringify (buildBlockMap cellsDoc) 1)
            threeCells newRenderer
            ["one" +:+ Js.LF; "two" +:+ Js.LF; "three" +:+ Js.LF] _ _ _ _ _).
  - intros [H|H]; apply Exists_nil in H; exact H.
  - reflexivity.
  - repeat constructor; vm_compute; eexists; reflexivity.
  - eapply rendered_child; [vm_compute; reflexivity | vm_compute; reflexivity |].
    eapply rendered_child; [vm_compute; reflexivity | vm_compute; reflexivity |].
    eapply rendered_child; [vm_compute; reflexivity | vm_compute; reflexivity |].
    apply rendered_nil.
Defined.

Lemma parse_output_trimmed_witness :
  exists md r' body,
    parse sampleMarked sampleEmoji sampleStringify 3 nestedHeadingDoc newRenderer = Ok md r'
    /\ md = body +:+ Js.LF /\ Js.trim body = body.
Proof.
  destruct (parse sampleMarked sampleEmoji sampleStringify 3 nestedHeadingDoc newRenderer)
    as [md r'| |] eqn:H; [| vm_compute in H; discriminate ..].
  destruct (parse_output_trimmed _ _ _ _ _ _ _ _ H) as (body & H1 & H2).
  exists md, r', body. auto.
Defined.

Lemma fragment_starts_with_indentation_witness :
  exists rest,
    "      # Nested" +:+ Js.LF = Js.repeat "   " 2 +:+ rest.
Proof.
  apply (fragment_starts_with_indentation sampleMarked sampleEmoji sampleStringify ∅ 0
           (textualBlock "head" "item" Heading1 [] [plainRun "Nested"]) 2 newRenderer
           ("      # Nested" +:+ Js.LF)
           (entered newRenderer (textualBlock "head" "item" Heading1 [] [plainRun "Nested"]) 2)).
  vm_compute. reflexivity.
Defined.

Lemma unsupported_block_renders_nothing_witness :
  parseBlock sampleMarked sampleEmoji sampleStringify ∅ 1
    (bareBlock "s" "doc" Sheet []) 1 newRenderer
  = Ok "   " (entered newRenderer (bareBlock "s" "doc" Sheet []) 1).
Proof.
  exact (proj1 (unsupported_block_renders_nothing sampleMarked sampleEmoji sampleStringify ∅ 0
                  (bareBlock "s" "doc" Sheet []) 1 newRenderer eq_refl)).
Defined.

Lemma grid_fragment_witness :
  exists r',
    parseBlock sampleMarked sampleEmoji sampleStringify (buildBlockMap calloutDoc) 3
      (bareBlock "cols" "doc" Grid ["p2"]) 0 newRenderer
    = Ok (gridOpening (bareBlock "cols" "doc" Grid ["p2"])
          +:+ (columnOpening (textualBlock "p2" "cols" Text ["p3"] [plainRun "second"])
               +:+ "third" +:+ Js.LF +:+ "</div>" +:+ Js.LF)
          +:+ "</div>" +:+ Js.LF) r'.
Proof.
  eexists.
  refine (proj1 (grid_fragment sampleMarked sampleEmoji sampleStringify
                   (buildBlockMap calloutDoc) 2
                   (bareBlock "cols" "doc" Grid ["p2"]) 0 newRenderer)
            [columnOpening (textualBlock "p2" "cols" Text ["p3"] [plainRun "second"])
             +:+ "third" +:+ Js.LF +:+ "</div>" +:+ Js.LF] _ eq_refl _).
  eapply rendered_child; [vm_compute; reflexivity | |apply rendered_nil].
  refine (proj2 (grid_fragment sampleMarked sampleEmoji sampleStringify
                   (buildBlockMap calloutDoc) 2
                   (textualBlock "p2" "cols" Text ["p3"] [plainRun "second"]) 0 _)
            ["third" +:+ Js.LF] _ _).
  eapply joined_child; [vm_compute; reflexivity | vm_compute; reflexivity |].
  apply joined_nil.
Defined.

Lemma callout_fragment_witness :
  exists r',
    parseBlock sampleMarked sampleEmoji sampleStringify (buildBlockMap calloutDoc) 2
      (bareBlock "box" "doc" Callout ["p1"; "gone"]) 1 newRenderer
    = Ok ("   <div class=" +:+ Js.quoted "callout" +:+ ">" +:+ Js.LF
          +:+ "first" +:+ Js.LF +:+ Js.LF +:+ "</div>" +:+ Js.LF) r'.
Proof.
  eexists.
  refine (callout_fragment sampleMarked sampleEmoji sampleStringify
            (buildBlockMap calloutDoc) 1
            (bareBlock "box" "doc" Callout ["p1"; "gone"]) 1 newRenderer
            ["first" +:+ Js.LF; ""] _ eq_refl _ _).
  - intros c Hc. discriminate Hc.
  - eapply joined_child; [vm_compute; reflexivity | vm_compute; reflexivity |].
    eapply joined_missing; [vm_compute; reflexivity |].
    apply joined_nil.
Defined.

Lemma iframe_fragment_witness :
  parseBlock sampleMarked sampleEmoji sampleStringify ∅ 1
    (iframeBlock "v" "doc" "https://example.com/a%20b") 0 newRenderer
  = Ok ("<iframe src=" +:+ Js.quoted "https://example.com/a b" +:+ "></iframe>" +:+ Js.LF)
       (entered newRenderer (iframeBlock "v" "doc" "https://example.com/a%20b") 0)
  /\ parseBlock sampleMarked sampleEmoji sampleStringify ∅ 1
       (iframeBlock "v" "doc" "50%") 0 newRenderer
     = Throw URIError.
Proof.
  split.
  - refine (proj1 (proj2 (iframe_fragment sampleMarked sampleEmoji sampleStringify ∅ 0
                            (iframeBlock "v" "doc" "https://example.com/a%20b") 0 newRenderer
                            _ eq_refl eq_refl)) "https://example.com/a b" _ _).
    + discriminate.
    + vm_compute. reflexivity.
  - refine (proj2 (proj2 (proj2 (iframe_fragment sampleMarked sampleEmoji sampleStringify ∅ 0
                                   (iframeBlock "v" "doc" "50%") 0 newRenderer
                                   _ eq_refl eq_refl))) _).
    vm_compute. reflexivity.
Defined.

Lemma text_children_depth_witness :
  exists r',
    parseBlock sampleMarked sampleEmoji sampleStringify (buildBlockMap driftDoc) 3
      (textualBlock "t" "doc" Text ["b"; "u"] [plainRun "top"]) 0 newRenderer
    = Ok ("top" +:+ Js.LF
          +:+ "- item" +:+ Js.LF +:+ "   - below" +:+ Js.LF
          +:+ "   after" +:+ Js.LF) r'.
Proof.
  eexists.
  refine (text_children_depth sampleMarked sampleEmoji sampleStringify
            (buildBlockMap driftDoc) 2
            (textualBlock "t" "doc" Text ["b"; "u"] [plainRun "top"]) 0 newRenderer
            _ (Buffer.mk [""; "top"; ""]) _
            ["- item" +:+ Js.LF +:+ "   - below" +:+ Js.LF; "   after" +:+ Js.LF] _
            eq_refl eq_refl _ _).
  - vm_compute. reflexivity.
  - eapply renderedAt_child; [vm_compute; reflexivity | vm_compute; reflexivity |].
    eapply renderedAt_child; [vm_compute; reflexivity | vm_compute; reflexivity |].
    apply renderedAt_nil.
Defined.

(** A page with title elements and no children. *)
Lemma parse_deterministic_witness :
  exists md r',
    parse sampleMarked sampleEmoji sampleStringify 1
      [textualBlock "doc" "" Page [] [plainRun "Notes "]] newRenderer = Ok md r'
    /\ Some (title r') = Some "Notes"
    /\ currentBlock r' = Some (textualBlock "doc" "" Page [] [plainRun "Notes "])
    /\ indent r' = O
    /\ nextBlock r' = nextBlock newRenderer.
Proof.
  eexists _, _. split; [vm_compute; reflexivity |].
  refine (proj2 (parse_deterministic sampleMarked sampleEmoji sampleStringify 1
                   [textualBlock "doc" "" Page [] [plainRun "Notes "]])
            (textualBlock "doc" "" Page [] [plainRun "Notes "])
            {| style := plainStyle; elements := [plainRun "Notes "] |}
            newRenderer _ _ eq_refl eq_refl _ eq_refl _).
  - discriminate.
  - vm_compute. reflexivity.
Defined.
